(** * data3d importer: material deduplication, mesh loop layout, scene import

    A shallow embedding of [import_data3d.py], of the part of
    [material_utils.py] it calls and of the import operator of
    [__init__.py], with the properties stated about them.

    - Python dictionaries are insertion-ordered association lists
      ([PyDict]): the order in which a dictionary is walked is visible in
      the source (first-seen-wins in the material table), so it is kept.
    - Python integers are [Z]; JSON numbers are exact rationals [Qc].
    - The Blender side ([bpy.data], [bpy.ops], [bpy.context]) is an explicit
      host state threaded through a state-and-exception monad.

    The first half of the file holds the model, the second half the
    statements about it. *)

From Stdlib Require Import QArith Qcanon.
From stdpp Require Import gmap strings list fin_maps pretty numbers.

Open Scope Z_scope.

(** ** Python dictionaries *)

Module PyDict.
Section Dict.
Context {K V : Type} `{EqDecision K}.

Definition dict := list (K * V).

(** [d[k]] / [d.get(k)]: the value stored under [k], if any. *)
Fixpoint get (d : dict) (k : K) : option V :=
  match d with
  | [] => None
  | (k', v) :: d' => if decide (k = k') then Some v else get d' k
  end.

(** [k in d] *)
Definition mem (d : dict) (k : K) : bool :=
  match get d k with Some _ => true | None => false end.

(** [d[k] = v]: overwrite in place, or append a new entry at the end. *)
Fixpoint set (d : dict) (k : K) (v : V) : dict :=
  match d with
  | [] => [(k, v)]
  | (k', v') :: d' =>
      if decide (k = k') then (k, v) :: d' else (k', v') :: set d' k v
  end.

(** [list(d)] and [d.items()] *)
Definition keys (d : dict) : list K := d.*1.
Definition items (d : dict) : list (K * V) := d.

End Dict.
Global Arguments dict : clear implicits.
End PyDict.

Abbreviation dict := PyDict.dict.

(** ** Material records *)

(** The values a raw material field can hold: a number (JSON numbers and
    booleans, which Python compares and hashes as numbers), a string,
    [None], a list of those (as decoded from JSON) or a tuple of those. *)
Inductive scalar :=
  | SNum (q : Qc)
  | SStr (s : string)
  | SNone.

Inductive value :=
  | VScalar (a : scalar)
  | VList (l : list scalar)
  | VTuple (l : list scalar).

Global Instance scalar_eq_dec : EqDecision scalar.
Proof. solve_decision. Defined.

Global Instance value_eq_dec : EqDecision value.
Proof. solve_decision. Defined.

Global Instance scalar_countable : Countable scalar.
Proof.
  refine (inj_countable'
    (λ a, match a with
          | SNum q => inl q
          | SStr s => inr (inl s)
          | SNone => inr (inr ())
          end)
    (λ e, match e with
          | inl q => SNum q
          | inr (inl s) => SStr s
          | inr (inr _) => SNone
          end) _).
  by intros [].
Defined.

Global Instance value_countable : Countable value.
Proof.
  refine (inj_countable'
    (λ v, match v with
          | VScalar a => inl a
          | VList l => inr (inl l)
          | VTuple l => inr (inr l)
          end)
    (λ e, match e with
          | inl a => VScalar a
          | inr (inl l) => VList l
          | inr (inr l) => VTuple l
          end) _).
  by intros [].
Defined.

(** [al_material]: a JSON object, field name to value. *)
Abbreviation material := (dict string value).

(** The key names of [data3d_utils.D3D] that the importer reads. The table
    itself is not among the sources, so the development is parametric in
    it: nothing below depends on the actual spelling. *)
Record D3D_names := {
  col_diff : string;
  col_spec : string;
  coef_spec : string;
  coef_emit : string;
  opacity : string;
  uv_scale : string;
  map_diff : string;
  map_spec : string;
  map_norm : string;
  map_alpha : string;
  map_light : string;
  map_suffix_source : string;
  map_suffix_preview : string;
  cast_shadows : string;
  receive_shadows : string;
  add_lightmap : string;
  use_in_calc : string;
  hide_after_calc : string;
  mat_default : string;
}.

(** What the importer takes from its surroundings:
    - the [D3D] name table;
    - Python's built-in [hash] on a [frozenset] of (key, value) pairs: a
      function of the set (equal sets hash equal), whose value is up to the
      interpreter;
    - whether the host accepts a reduced material record, that is, whether
      [create_blender_material] and [create_cycles_material] run through on
      it (they assign typed Blender properties and wire shader nodes, and
      raise on a value of the wrong shape). *)
Class Runtime := {
  D3D : D3D_names;
  py_hash : gset (string * value) → Z;
  host_accepts : material → bool;
}.

(** [tuple(value) if isinstance(value, list) else value] *)
Definition freeze (v : value) : value :=
  match v with
  | VList l => VTuple l
  | _ => v
  end.

(** ** Geometry records *)

Abbreviation vec := (list Qc).
Abbreviation matrix := (list (list Qc)).

(** One face: the four parallel index lists
    [(vert_loc_indices, vert_nor_indices, vert_uvs_indices, vert_uvs2_indices)]. *)
Record face := {
  f_vert : list Z;
  f_nor : list Z;
  f_uvs : list Z;
  f_uvs2 : list Z;
}.

(** [al_mesh]: the mesh dictionary; [m_material] is [None] when the
    dictionary has no [D3D.m_material] entry. *)
Record mesh_data := {
  m_name : string;
  verts_loc : list vec;
  verts_nor : list vec;
  verts_uvs : list vec;
  verts_uvs2 : list vec;
  faces : list face;
  m_material : option string;
}.

(** The mesh datablock [create_mesh] fills in. Per-loop normals and uvs are
    host-side array writes and carry no bookkeeping of their own. *)
Record bl_mesh := {
  me_name : string;
  me_vertices : nat;
  me_loops : Z;
  me_polygons : nat;
  me_vertex_index : list Z;
  me_loop_start : list Z;
  me_loop_total : list Z;
  me_materials : list nat;
}.

(** ** Scene nodes *)

(** Modelled from the spec: the class [Data3dObject] of [data3d_utils]
    (the SceneNode of the data model), which is not among the sources. The
    fields are those the importer reads and writes; [parent] and
    [children] refer to other nodes by their position in the node list, and
    [bl_object], [bl_emission_object] hold the handle the importer stored
    with [set_bl_object], [set_bl_emission_object], or [None]. *)
Record Data3dObject := {
  node_id : string;
  position : vec;
  rotation : vec;
  parent : option nat;
  children : list nat;
  meshes : list mesh_data;
  materials : dict string material;
  mat_hash_map : dict string string;
  bl_object : option nat;
  bl_emission_object : option nat;
}.

Definition set_mat_hash_map (o : Data3dObject) (m : dict string string)
    : Data3dObject :=
  {| node_id := node_id o; position := position o; rotation := rotation o;
     parent := parent o; children := children o; meshes := meshes o;
     materials := materials o; mat_hash_map := m;
     bl_object := bl_object o; bl_emission_object := bl_emission_object o |}.

Definition set_bl_object (o : Data3dObject) (b : option nat) : Data3dObject :=
  {| node_id := node_id o; position := position o; rotation := rotation o;
     parent := parent o; children := children o; meshes := meshes o;
     materials := materials o; mat_hash_map := mat_hash_map o;
     bl_object := b; bl_emission_object := bl_emission_object o |}.

Definition set_bl_emission_object (o : Data3dObject) (b : option nat)
    : Data3dObject :=
  {| node_id := node_id o; position := position o; rotation := rotation o;
     parent := parent o; children := children o; meshes := meshes o;
     materials := materials o; mat_hash_map := mat_hash_map o;
     bl_object := bl_object o; bl_emission_object := b |}.

(** [material_utils.Material] *)
Record Material := {
  al_material : material;
  al_material_hash : string;
  import_metadata : bool;
  bl_material : nat;
}.

(** ** [import_data3d_materials]: hashing and deduplication *)

Section Hashing.
Context `{RT : Runtime}.

(** [compare_keys], extended by the three internal-use keys when
    [import_metadata] is set. *)
Definition compare_keys (import_metadata : bool) : list string :=
  [ D3D.(col_diff);
    D3D.(col_spec);
    D3D.(coef_spec);
    D3D.(coef_emit);
    D3D.(opacity);
    D3D.(uv_scale);
    D3D.(map_diff); D3D.(map_diff) +:+ D3D.(map_suffix_source);
      D3D.(map_diff) +:+ D3D.(map_suffix_preview);
    D3D.(map_spec); D3D.(map_spec) +:+ D3D.(map_suffix_source);
      D3D.(map_spec) +:+ D3D.(map_suffix_preview);
    D3D.(map_norm); D3D.(map_norm) +:+ D3D.(map_suffix_source);
      D3D.(map_norm) +:+ D3D.(map_suffix_preview);
    D3D.(map_alpha); D3D.(map_alpha) +:+ D3D.(map_suffix_source);
      D3D.(map_alpha) +:+ D3D.(map_suffix_preview);
    D3D.(map_light); D3D.(map_light) +:+ D3D.(map_suffix_source);
      D3D.(map_light) +:+ D3D.(map_suffix_preview);
    D3D.(cast_shadows);
    D3D.(receive_shadows) ]
  ++ (if import_metadata
      then [D3D.(add_lightmap); D3D.(use_in_calc); D3D.(hide_after_calc)]
      else []).

(** One round of [for key in compare_keys: if key in al_material: ...] *)
Definition hash_nodes_step (al_material : material)
    (hash_nodes : material) (key : string) : material :=
  match PyDict.get al_material key with
  | Some v => PyDict.set hash_nodes key (freeze v)
  | None => hash_nodes
  end.

Definition reduce_material (keys : list string) (al_material : material)
    : material :=
  fold_left (hash_nodes_step al_material) keys [].

(** [frozenset(d.items())] *)
Definition frozenset_items (d : material) : gset (string * value) :=
  list_to_set (PyDict.items d).

(** Returns [(al_mat_hash, hash_nodes)]. *)
Definition get_al_material_hash (import_metadata : bool)
    (al_material : material) : Z * material :=
  let hash_nodes := reduce_material (compare_keys import_metadata) al_material in
  let al_mat_hash := py_hash (frozenset_items hash_nodes) in
  (al_mat_hash, hash_nodes).

(** [str(al_mat_hash)] *)
Definition str (n : Z) : string := pretty n.

(** The body of [for key in al_raw_materials]. The state is
    [(material_hash_map, al_hashed_materials)]. *)
Definition material_step (import_metadata : bool)
    (al_raw_materials : dict string material)
    (st : dict string string * dict Z material) (key : string)
    : dict string string * dict Z material :=
  match PyDict.get al_raw_materials key with
  | Some raw =>
      let '(al_mat_hash, al_mat) := get_al_material_hash import_metadata raw in
      let material_hash_map := PyDict.set st.1 key (str al_mat_hash) in
      let al_hashed_materials :=
        if PyDict.mem st.2 al_mat_hash then st.2
        else PyDict.set st.2 al_mat_hash al_mat in
      (material_hash_map, al_hashed_materials)
  | None => st
  end.

Definition hash_node_materials (import_metadata : bool)
    (al_raw_materials : dict string material)
    (al_hashed_materials : dict Z material)
    : dict string string * dict Z material :=
  fold_left (material_step import_metadata al_raw_materials)
    (PyDict.keys al_raw_materials) ([], al_hashed_materials).

(** [for data3d_object in data3d_objects]: every node gets its
    [mat_hash_map], the table is carried from node to node. *)
Fixpoint hash_objects (import_metadata : bool)
    (data3d_objects : list Data3dObject)
    (al_hashed_materials : dict Z material)
    : list Data3dObject * dict Z material :=
  match data3d_objects with
  | [] => ([], al_hashed_materials)
  | data3d_object :: rest =>
      let '(material_hash_map, tbl) :=
        hash_node_materials import_metadata (materials data3d_object)
          al_hashed_materials in
      let '(rest', tbl') := hash_objects import_metadata rest tbl in
      (set_mat_hash_map data3d_object material_hash_map :: rest', tbl')
  end.

(** The first half of [import_data3d_materials], up to the creation of the
    Blender materials: the nodes with their hash maps, and
    [al_hashed_materials]. *)
Definition deduplicate (import_metadata : bool)
    (data3d_objects : list Data3dObject)
    : list Data3dObject * dict Z material :=
  hash_objects import_metadata data3d_objects [].

(** The raw materials in the order the deduplicator meets them. *)
Definition encountered_in (o : Data3dObject) : list material :=
  omap (PyDict.get (materials o)) (PyDict.keys (materials o)).

Definition encountered (data3d_objects : list Data3dObject) : list material :=
  data3d_objects ≫= encountered_in.

(** What the check-then-insert of the table does for one raw material. *)
Definition table_insert (import_metadata : bool) (tbl : dict Z material)
    (raw : material) : dict Z material :=
  let '(al_mat_hash, al_mat) := get_al_material_hash import_metadata raw in
  if PyDict.mem tbl al_mat_hash then tbl
  else PyDict.set tbl al_mat_hash al_mat.

(** The first raw material of a sequence that hashes to [h]. *)
Definition first_with_hash (import_metadata : bool) (h : Z)
    (raws : list material) : option material :=
  List.find
    (λ raw, bool_decide ((get_al_material_hash import_metadata raw).1 = h))
    raws.

(** Two raw materials agree when every comparison-relevant key is present
    in both or in neither, and present values are equal once lists are
    read as tuples. *)
Definition agree (import_metadata : bool) (A B : material) : Prop :=
  ∀ k, k ∈ compare_keys import_metadata →
    freeze <$> PyDict.get A k = freeze <$> PyDict.get B k.

(** The interpreter's hash tells the two sets apart: they are not one of
    its collisions. *)
Definition no_collision (s t : gset (string * value)) : Prop :=
  py_hash s = py_hash t → s = t.

End Hashing.

(** ** [create_mesh]: loop bookkeeping *)

(** The body of [for f in faces]; the state is
    [(loops_vert_idx, faces_loop_start, faces_loop_total, l_idx)]. *)
Definition loop_step (st : list Z * list Z * list Z * Z) (f : face)
    : list Z * list Z * list Z * Z :=
  let '(loops_vert_idx, faces_loop_start, faces_loop_total, l_idx) := st in
  let v_idx := f_vert f in
  let nbr_vidx := 3 in
  (loops_vert_idx ++ v_idx,
   faces_loop_start ++ [l_idx],
   faces_loop_total ++ [nbr_vidx],
   l_idx + nbr_vidx).

Definition loop_layout (fs : list face) : list Z * list Z * list Z * Z :=
  fold_left loop_step fs ([], [], [], 0).

Definition create_mesh (data : mesh_data) : bl_mesh :=
  let total_loops := Z.of_nat (length (faces data)) * 3 in
  let '(loops_vert_idx, faces_loop_start, faces_loop_total, _) :=
    loop_layout (faces data) in
  {| me_name := m_name data;
     me_vertices := length (verts_loc data);
     me_loops := total_loops;
     me_polygons := length (faces data);
     me_vertex_index := loops_vert_idx;
     me_loop_start := faces_loop_start;
     me_loop_total := faces_loop_total;
     me_materials := [] |}.

(** All faces are trigons. *)
Definition triangular (f : face) : Prop := length (f_vert f) = 3%nat.

(** ** [create_mesh]: per-loop normals and uv coordinates *)

(** What a list or dictionary access of the mesh code raises. *)
Inductive lookup_error :=
  | IndexError
  | KeyError (key : string).

(** [l[i]] on a Python list: a negative index counts from the end; [None]
    stands for the [IndexError]. *)
Definition py_index {A} (l : list A) (i : Z) : option A :=
  let n := Z.of_nat (length l) in
  let j := if decide (i < 0) then n + i else i in
  if decide (0 ≤ j) then l !! Z.to_nat j else None.

(** The per-loop arrays the second loop of [create_mesh] writes:
    [me.loops[..].normal], [blen_uvs.data[..].uv],
    [blen_uvs2.data[..].uv]. An entry is [None] until the loop writes it;
    a uv layer that was not created is the empty array. What the host makes
    of a vector it is handed (its length, its precision) is the host's. *)
Record loop_attrs := {
  la_normal : list (option vec);
  la_uv : list (option vec);
  la_uv2 : list (option vec);
}.

(** [blen_poly.loop_indices]: [range(loop_start, loop_start + loop_total)] *)
Definition loop_indices (loop_start loop_total : Z) : list nat :=
  Z.to_nat <$> seqZ loop_start loop_total.

(** [for idx, loop_idx in zip(indices, loop_indices): arr[loop_idx] = src[idx]] *)
Fixpoint set_corners (src : list vec) (pairs : list (Z * nat))
    (arr : list (option vec)) : lookup_error + list (option vec) :=
  match pairs with
  | [] => inr arr
  | (idx, loop_idx) :: rest =>
      match py_index src idx with
      | Some v =>
          if decide (loop_idx < length arr)%nat
          then set_corners src rest (<[loop_idx := Some v]> arr)
          else inl IndexError
      | None => inl IndexError
      end
  end.

(** [if verts_uvs: for ... in zip(...): ...]: an empty coordinate list
    skips the loop. *)
Definition set_uv_corners (src : list vec) (pairs : list (Z * nat))
    (arr : list (option vec)) : lookup_error + list (option vec) :=
  if bool_decide (src ≠ []) then set_corners src pairs arr else inr arr.

(** The body of [for i, (face, blen_poly) in enumerate(zip(faces, me.polygons))];
    a polygon is its [(loop_start, loop_total)]. *)
Definition fill_face (data : mesh_data) (la : loop_attrs)
    (fp : face * (Z * Z)) : lookup_error + loop_attrs :=
  let '(f, (loop_start, loop_total)) := fp in
  let li := loop_indices loop_start loop_total in
  match set_corners (verts_nor data) (zip (f_nor f) li) (la_normal la) with
  | inl e => inl e
  | inr nors =>
      match set_uv_corners (verts_uvs data) (zip (f_uvs f) li) (la_uv la) with
      | inl e => inl e
      | inr uvs =>
          match set_uv_corners (verts_uvs2 data) (zip (f_uvs2 f) li)
                  (la_uv2 la) with
          | inl e => inl e
          | inr uvs2 =>
              inr {| la_normal := nors; la_uv := uvs; la_uv2 := uvs2 |}
          end
      end
  end.

Fixpoint fill_faces (data : mesh_data) (fps : list (face * (Z * Z)))
    (la : loop_attrs) : lookup_error + loop_attrs :=
  match fps with
  | [] => inr la
  | fp :: rest =>
      match fill_face data la fp with
      | inl e => inl e
      | inr la' => fill_faces data rest la'
      end
  end.

(** The layer [me.uv_textures.new] creates when the coordinate list is not
    empty: one entry per loop. *)
Definition uv_layer (src : list vec) (entries : list (option vec))
    : list (option vec) :=
  if bool_decide (src ≠ []) then entries else [].

(** [create_mesh] from the creation of the split normals to the end of the
    face loop, on the mesh the first loop laid out. *)
Definition fill_loops (data : mesh_data) : lookup_error + loop_attrs :=
  let me := create_mesh data in
  let blank := replicate (Z.to_nat (me_loops me)) None in
  fill_faces data
    (zip (faces data) (zip (me_loop_start me) (me_loop_total me)))
    {| la_normal := blank;
       la_uv := uv_layer (verts_uvs data) blank;
       la_uv2 := uv_layer (verts_uvs2 data) blank |}.

(** [nor_split_set]: [zip] over three references to one iterator of
    [cl_nors], so the flat array is read three at a time; what is left when
    fewer than three remain is dropped. *)
Fixpoint regroup3 {A} (flat : list A) : list (A * A * A) :=
  match flat with
  | a :: b :: c :: rest => (a, b, c) :: regroup3 rest
  | _ => []
  end.

(** The three corners a face contributes to a per-loop array: the value
    its [j]-th index picks, or nothing where the face has no [j]-th index. *)
Definition corners (src : list vec) (indices : list Z) : list (option vec) :=
  (λ j, indices !! j ≫= py_index src) <$> [0; 1; 2]%nat.

(** The indices of a face that the loop reads are in range. *)
Definition in_range (src : list vec) (indices : list Z) : Prop :=
  Forall (λ idx, is_Some (py_index src idx)) (take 3 indices).

Global Instance in_range_dec (src : list vec) (indices : list Z) :
  Decision (in_range src indices).
Proof. unfold in_range. apply _. Defined.

Definition uv_in_range (src : list vec) (indices : list Z) : Prop :=
  src ≠ [] → in_range src indices.

Definition face_in_range (data : mesh_data) (f : face) : Prop :=
  in_range (verts_nor data) (f_nor f)
  ∧ uv_in_range (verts_uvs data) (f_uvs f)
  ∧ uv_in_range (verts_uvs2 data) (f_uvs2 f).

Definition well_indexed (data : mesh_data) : Prop :=
  Forall (face_in_range data) (faces data).

Global Instance uv_in_range_dec (src : list vec) (indices : list Z) :
  Decision (uv_in_range src indices).
Proof. unfold uv_in_range. apply _. Defined.

Global Instance face_in_range_dec (data : mesh_data) (f : face) :
  Decision (face_in_range data f).
Proof. unfold face_in_range. apply _. Defined.

Global Instance well_indexed_dec (data : mesh_data) :
  Decision (well_indexed data).
Proof. unfold well_indexed. apply _. Defined.

(** Every mesh of every node of the list is well indexed. *)
Definition well_indexed_scene (objs : list Data3dObject) : Prop :=
  Forall (λ o, Forall well_indexed (meshes o)) objs.

Global Instance well_indexed_scene_dec (objs : list Data3dObject) :
  Decision (well_indexed_scene objs).
Proof. unfold well_indexed_scene. apply _. Defined.


(** ** The host: Blender's data, scene and operators *)

Inductive obj_type := MESH | EMPTY.

Global Instance obj_type_eq_dec : EqDecision obj_type.
Proof. solve_decision. Defined.

(** A [bpy.types.Object]. [ob_matrix_world] is the matrix last assigned to
    [matrix_world]; [None] means it was never assigned and the host derives
    it from location, rotation and parent. *)
Record bl_obj := {
  ob_name : string;
  ob_data : option bl_mesh;
  ob_parent : option nat;
  ob_location : vec;
  ob_rotation_euler : vec;
  ob_matrix_world : option matrix;
  ob_vis_shadow : bool;
  ob_vis_camera : bool;
}.

Definition ob_type (o : bl_obj) : obj_type :=
  match ob_data o with Some _ => MESH | None => EMPTY end.

(** The hierarchy and transform operations performed on the host. *)
Inductive event :=
  | EvSetParent (child : nat) (new_parent : option nat)
  | EvTransformApply (objs : list nat) (location : bool)
  | EvSetMatrixWorld (ob : nat) (m : matrix)
  | EvParentClear (objs : list nat)
  | EvRemove (ob : nat).

Global Instance event_eq_dec : EqDecision event.
Proof. solve_decision. Defined.

(** [h_objects] is [bpy.data.objects], keyed by object handle; [h_scene] is
    [C.scene.objects]; [h_selected] the objects whose [select] flag is set;
    [h_materials] is [bpy.data.materials], a material's handle being its
    position; [h_log] records the events above in the order they happen. *)
Record host := {
  h_objects : gmap nat bl_obj;
  h_scene : gset nat;
  h_selected : gset nat;
  h_active : option nat;
  h_materials : list string;
  h_log : list event;
}.

Definition with_objects (h : host) (m : gmap nat bl_obj) : host :=
  {| h_objects := m; h_scene := h_scene h; h_selected := h_selected h;
     h_active := h_active h; h_materials := h_materials h; h_log := h_log h |}.

Definition with_scene (h : host) (s : gset nat) : host :=
  {| h_objects := h_objects h; h_scene := s; h_selected := h_selected h;
     h_active := h_active h; h_materials := h_materials h; h_log := h_log h |}.

Definition with_selected (h : host) (s : gset nat) : host :=
  {| h_objects := h_objects h; h_scene := h_scene h; h_selected := s;
     h_active := h_active h; h_materials := h_materials h; h_log := h_log h |}.

Definition with_active (h : host) (a : option nat) : host :=
  {| h_objects := h_objects h; h_scene := h_scene h;
     h_selected := h_selected h; h_active := a;
     h_materials := h_materials h; h_log := h_log h |}.

Definition with_materials (h : host) (ms : list string) : host :=
  {| h_objects := h_objects h; h_scene := h_scene h;
     h_selected := h_selected h; h_active := h_active h;
     h_materials := ms; h_log := h_log h |}.

Definition log_event (h : host) (e : event) : host :=
  {| h_objects := h_objects h; h_scene := h_scene h;
     h_selected := h_selected h; h_active := h_active h;
     h_materials := h_materials h; h_log := h_log h ++ [e] |}.

(** *** Exceptions and the importer's monad *)

Inductive exn :=
  | TypeError (msg : string)
  | AttributeError (msg : string)
  | ReferenceError (msg : string)
  | HostError (msg : string)
  | LookupError (e : lookup_error)
  | Exception (msg : string)
  | ImportSceneFailed (inner : exn).

(** A computation runs on a host state and leaves one behind, also when it
    raises. *)
Definition M (A : Type) : Type := host → host * (exn + A).

Global Instance M_ret : MRet M := λ A a h, (h, inr a).

Global Instance M_bind : MBind M := λ A B f m h,
  match m h with
  | (h', inr a) => f a h'
  | (h', inl e) => (h', inl e)
  end.

Definition raise {A} (e : exn) : M A := λ h, (h, inl e).

(** [try: m except: handler] *)
Definition try_except {A} (m : M A) (handler : exn → M A) : M A := λ h,
  match m h with
  | (h', inl e) => handler e h'
  | r => r
  end.

Definition modify (f : host → host) : M unit := λ h, (f h, inr ()).

Definition gets {A} (f : host → A) : M A := λ h, (h, inr (f h)).

(** [for x in l: body x] *)
Fixpoint for_each {A} (l : list A) (body : A → M unit) : M unit :=
  match l with
  | [] => mret ()
  | x :: l' => body x;; for_each l' body
  end.

(** A loop that carries local variables [s]. *)
Fixpoint fold_m {A S} (body : S → A → M S) (l : list A) (s : S) : M S :=
  match l with
  | [] => mret s
  | x :: l' => s' ← body s x; fold_m body l' s'
  end.

(** A computation fails outright: whatever the host state, it raises. *)
Definition fails {A} (m : M A) : Prop := ∀ h, ∃ h' e, m h = (h', inl e).

(** A value that is an object or [None]; using [None] as an object raises. *)
Definition with_obj {A} (o : option nat) (k : nat → M A) : M A :=
  match o with
  | Some id => k id
  | None => raise (AttributeError "'NoneType' object has no attribute")
  end.

(** *** Host operations *)

Definition new_obj (name : string) (data : option bl_mesh) : bl_obj :=
  {| ob_name := name; ob_data := data; ob_parent := None;
     ob_location := []; ob_rotation_euler := []; ob_matrix_world := None;
     ob_vis_shadow := true; ob_vis_camera := true |}.

(** [D.objects.new(name, data)]: a new object under a handle not in use. *)
Definition objects_new (name : string) (data : option bl_mesh) : M nat := λ h,
  let id := fresh (dom (h_objects h)) in
  (with_objects h (<[id := new_obj name data]> (h_objects h)), inr id).

(** Attribute writes on an object; a stale handle is left alone. *)
Definition alter_object (f : bl_obj → bl_obj) (id : nat) : M unit :=
  modify (λ h, with_objects h (alter f id (h_objects h))).

Definition put_name (s : string) (o : bl_obj) : bl_obj :=
  {| ob_name := s; ob_data := ob_data o; ob_parent := ob_parent o;
     ob_location := ob_location o; ob_rotation_euler := ob_rotation_euler o;
     ob_matrix_world := ob_matrix_world o;
     ob_vis_shadow := ob_vis_shadow o; ob_vis_camera := ob_vis_camera o |}.

Definition put_data (d : option bl_mesh) (o : bl_obj) : bl_obj :=
  {| ob_name := ob_name o; ob_data := d; ob_parent := ob_parent o;
     ob_location := ob_location o; ob_rotation_euler := ob_rotation_euler o;
     ob_matrix_world := ob_matrix_world o;
     ob_vis_shadow := ob_vis_shadow o; ob_vis_camera := ob_vis_camera o |}.

Definition put_parent (p : option nat) (o : bl_obj) : bl_obj :=
  {| ob_name := ob_name o; ob_data := ob_data o; ob_parent := p;
     ob_location := ob_location o; ob_rotation_euler := ob_rotation_euler o;
     ob_matrix_world := ob_matrix_world o;
     ob_vis_shadow := ob_vis_shadow o; ob_vis_camera := ob_vis_camera o |}.

Definition put_location (v : vec) (o : bl_obj) : bl_obj :=
  {| ob_name := ob_name o; ob_data := ob_data o; ob_parent := ob_parent o;
     ob_location := v; ob_rotation_euler := ob_rotation_euler o;
     ob_matrix_world := ob_matrix_world o;
     ob_vis_shadow := ob_vis_shadow o; ob_vis_camera := ob_vis_camera o |}.

Definition put_rotation_euler (v : vec) (o : bl_obj) : bl_obj :=
  {| ob_name := ob_name o; ob_data := ob_data o; ob_parent := ob_parent o;
     ob_location := ob_location o; ob_rotation_euler := v;
     ob_matrix_world := ob_matrix_world o;
     ob_vis_shadow := ob_vis_shadow o; ob_vis_camera := ob_vis_camera o |}.

Definition put_matrix_world (m : matrix) (o : bl_obj) : bl_obj :=
  {| ob_name := ob_name o; ob_data := ob_data o; ob_parent := ob_parent o;
     ob_location := ob_location o; ob_rotation_euler := ob_rotation_euler o;
     ob_matrix_world := Some m;
     ob_vis_shadow := ob_vis_shadow o; ob_vis_camera := ob_vis_camera o |}.

(** The matrix is no longer the assigned one: the host derives it again. *)
Definition clear_matrix_world (o : bl_obj) : bl_obj :=
  {| ob_name := ob_name o; ob_data := ob_data o; ob_parent := ob_parent o;
     ob_location := ob_location o; ob_rotation_euler := ob_rotation_euler o;
     ob_matrix_world := None;
     ob_vis_shadow := ob_vis_shadow o; ob_vis_camera := ob_vis_camera o |}.

Definition put_visibility (shadow camera : bool) (o : bl_obj) : bl_obj :=
  {| ob_name := ob_name o; ob_data := ob_data o; ob_parent := ob_parent o;
     ob_location := ob_location o; ob_rotation_euler := ob_rotation_euler o;
     ob_matrix_world := ob_matrix_world o;
     ob_vis_shadow := shadow; ob_vis_camera := camera |}.

Definition mesh_with_materials (me : bl_mesh) (ms : list nat) : bl_mesh :=
  {| me_name := me_name me; me_vertices := me_vertices me;
     me_loops := me_loops me; me_polygons := me_polygons me;
     me_vertex_index := me_vertex_index me;
     me_loop_start := me_loop_start me; me_loop_total := me_loop_total me;
     me_materials := ms |}.

(** [ob.data.materials.append(m)] *)
Definition append_material (m : nat) (o : bl_obj) : bl_obj :=
  match ob_data o with
  | Some me => put_data (Some (mesh_with_materials me (me_materials me ++ [m]))) o
  | None => o
  end.

(** [obj.type] *)
Definition type_of (o : option nat) : M obj_type :=
  with_obj o (λ id h,
    match h_objects h !! id with
    | Some ob => (h, inr (ob_type ob))
    | None => (h, inl (ReferenceError "StructRNA of type Object has been removed"))
    end).

(** [C.scene.objects.link(ob)], [C.scene.objects.unlink(ob)] *)
Definition scene_link (id : nat) : M unit :=
  modify (λ h, with_scene h ({[id]} ∪ h_scene h)).

Definition scene_unlink (id : nat) : M unit :=
  modify (λ h, with_scene h (h_scene h ∖ {[id]})).

(** [D.objects.remove(ob)] *)
Definition objects_remove (id : nat) : M unit :=
  modify (λ h,
    log_event
      (with_selected (with_objects h (delete id (h_objects h)))
         (h_selected h ∖ {[id]}))
      (EvRemove id)).

(** [O.object.select_all(action='DESELECT')] *)
Definition select_all_deselect : M unit :=
  modify (λ h, with_selected h ∅).

(** [obj.select = True] and [C.scene.objects.active = obj] *)
Definition set_select (id : nat) : M unit :=
  modify (λ h, with_selected h ({[id]} ∪ h_selected h)).

Definition set_active (id : nat) : M unit :=
  modify (λ h, with_active h (Some id)).

(** [D.materials.new(name)] and [D.materials[name]] *)
Definition materials_new (name : string) : M nat := λ h,
  (with_materials h (h_materials h ++ [name]), inr (length (h_materials h))).

Fixpoint index_of (name : string) (l : list string) : option nat :=
  match l with
  | [] => None
  | x :: l' => if decide (name = x) then Some 0%nat else S <$> index_of name l'
  end.

(** Joining meshes: the second mesh's arrays follow the first's, its vertex
    and loop indices shifted; material slots are merged. *)
Definition merge_materials (acc ms : list nat) : list nat :=
  foldl (λ acc m, if bool_decide (m ∈ acc) then acc else acc ++ [m]) acc ms.

Definition join_mesh (a b : bl_mesh) : bl_mesh :=
  {| me_name := me_name a;
     me_vertices := me_vertices a + me_vertices b;
     me_loops := me_loops a + me_loops b;
     me_polygons := me_polygons a + me_polygons b;
     me_vertex_index :=
       me_vertex_index a ++ (Z.add (Z.of_nat (me_vertices a)) <$> me_vertex_index b);
     me_loop_start :=
       me_loop_start a ++ (Z.add (me_loops a) <$> me_loop_start b);
     me_loop_total := me_loop_total a ++ me_loop_total b;
     me_materials := merge_materials (me_materials a) (me_materials b) |}.

Definition is_mesh (objs : gmap nat bl_obj) (id : nat) : bool :=
  match objs !! id ≫= ob_data with Some _ => true | None => false end.

(** [O.object.join()]: the selected mesh objects other than the active one
    are merged into the active one and removed. *)
Definition object_join : M unit :=
  modify (λ h,
    match h_active h with
    | Some a =>
        match h_objects h !! a ≫= ob_data with
        | Some me_a =>
            let others :=
              filter (λ id, is_mesh (h_objects h) id = true)
                     (elements (h_selected h ∖ {[a]})) in
            let joined :=
              foldl (λ me id,
                       match h_objects h !! id ≫= ob_data with
                       | Some me_b => join_mesh me me_b
                       | None => me
                       end) me_a others in
            let objs :=
              alter (put_data (Some joined)) a
                (filter (λ kv, kv.1 ∉ others) (h_objects h)) in
            with_selected
              (with_scene (with_objects h objs)
                 (h_scene h ∖ list_to_set others))
              (h_selected h ∖ list_to_set others)
        | None => h
        end
    | None => h
    end).

Definition zero_vec : vec := [0%Qc; 0%Qc; 0%Qc].

(** [O.object.transform_apply(location=..., rotation=True, scale=True)]:
    acts on the selected objects, whose transform is pushed into their
    data and reset. *)
Definition transform_apply (location : bool) : M unit :=
  modify (λ h,
    let sel := elements (h_selected h) in
    let reset o :=
      clear_matrix_world
        (put_rotation_euler zero_vec
           (if location then put_location zero_vec o else o)) in
    log_event
      (with_objects h (foldr (alter reset) (h_objects h) sel))
      (EvTransformApply sel location)).

(** [O.object.parent_clear(type='CLEAR_KEEP_TRANSFORM')]: acts on the
    selected objects. *)
Definition parent_clear : M unit :=
  modify (λ h,
    let sel := elements (h_selected h) in
    log_event
      (with_objects h (foldr (alter (put_parent None)) (h_objects h) sel))
      (EvParentClear sel)).

(** [obj.parent = p] *)
Definition set_parent (child : option nat) (p : option nat) : M unit :=
  with_obj child (λ id,
    alter_object (put_parent p) id;;
    modify (λ h, log_event h (EvSetParent id p))).

(** [obj.matrix_world = m] *)
Definition set_matrix_world (obj : option nat) (m : matrix) : M unit :=
  with_obj obj (λ id,
    alter_object (put_matrix_world m) id;;
    modify (λ h, log_event h (EvSetMatrixWorld id m))).

(** [create_mesh(al_mesh)] as the importer calls it: the loop layout, then
    the face loop over normals and uv coordinates, which raises when an
    index is out of range; the mesh is returned when the face loop is
    through. The values the face loop writes are host arrays, of which the
    mesh record carries none. *)
Definition create_mesh_call (data : mesh_data) : M bl_mesh := λ h,
  match fill_loops data with
  | inl e => (h, inl (LookupError e))
  | inr _ => (h, inr (create_mesh data))
  end.

(** ** [material_utils.Material] *)

Section Importer.
Context `{RT : Runtime}.

(** [Material.__init__]: creates the Blender material named by the hashed
    key, then translates the record into it. *)
Definition Material_init (key : string) (al_material : material)
    (import_metadata : bool) : M Material :=
  bl ← materials_new key;
  if host_accepts al_material
  then mret {| al_material := al_material; al_material_hash := key;
               import_metadata := import_metadata; bl_material := bl |}
  else raise (HostError "material translation failed").

(** [def get_al_mat_node(self, key)]: the parameters it declares, and its
    body. *)
Definition get_al_mat_node_parameters : list string := ["self"; "key"].

Definition get_al_mat_node (self : Material) (key : string) : value :=
  match PyDict.get (al_material self) key with
  | Some v => v
  | None => VScalar SNone
  end.

(** Binding the keyword arguments of a call: a keyword that names no
    parameter of the callee raises [TypeError]. *)
Definition bind_keywords (fname : string) (parameters keywords : list string)
    : M unit :=
  match List.find (λ kw, bool_decide (kw ∉ parameters)) keywords with
  | Some kw =>
      raise (TypeError
        (fname +:+ "() got an unexpected keyword argument '" +:+ kw +:+ "'"))
  | None => mret ()
  end.

(** [v > q]: defined between numbers only. *)
Definition py_gt (v : value) (q : Qc) : M bool :=
  match v with
  | VScalar (SNum n) => mret (bool_decide (q < n)%Qc)
  | _ => raise (TypeError "'>' not supported between these types")
  end.

(** ** [import_data3d_materials] *)

(** [material_utils.setup()] loads the shader node groups from the add-on's
    library file and has no part in what follows; the function then
    deduplicates, and creates one [Material] per table entry. *)
Definition import_data3d_materials (data3d_objects : list Data3dObject)
    (import_metadata : bool)
    : M (list Data3dObject * dict string Material) :=
  let '(data3d_objects', al_hashed_materials) :=
    deduplicate import_metadata data3d_objects in
  bl_materials ←
    fold_m (λ (bl_materials : dict string Material) key,
              match PyDict.get al_hashed_materials key with
              | Some al_mat =>
                  mat ← Material_init (str key) al_mat import_metadata;
                  mret (PyDict.set bl_materials (str key) mat)
              | None => mret bl_materials
              end)
           (PyDict.keys al_hashed_materials) [];
  mret (data3d_objects', bl_materials).

(** ** [import_scene] *)

Record kwargs := {
  filepath : string;
  import_materials : bool;
  import_hierarchy : bool;
  import_al_metadata : bool;
  global_matrix : matrix;
}.

(** An argument that is either one object or a list of objects
    ([hasattr(objects, '__iter__')] tells them apart). *)
Inductive objects_arg :=
  | One (o : option nat)
  | Many (l : list (option nat)).

Definition select (objects : objects_arg) (discard_selection : bool) : M unit :=
  let group := match objects with Many l => l | One o => [o] end in
  (if discard_selection then select_all_deselect else mret ());;
  for_each group (λ obj, with_obj obj (λ id, set_select id;; set_active id)).

(** The geometry clean-up ([bmesh]) and the triangle-to-quad conversion act
    on vertex data the model does not carry; what remains of
    [optimize_mesh] is its effect on the selection. *)
Definition optimize_mesh (obj : option nat) : M unit :=
  match obj with
  | None => mret ()
  | Some _ =>
      t ← type_of obj;
      if decide (t ≠ MESH) then mret ()
      else select (One obj) true
  end.

Definition join_objects (group : list nat) : M (option nat) :=
  match group with
  | joined :: _ =>
      select (Many (Some <$> group)) true;;
      set_active joined;;
      object_join;;
      mret (Some joined)
  | [] => mret None
  end.

(** [obj is None and obj.type != 'MESH'], evaluated left to right. *)
Definition normalise_keep (obj : option nat) : M bool :=
  if bool_decide (obj = None)
  then t ← type_of obj; mret (bool_decide (t ≠ MESH))
  else mret false.

(** The working group [normalise_objects] builds from its argument. *)
Definition normalise_group (objects : objects_arg) : M (list (option nat)) :=
  match objects with
  | Many l =>
      fold_m (λ (group : list (option nat)) obj,
                keep ← normalise_keep obj;
                mret (if keep : bool then group ++ [obj] else group))
             l []
  | One o => mret [o]
  end.

Definition normalise_objects (objects : objects_arg) (apply_location : bool)
    : M unit :=
  group ← normalise_group objects;
  select (Many group) true;;
  transform_apply apply_location.

(** The block under [if import_materials:] for one mesh; returns
    [is_emissive]. *)
Definition apply_material (data3d_object : Data3dObject)
    (bl_materials : dict string Material) (al_mesh : mesh_data) (ob : nat)
    : M bool :=
  match m_material al_mesh with
  | Some original_key =>
      if decide (original_key ≠ "") then
        let hashed_key :=
          default "" (PyDict.get (mat_hash_map data3d_object) original_key) in
        if bool_decide (hashed_key ≠ "") && PyDict.mem bl_materials hashed_key
        then
          match PyDict.get bl_materials hashed_key with
          | Some mat =>
              alter_object (append_material (bl_material mat)) ob;;
              bind_keywords "get_al_mat_node" get_al_mat_node_parameters
                ["fallback"];;
              emit ← py_gt (get_al_mat_node mat D3D.(coef_emit)) 0%Qc;
              mret emit
          | None => raise (Exception "KeyError")
          end
        else raise (Exception ("Material not found: " +:+ hashed_key))
      else mret false
  | None =>
      default_mat ← gets (λ h, index_of D3D.(mat_default) (h_materials h));
      match default_mat with
      | Some m => alter_object (append_material m) ob
      | None =>
          m ← materials_new D3D.(mat_default);
          alter_object (append_material m) ob
      end;;
      mret false
  end.

(** The body of [for al_mesh in al_meshes]; the state is
    [(bl_meshes, bl_emission_meshes)]. *)
Definition import_mesh (kw : kwargs) (data3d_object : Data3dObject)
    (bl_materials : dict string Material)
    (st : list nat * list nat) (al_mesh : mesh_data)
    : M (list nat * list nat) :=
  bl_mesh ← create_mesh_call al_mesh;
  ob ← objects_new (m_name al_mesh) (Some bl_mesh);
  is_emissive ←
    (if import_materials kw
     then apply_material data3d_object bl_materials al_mesh ob
     else mret false);
  scene_link ob;;
  optimize_mesh (Some ob);;
  mret (if is_emissive : bool
        then (st.1, st.2 ++ [ob])
        else (st.1 ++ [ob], st.2)).

(** The body of the first [for data3d_object in data3d_objects]. *)
Definition import_node (kw : kwargs) (bl_materials : dict string Material)
    (data3d_object : Data3dObject) : M Data3dObject :=
  '(bl_meshes, bl_emission_meshes) ←
    fold_m (import_mesh kw data3d_object bl_materials)
           (meshes data3d_object) ([], []);
  o1 ←
    (if decide (0 < length bl_meshes)%nat then
       joined_object ← join_objects bl_meshes;
       with_obj joined_object (λ id,
         alter_object (put_name (node_id data3d_object)) id;;
         mret (set_bl_object data3d_object joined_object))
     else
       ob ← objects_new (node_id data3d_object) None;
       scene_link ob;;
       mret (set_bl_object data3d_object (Some ob)));
  o2 ←
    (if decide (0 < length bl_emission_meshes)%nat then
       joined_object ← join_objects bl_emission_meshes;
       with_obj joined_object (λ id,
         alter_object (put_name (node_id data3d_object +:+ "_emission")) id;;
         alter_object (put_visibility false false) id;;
         mret (set_bl_emission_object o1 joined_object))
     else mret o1);
  with_obj (bl_object o2) (λ id,
    alter_object (put_location (position o2)) id;;
    alter_object (put_rotation_euler (rotation o2)) id);;
  mret o2.

Fixpoint import_nodes (kw : kwargs) (bl_materials : dict string Material)
    (data3d_objects : list Data3dObject) : M (list Data3dObject) :=
  match data3d_objects with
  | [] => mret []
  | o :: rest =>
      o' ← import_node kw bl_materials o;
      rest' ← import_nodes kw bl_materials rest;
      mret (o' :: rest')
  end.

(** The body of the second [for data3d_object in data3d_objects]: parent
    links, and the list of root objects. [parent.bl_object] is read from
    the node list. *)
Definition link_parent (data3d_objects : list Data3dObject)
    (bl_root_objects : list (option nat)) (data3d_object : Data3dObject)
    : M (list (option nat)) :=
  match parent data3d_object with
  | Some p =>
      let parent_bl := data3d_objects !! p ≫= bl_object in
      set_parent (bl_object data3d_object) parent_bl;;
      match bl_emission_object data3d_object with
      | Some e => set_parent (Some e) parent_bl
      | None => mret ()
      end;;
      mret bl_root_objects
  | None =>
      mret (bl_root_objects
              ++ [bl_object data3d_object]
              ++ match bl_emission_object data3d_object with
                 | Some e => [Some e]
                 | None => []
                 end)
  end.

(** [if import_hierarchy: ... else: ...] after the global matrix. *)
Definition unlink_and_remove (bl : option nat) : M unit :=
  with_obj bl (λ id, scene_unlink id;; objects_remove id).

Definition finish_hierarchy (kw : kwargs) (data3d_objects : list Data3dObject)
    : M unit :=
  if import_hierarchy kw then
    for_each data3d_objects (λ data3d_object,
      let bl := bl_object data3d_object in
      t ← type_of bl;
      if bool_decide (t = EMPTY) && bool_decide (children data3d_object = [])
      then unlink_and_remove bl
      else mret ())
  else
    let bl_objects := bl_object <$> data3d_objects in
    for_each bl_objects (λ bl, select (One bl) false;; parent_clear);;
    normalise_objects (Many bl_objects) true;;
    for_each bl_objects (λ bl,
      t ← type_of bl;
      if bool_decide (t = EMPTY) then unlink_and_remove bl else mret ()).

(** What happens inside [try:]. The result is the node list as the import
    leaves it and the keys of [perf_times]. *)
Definition import_scene_body (data3d_objects : list Data3dObject)
    (kw : kwargs) : M (list Data3dObject * list string) :=
  '(objs, bl_materials) ←
    (if import_materials kw
     then import_data3d_materials data3d_objects (import_al_metadata kw)
     else mret (data3d_objects, []));
  objs' ← import_nodes kw bl_materials objs;
  bl_root_objects ← fold_m (link_parent objs') objs' [];
  normalise_objects (Many bl_root_objects) true;;
  for_each bl_root_objects (λ obj, set_matrix_world obj (global_matrix kw));;
  finish_hierarchy kw objs';;
  mret (objs',
        (if import_materials kw then ["material_import"] else [])
          ++ ["mesh_import"]
          ++ (if import_hierarchy kw then [] else ["cleanup"])).

(** [except: raise Exception('Import Scene failed. ', sys.exc_info())] *)
Definition import_scene (data3d_objects : list Data3dObject) (kw : kwargs)
    : M (list Data3dObject * list string) :=
  try_except (import_scene_body data3d_objects kw)
             (λ e, raise (ImportSceneFailed e)).

End Importer.

(** ** Vocabulary of the statements *)

(** A mesh that names no material: the key is missing, or empty. *)
Definition unkeyed (m : mesh_data) : Prop :=
  m_material m = None ∨ m_material m = Some "".

(** The handles of the objects the host holds. *)
Definition live (h : host) : gset nat := dom (h_objects h).

(** The nodes as the decoder hands them over: no emission object yet. *)
Definition fresh_nodes (data3d_objects : list Data3dObject) : Prop :=
  Forall (λ o, bl_emission_object o = None) data3d_objects.

(** The objects of the root nodes: for every node without a parent its
    object and, if it has one, its emission object. *)
Definition root_handles_of (o : Data3dObject) : list nat :=
  match parent o with
  | Some _ => []
  | None => option_list (bl_object o) ++ option_list (bl_emission_object o)
  end.

Definition root_handles (data3d_objects : list Data3dObject) : list nat :=
  data3d_objects ≫= root_handles_of.

(** What the import changes in a node: its hash map and its object. *)
Definition imported (o o' : Data3dObject) (b : nat) : Prop :=
  ∃ mhm, o' = set_bl_object (set_mat_hash_map o mhm) (Some b).

(** The parent links of one node, as events. *)
Definition parent_events (all : list Data3dObject) (o : Data3dObject)
    : list event :=
  match parent o, bl_object o with
  | Some p, Some b =>
      let parent_bl := all !! p ≫= bl_object in
      EvSetParent b parent_bl
        :: match bl_emission_object o with
           | Some e => [EvSetParent e parent_bl]
           | None => []
           end
  | _, _ => []
  end.

(** The events of the clean-up after the global matrix: parents cleared,
    empties removed, and a transform applied to no object. *)
Definition finish_event (e : event) : Prop :=
  match e with
  | EvParentClear _ | EvRemove _ => True
  | EvTransformApply objs _ => objs = []
  | EvSetParent _ _ | EvSetMatrixWorld _ _ => False
  end.

(** The world-matrix assignments of a log, in order. *)
Definition matrix_assignments (t : list event) : list (nat * matrix) :=
  omap (λ e, match e with
             | EvSetMatrixWorld id m => Some (id, m)
             | _ => None
             end) t.

(** No object of the second host has a world matrix other than the one it
    had in the first. *)
Definition keeps_matrices (h h' : host) : Prop :=
  ∀ id ob', h_objects h' !! id = Some ob' →
    ∃ ob, h_objects h !! id = Some ob
          ∧ ob_matrix_world ob' = ob_matrix_world ob.

(** The world matrix assigned to the object under a handle, if there is
    such an object and it was assigned one. *)
Definition matrix_of (h : host) (id : nat) : option matrix :=
  h_objects h !! id ≫= ob_matrix_world.

(** No handle of the second host has an assigned world matrix that it did
    not have in the first. *)
Definition no_new_matrix (h h' : host) : Prop :=
  ∀ id, matrix_of h' id = None ∨ matrix_of h' id = matrix_of h id.

(** A computation that assigns no world matrix, whether it returns or
    raises. *)
Definition assigns_no_matrix {A} (m : M A) : Prop :=
  ∀ h h' r, m h = (h', r) → no_new_matrix h h'.

(** A computation of the clean-up: it logs clean-up events only, leaves
    world matrices alone, and an object that is gone was removed. *)
Definition finishing {A} (m : M A) : Prop :=
  ∀ h h' r, m h = (h', r) →
    ∃ t, h_log h' = h_log h ++ t
         ∧ Forall finish_event t
         ∧ keeps_matrices h h'
         ∧ ∀ id, id ∈ live h → id ∈ live h' ∨ EvRemove id ∈ t.

(** A computation that raises [e], or that returns, whatever the host
    state. *)
Definition raises {A} (m : M A) (e : exn) : Prop :=
  ∀ h, ∃ h', m h = (h', inl e).

Definition returns {A} (m : M A) : Prop :=
  ∀ h, ∃ h' a, m h = (h', inr a).

(** The host accepts the reduced record of every material of the scene. *)
Definition host_accepts_scene `{RT : Runtime} (import_metadata : bool)
    (data3d_objects : list Data3dObject) : Prop :=
  Forall (λ raw, host_accepts (get_al_material_hash import_metadata raw).2 = true)
         (encountered data3d_objects).

(** A mesh whose material key is not empty and not among the materials of
    its node. *)
Definition dangling (o : Data3dObject) (m : mesh_data) : Prop :=
  ∃ key, m_material m = Some key ∧ key ≠ ""
         ∧ key ∉ PyDict.keys (materials o).

(** A computation that removes no object and leaves the log alone, whether
    it returns or raises. *)
Definition grows {A} (m : M A) : Prop :=
  ∀ h h' r, m h = (h', r) → live h ⊆ live h' ∧ h_log h' = h_log h.

(** The node as [import_node] found it, apart from [bl_object]. *)
Definition imported_as (o o' : Data3dObject) (b : nat) : Prop :=
  o' = set_bl_object o (Some b).

(** A value that is still a Python list. *)
Definition is_list (v : value) : Prop :=
  match v with VList _ => True | _ => False end.

(** The three keys that take part in the hash in metadata mode only. *)
Definition internal_keys `{RT : Runtime} : list string :=
  [D3D.(add_lightmap); D3D.(use_in_calc); D3D.(hide_after_calc)].

(** ** Sample data *)

(** A name table, a hash and a host to run the model on: the key names are
    placeholders, the hash adds up the codes of the pairs, and the host
    accepts every material. *)
Definition sample_names : D3D_names :=
  {| col_diff := "colorDiffuse"; col_spec := "colorSpecular";
     coef_spec := "specularCoef"; coef_emit := "lightEmissionCoef";
     opacity := "opacity"; uv_scale := "size";
     map_diff := "mapDiffuse"; map_spec := "mapSpecular";
     map_norm := "mapNormal"; map_alpha := "mapAlpha";
     map_light := "mapLight";
     map_suffix_source := "Source"; map_suffix_preview := "Preview";
     cast_shadows := "castRealTimeShadows";
     receive_shadows := "receiveRealTimeShadows";
     add_lightmap := "addLightmap"; use_in_calc := "useInBaking";
     hide_after_calc := "hideAfterBaking";
     mat_default := "al_default" |}.

Definition sample_hash (s : gset (string * value)) : Z :=
  set_fold (λ x acc, (acc + Z.pos (encode x)) `mod` (2 ^ 61 - 1)) 0 s.

Definition sample_runtime : Runtime :=
  {| D3D := sample_names; py_hash := sample_hash; host_accepts := λ _, true |}.

Definition empty_host : host :=
  {| h_objects := ∅; h_scene := ∅; h_selected := ∅; h_active := None;
     h_materials := []; h_log := [] |}.

Definition qz (z : Z) : Qc := Q2Qc (inject_Z z).

Definition num (z : Z) : value := VScalar (SNum (qz z)).

(** A material whose only field is an integer opacity. *)
Definition opacity_only `{RT : Runtime} (i : Z) : material :=
  [(D3D.(opacity), num i)].

Definition grey : value :=
  VList [SNum (Q2Qc (1 # 2)); SNum (Q2Qc (1 # 2)); SNum (Q2Qc (1 # 2))].

Definition grey_tuple : value :=
  VTuple [SNum (Q2Qc (1 # 2)); SNum (Q2Qc (1 # 2)); SNum (Q2Qc (1 # 2))].

Definition triangle : face :=
  {| f_vert := [0; 1; 2]; f_nor := [0; 0; 0]; f_uvs := []; f_uvs2 := [] |}.

Definition sample_mesh (name : string) (key : option string) : mesh_data :=
  {| m_name := name;
     verts_loc := map (map qz) [[0; 0; 0]; [1; 0; 0]; [0; 1; 0]];
     verts_nor := map (map qz) [[0; 0; 1]];
     verts_uvs := []; verts_uvs2 := [];
     faces := [triangle];
     m_material := key |}.

(** A mesh whose face reads the normal at index 1 of a one-element list. *)
Definition stray_mesh (name : string) (key : option string) : mesh_data :=
  {| m_name := name;
     verts_loc := map (map qz) [[0; 0; 0]; [1; 0; 0]; [0; 1; 0]];
     verts_nor := map (map qz) [[0; 0; 1]];
     verts_uvs := []; verts_uvs2 := [];
     faces := [ {| f_vert := [0; 1; 2]; f_nor := [0; 1; 0]; f_uvs := [];
                   f_uvs2 := [] |} ];
     m_material := key |}.

Definition sample_node (id : string) (parent : option nat)
    (children : list nat) (meshes : list mesh_data)
    (materials : dict string material) : Data3dObject :=
  {| node_id := id; position := qz <$> [1; 2; 3]; rotation := qz <$> [0; 0; 90];
     parent := parent; children := children; meshes := meshes;
     materials := materials; mat_hash_map := [];
     bl_object := None; bl_emission_object := None |}.

(** A lamp: one mesh whose material has emission coefficient 2. *)
Definition lamp_node : Data3dObject :=
  sample_node "lamp" None [] [sample_mesh "bulb" (Some "glow")]
    [("glow", [("lightEmissionCoef", num 2)])].

(** A wall: one mesh whose material key is present and empty. *)
Definition wall_node : Data3dObject :=
  sample_node "wall" None [] [sample_mesh "panel" (Some "")] [].

(** A root with two meshes without material and a child without geometry. *)
Definition house_nodes : list Data3dObject :=
  [ sample_node "house" None [1%nat]
      [sample_mesh "roof" None; sample_mesh "floor" None] [];
    sample_node "annex" (Some 0%nat) [] [] [] ].

(** Two nodes whose materials have the same diffuse colour, once as a
    list and once as a tuple, under different local keys. *)
Definition grey_nodes : list Data3dObject :=
  [ sample_node "a" None [] [] [("m1", [("colorDiffuse", grey)])];
    sample_node "b" None [] []
      [("m2", [("colorDiffuse", grey_tuple); ("name", VScalar (SStr "b"))])] ].

Definition sample_matrix : matrix :=
  map (map qz) [[1; 0; 0; 0]; [0; 0; -1; 0]; [0; 1; 0; 0]; [0; 0; 0; 1]].

Definition sample_kwargs (materials hierarchy : bool) : kwargs :=
  {| filepath := "scene.data3d.json"; import_materials := materials;
     import_hierarchy := hierarchy; import_al_metadata := false;
     global_matrix := sample_matrix |}.


(** * Further parts of the code *)

(** ** Sample meshes and hosts *)

(** A sample mesh with texture coordinates: two faces over four vertices. *)
Definition quad_mesh : mesh_data :=
  {| m_name := "quad";
     verts_loc := map (map qz) [[0; 0; 0]; [1; 0; 0]; [1; 1; 0]; [0; 1; 0]];
     verts_nor := map (map qz) [[0; 0; 1]];
     verts_uvs := map (map qz) [[0; 0]; [1; 0]; [1; 1]; [0; 1]];
     verts_uvs2 := [];
     faces :=
       [ {| f_vert := [0; 1; 2]; f_nor := [0; 0; -1]; f_uvs := [0; 1; 2];
            f_uvs2 := [] |};
         {| f_vert := [0; 2; 3]; f_nor := [0; 0; 0]; f_uvs := [0; 2; -1];
            f_uvs2 := [] |} ];
     m_material := None |}.

(** A host that holds two mesh objects, under the handles 0 and 1. *)
Definition two_meshes : host :=
  (objects_new "b" (Some (create_mesh quad_mesh))
     (objects_new "a" (Some (create_mesh quad_mesh)) empty_host).1).1.

(** ** [material_utils.get_reference_maps] *)

(** [bool(v)]: the empty string, zero, [None] and the empty list or tuple
    are false. *)
Definition truthy (v : value) : bool :=
  match v with
  | VScalar (SNum q) => bool_decide (q ≠ 0%Qc)
  | VScalar (SStr s) => bool_decide (s ≠ "")
  | VScalar SNone => false
  | VList l | VTuple l => bool_decide (l ≠ [])
  end.

(** [s.endswith(suffix)] *)
Definition endswith (s suffix : string) : bool :=
  bool_decide (String.list_ascii_of_string suffix
                 `suffix_of` String.list_ascii_of_string s).

Section ReferenceMaps.
Context `{RT : Runtime}.

Definition map_types : list string :=
  [D3D.(map_diff); D3D.(map_spec); D3D.(map_norm); D3D.(map_alpha);
   D3D.(map_light)].

(** [al_mat[key] if key in al_mat else ''] *)
Definition get_or_empty (al_mat : material) (key : string) : value :=
  default (VScalar (SStr "")) (PyDict.get al_mat key).

(** The list [maps] of one map type: source, plain, preview. *)
Definition maps_of (al_mat : material) (map_key : string) : list value :=
  let map_key_source := map_key +:+ D3D.(map_suffix_source) in
  let map_key_preview := map_key +:+ D3D.(map_suffix_preview) in
  [ get_or_empty al_mat map_key_source;
    get_or_empty al_mat map_key;
    get_or_empty al_mat map_key_preview ].

(** [next((m for m in maps if (m and not m.endswith('.dds'))), '')]: the
    generator is walked until the first hit; [endswith] is looked up on a
    true value only, and only a string has it. *)
Fixpoint next_usable (maps : list value) : exn + value :=
  match maps with
  | [] => inr (VScalar (SStr ""))
  | m :: rest =>
      if truthy m then
        match m with
        | VScalar (SStr s) =>
            if endswith s ".dds" then next_usable rest else inr m
        | _ => inl (AttributeError "endswith")
        end
      else next_usable rest
  end.

(** The body of [for map_key in map_types]. *)
Definition reference_step (al_mat : material) (ref_maps : material)
    (map_key : string) : exn + material :=
  match next_usable (maps_of al_mat map_key) with
  | inl e => inl e
  | inr ref_map =>
      inr (if truthy ref_map then PyDict.set ref_maps map_key ref_map
           else ref_maps)
  end.

Fixpoint reference_loop (al_mat : material) (keys : list string)
    (ref_maps : material) : exn + material :=
  match keys with
  | [] => inr ref_maps
  | map_key :: rest =>
      match reference_step al_mat ref_maps map_key with
      | inl e => inl e
      | inr ref_maps' => reference_loop al_mat rest ref_maps'
      end
  end.

Definition get_reference_maps (al_mat : material) : exn + material :=
  reference_loop al_mat map_types [].

End ReferenceMaps.

(** A path the texture code can use: a string that is not empty and does
    not end in [.dds]. *)
Definition usable (v : value) : Prop :=
  ∃ s, v = VScalar (SStr s) ∧ s ≠ "" ∧ endswith s ".dds" = false.

(** A candidate the search passes over: a false value, or a [.dds] path. *)
Definition passed_over (v : value) : Prop :=
  truthy v = false ∨ ∃ s, v = VScalar (SStr s) ∧ endswith s ".dds" = true.

(** A material with a diffuse map in three variants, the best of them in
    a format the importer does not read, and an alpha map without a path. *)
Definition textured : material :=
  [ ("mapDiffuseSource", VScalar (SStr "wood.dds"));
    ("mapDiffuse", VScalar (SStr "wood.jpg"));
    ("mapDiffusePreview", VScalar (SStr "wood_small.jpg"));
    ("mapAlpha", VScalar (SStr "")) ].

(** ** [load], [create_metrics] and the import operator *)

(** A keyword argument of [load]. *)
Inductive arg :=
  | ABool (b : bool)
  | AStr (s : string)
  | AMatrix (m : matrix)
  | ANone.

(** [bool(a)]; a matrix has rows, so it is true. *)
Definition arg_truthy (a : arg) : bool :=
  match a with
  | ABool b => b
  | AStr s => bool_decide (s ≠ "")
  | AMatrix _ => true
  | ANone => false
  end.

(** What [load] raises: a lookup error of its own or of the argument
    reads at the head of [import_scene]; an exception of the decoder or of
    the importer; a lookup error inside the [try] of [import_scene], which
    the [except] wraps. *)
Inductive load_error :=
  | Lookup (e : lookup_error)
  | Raised (e : exn)
  | ImportSceneFailedOn (e : lookup_error).

Inductive finished := FINISHED.

(** [mathutils.Matrix()]: the 4x4 identity. *)
Definition identity_matrix : matrix :=
  [ [1%Qc; 0%Qc; 0%Qc; 0%Qc]; [0%Qc; 1%Qc; 0%Qc; 0%Qc];
    [0%Qc; 0%Qc; 1%Qc; 0%Qc]; [0%Qc; 0%Qc; 0%Qc; 1%Qc] ].

(** [create_metrics(times)]: the keys it reads, in the order of the
    arguments of [format]; two of them are guarded. *)
Definition create_metrics (times : list string) : lookup_error + unit :=
  if bool_decide ("total" ∉ times) then inl (KeyError "total")
  else if bool_decide ("deserialization" ∉ times)
  then inl (KeyError "deserialization")
  else if bool_decide ("mesh_import" ∉ times) then inl (KeyError "mesh_import")
  else inr ().

Section Load.
Context `{RT : Runtime}.

(** Modelled from the spec: [deserialize_data3d] of [data3d_utils], which
    is not among the sources: the decoder, as a function from the file path
    and the buffer flag to the node list or the exception it raises. Its
    second result, the file's metadata, is not used by [load]. *)
Variable deserialize_data3d : string → bool → exn + list Data3dObject.

(** [bpy_extras.io_utils.axis_conversion(from_forward, from_up).to_4x4()] *)
Variable axis_conversion : string → string → matrix.

(** [import_scene] as [load] calls it, with the nodes and its own keyword
    arguments: an argument named like the positional parameter is refused
    by the call; then come the four argument reads at the head of
    [import_scene], and the [try]. [filepath] and [global_matrix] have been
    read by [load] before. *)
Definition import_scene_with (data3d_objects : list Data3dObject)
    (args : dict string arg) (filepath : string) (global_matrix : matrix)
    (h : host) : host * (load_error + list string) :=
  if PyDict.mem args "data3d_objects" then
    (h, inl (Raised (TypeError
       "import_scene() got multiple values for argument 'data3d_objects'")))
  else
  match PyDict.get args "import_materials" with
  | None => (h, inl (Lookup (KeyError "import_materials")))
  | Some import_materials =>
      match PyDict.get args "import_hierarchy" with
      | None => (h, inl (Lookup (KeyError "import_hierarchy")))
      | Some import_hierarchy =>
          let run import_al_metadata :=
            match import_scene data3d_objects
                    {| filepath := filepath;
                       import_materials := arg_truthy import_materials;
                       import_hierarchy := arg_truthy import_hierarchy;
                       import_al_metadata := import_al_metadata;
                       global_matrix := global_matrix |} h with
            | (h', inl e) => (h', inl (Raised e))
            | (h', inr (_, perf_times)) => (h', inr perf_times)
            end in
          if arg_truthy import_materials then
            match PyDict.get args "import_al_metadata" with
            | None =>
                (h, inl (ImportSceneFailedOn (KeyError "import_al_metadata")))
            | Some import_al_metadata => run (arg_truthy import_al_metadata)
            end
          else run false
      end
  end.

(** [load]; [args] is the dictionary of its keyword arguments. The model covers a [global_matrix] that is a matrix or
    [None]; for another value it says nothing ([None]). *)
Definition load (args : dict string arg)
    : option (host → host * (load_error + finished)) :=
  match PyDict.get args "global_matrix" with
  | Some (ABool _) | Some (AStr _) => None
  | global_matrix_arg =>
    Some (λ h,
      match PyDict.get args "config_logger" with
      | None => (h, inl (Lookup (KeyError "config_logger")))
      | Some config_logger =>
        match global_matrix_arg with
        | None => (h, inl (Lookup (KeyError "global_matrix")))
        | Some a =>
          let global_matrix :=
            match a with AMatrix m => m | _ => identity_matrix end in
          match PyDict.get args "filepath" with
          | None => (h, inl (Lookup (KeyError "filepath")))
          | Some (AStr input_file) =>
            let from_buffer := endswith input_file ".data3d.buffer" in
            match deserialize_data3d input_file from_buffer with
            | inl e => (h, inl (Raised e))
            | inr data3d_objects =>
              match import_scene_with data3d_objects args input_file
                      global_matrix h with
              | (h', inl e) => (h', inl e)
              | (h', inr perf_times) =>
                let perf_times := perf_times ++ ["deserialization"; "total"] in
                match create_metrics perf_times with
                | inl e => (h', inl (Lookup e))
                | inr _ => (h', inr FINISHED)
                end
              end
            end
          | Some _ => (h, inl (Raised (AttributeError "endswith")))
          end
        end
      end)
  end.

(** The import operator of [__init__.py]: its properties, those of
    [ImportHelper] and of the orientation helper included. *)
Record ImportData3d := {
  op_filepath : string;
  op_axis_forward : string;
  op_axis_up : string;
  op_filter_glob : string;
  op_import_materials : bool;
  op_import_hierarchy : bool;
  op_import_al_metadata : bool;
}.

(** [self.as_keywords(ignore=...)]: the operator's properties as a
    dictionary, without the ignored ones. *)
Definition as_keywords (self : ImportData3d) (ignore : list string)
    : dict string arg :=
  filter (λ kv, kv.1 ∉ ignore)
    [ ("filepath", AStr (op_filepath self));
      ("axis_forward", AStr (op_axis_forward self));
      ("axis_up", AStr (op_axis_up self));
      ("filter_glob", AStr (op_filter_glob self));
      ("import_materials", ABool (op_import_materials self));
      ("import_hierarchy", ABool (op_import_hierarchy self));
      ("import_al_metadata", ABool (op_import_al_metadata self)) ].

(** [ImportData3d.execute] *)
Definition execute (self : ImportData3d)
    : option (host → host * (load_error + finished)) :=
  let keywords := as_keywords self ["axis_forward"; "axis_up"; "filter_glob"] in
  let keywords :=
    PyDict.set keywords "global_matrix"
      (AMatrix (axis_conversion (op_axis_forward self) (op_axis_up self))) in
  load keywords.

End Load.

(** The arguments a script passes to [load] to import a file as it is. *)
Definition script_args : dict string arg :=
  [ ("config_logger", ABool false);
    ("filepath", AStr "house.data3d.json");
    ("import_materials", ABool false);
    ("import_hierarchy", ABool true);
    ("global_matrix", ANone) ].

(** ** The scene graph the import leaves *)

(** What the scene graph shows of an object: its type and its parent. *)
Definition link_view (o : bl_obj) : obj_type * option nat :=
  (ob_type o, ob_parent o).

Definition scene_view (h : host) : gmap nat (obj_type * option nat) :=
  link_view <$> h_objects h.

(** The type of the object a node is imported as. *)
Definition node_type (o : Data3dObject) : obj_type :=
  if bool_decide (meshes o = []) then EMPTY else MESH.

(** A computation that changes no type and no parent link. *)
Definition keeps_view {A} (m : M A) : Prop :=
  ∀ h h' r, m h = (h', r) → scene_view h' = scene_view h.

(** The host accepts every record of the deduplicated material table. *)
Definition host_accepts_table `{RT : Runtime} (import_metadata : bool)
    (data3d_objects : list Data3dObject) : Prop :=
  ∀ k al_mat,
    PyDict.get (deduplicate import_metadata data3d_objects).2 k = Some al_mat →
    host_accepts al_mat = true.

(** ** [material_utils]: what is done with the reference maps *)

(** The branches of the [if]-chain of [set_image_texture]. *)
Inductive texture_role :=
  | DiffuseMap
  | NormalMap
  | SpecularMap
  | AlphaMap
  | LightMap.

(** [v + (1, )]: only a tuple can be joined to a tuple. *)
Definition add_tuple (v : value) (t : list scalar) : exn + value :=
  match v with
  | VTuple l => inr (VTuple (l ++ t))
  | _ => inl (TypeError "unsupported operand for +")
  end.

Section TextureKeys.
Context `{RT : Runtime}.

(** The dictionary [d3d_to_node] of [create_cycles_material]; in a
    dictionary display a later entry replaces an earlier one under the
    same key. *)
Definition d3d_to_node : dict string string :=
  foldl (λ d kv, PyDict.set d kv.1 kv.2) []
    [ (D3D.(map_diff), "map-diffuse");
      (D3D.(map_spec), "map-specular");
      (D3D.(map_norm), "map-normal");
      (D3D.(map_alpha), "map-alpha");
      (D3D.(map_light), "");
      (D3D.(col_diff), "color-diffuse");
      (D3D.(col_spec), "color-specular");
      (D3D.(coef_spec), "specular-intensity");
      (D3D.(coef_emit), "emission-intensity");
      (D3D.(opacity), "opacity") ].

(** The branch [set_image_texture] takes for a map key; [None] is the
    final [else], which logs an error. *)
Definition texture_role_of (map_key : string) : option texture_role :=
  if decide (map_key = D3D.(map_diff)) then Some DiffuseMap
  else if decide (map_key = D3D.(map_norm)) then Some NormalMap
  else if decide (map_key = D3D.(map_spec)) then Some SpecularMap
  else if decide (map_key = D3D.(map_alpha)) then Some AlphaMap
  else if decide (map_key = D3D.(map_light)) then Some LightMap
  else None.

(** The keys whose value [create_cycles_material] extends by a tuple. *)
Definition extended_keys : list string :=
  [D3D.(uv_scale); D3D.(col_diff); D3D.(col_spec)].

End TextureKeys.
(** * Properties *)

(** ** Dictionaries *)

Section DictFacts.
Context {K V : Type} `{EqDecision K}.
Implicit Types (d : dict K V) (k : K) (v : V).

Lemma dict_mem_true d k : PyDict.mem d k = true ↔ is_Some (PyDict.get d k).
Proof.
  unfold PyDict.mem. destruct (PyDict.get d k); split; intros H;
    try done; try (by eexists); by destruct H.
Qed.

Lemma dict_mem_false d k : PyDict.mem d k = false ↔ PyDict.get d k = None.
Proof. unfold PyDict.mem. by destruct (PyDict.get d k). Qed.

Lemma dict_get_Some_keys d k v : PyDict.get d k = Some v → k ∈ PyDict.keys d.
Proof.
  induction d as [|[k' v'] d IH]; simpl; [done|].
  case_decide as E; [subst; intros _; left | intros H; right; auto].
Qed.

Lemma dict_get_None_keys d k : PyDict.get d k = None ↔ k ∉ PyDict.keys d.
Proof.
  induction d as [|[k' v'] d IH]; simpl.
  - split; [intros _; apply not_elem_of_nil | done].
  - rewrite not_elem_of_cons. case_decide as E.
    + subst. split; [done | intros [? _]; done].
    + rewrite IH. split; [done | by intros [_ ?]].
Qed.

Lemma dict_keys_get d k : k ∈ PyDict.keys d → is_Some (PyDict.get d k).
Proof.
  intros Hin. destruct (PyDict.get d k) eqn:E; [by eexists|].
  by apply dict_get_None_keys in E.
Qed.

Lemma dict_get_In d k v : PyDict.get d k = Some v → (k, v) ∈ d.
Proof.
  induction d as [|[k' v'] d IH]; simpl; [done|].
  case_decide as E; [subst; intros [= ->]; left | intros H; right; auto].
Qed.

Lemma dict_In_get d k v :
  NoDup (PyDict.keys d) → (k, v) ∈ d → PyDict.get d k = Some v.
Proof.
  induction d as [|[k' v'] d IH]; simpl; [by intros _ ?%elem_of_nil|].
  intros [Hk Hd]%list.NoDup_cons [[= -> ->]|Hin]%elem_of_cons.
  - by rewrite decide_True.
  - case_decide as E; [subst|by auto].
    exfalso. apply Hk. unfold PyDict.keys. apply list_elem_of_fmap.
    by exists (k', v).
Qed.

Lemma dict_get_set_eq d k v : PyDict.get (PyDict.set d k v) k = Some v.
Proof.
  induction d as [|[k' v'] d IH]; simpl.
  - by rewrite decide_True.
  - case_decide as E; simpl; [by rewrite decide_True|].
    by rewrite decide_False.
Qed.

Lemma dict_get_set_ne d k k' v :
  k ≠ k' → PyDict.get (PyDict.set d k v) k' = PyDict.get d k'.
Proof.
  intros Hne. induction d as [|[k0 v0] d IH]; simpl.
  - by rewrite decide_False.
  - case_decide as E; simpl; [subst|].
    + by rewrite !decide_False.
    + case_decide; [done|apply IH].
Qed.

Lemma dict_keys_set_mem d k v :
  k ∈ PyDict.keys d → PyDict.keys (PyDict.set d k v) = PyDict.keys d.
Proof.
  induction d as [|[k0 v0] d IH]; simpl; [by intros ?%elem_of_nil|].
  intros Hin. case_decide as E; simpl; [by subst|].
  f_equal. apply IH. apply elem_of_cons in Hin as [?|?]; [congruence|done].
Qed.

Lemma dict_set_fresh d k v : k ∉ PyDict.keys d → PyDict.set d k v = d ++ [(k, v)].
Proof.
  induction d as [|[k0 v0] d IH]; simpl; [done|].
  intros [Hne Hnin]%not_elem_of_cons.
  rewrite decide_False by done. f_equal. by apply IH.
Qed.

Lemma dict_keys_set_fresh d k v :
  k ∉ PyDict.keys d → PyDict.keys (PyDict.set d k v) = PyDict.keys d ++ [k].
Proof.
  intros Hnin. rewrite dict_set_fresh by done.
  unfold PyDict.keys. by rewrite fmap_app.
Qed.

Lemma dict_NoDup_keys_set d k v :
  NoDup (PyDict.keys d) → NoDup (PyDict.keys (PyDict.set d k v)).
Proof.
  intros Hnd. destruct (decide (k ∈ PyDict.keys d)) as [Hin|Hnin].
  - by rewrite dict_keys_set_mem.
  - rewrite dict_keys_set_fresh by done. apply list.NoDup_app.
    split; [done|]. split; [|apply NoDup_singleton].
    intros x Hx ->%list_elem_of_singleton. done.
Qed.

(** Looking a key up does not depend on the order of the entries, as long
    as keys are unique (which they are in a Python dictionary). *)
Lemma dict_get_Permutation d d' k :
  NoDup (PyDict.keys d) → d ≡ₚ d' → PyDict.get d k = PyDict.get d' k.
Proof.
  intros Hnd Hp.
  assert (Hnd' : NoDup (PyDict.keys d')).
  { unfold PyDict.keys in *. by rewrite <- Hp. }
  destruct (PyDict.get d k) as [v|] eqn:E.
  - symmetry. apply dict_In_get; [done|]. rewrite <- Hp. by apply dict_get_In.
  - symmetry. apply dict_get_None_keys. apply dict_get_None_keys in E.
    unfold PyDict.keys in *. by rewrite <- Hp.
Qed.

End DictFacts.

(** ** The reduced record and the hash *)

Section HashingFacts.
Context `{RT : Runtime}.

Lemma fold_hash_nodes_get al_material keys acc k :
  PyDict.get (fold_left (hash_nodes_step al_material) keys acc) k =
    if decide (k ∈ keys)
    then match PyDict.get al_material k with
         | Some v => Some (freeze v)
         | None => PyDict.get acc k
         end
    else PyDict.get acc k.
Proof.
  revert acc. induction keys as [|k0 keys IH]; intros acc; cbn [fold_left].
  - destruct (decide (k ∈ [])) as [?%elem_of_nil|]; done.
  - rewrite IH. unfold hash_nodes_step.
    destruct (decide (k ∈ keys)) as [Hin|Hnin];
      destruct (decide (k ∈ k0 :: keys)) as [Hin'|Hnin'].
    + destruct (PyDict.get al_material k) eqn:Ek; [done|].
      destruct (PyDict.get al_material k0) eqn:Ek0; [|done].
      rewrite dict_get_set_ne; [done|]. intros ->. congruence.
    + exfalso. apply Hnin'. by right.
    + apply elem_of_cons in Hin' as [->|?]; [|done].
      destruct (PyDict.get al_material k0); [|done].
      apply dict_get_set_eq.
    + destruct (PyDict.get al_material k0); [|done].
      rewrite dict_get_set_ne; [done|]. intros ->. apply Hnin'. left.
Qed.

(** Reading the reduced record: exactly the relevant keys that are present,
    with lists turned into tuples. *)
Lemma reduce_material_get keys al_material k :
  PyDict.get (reduce_material keys al_material) k =
    if decide (k ∈ keys) then freeze <$> PyDict.get al_material k else None.
Proof.
  unfold reduce_material. rewrite fold_hash_nodes_get. simpl.
  case_decide; [|done]. by destruct (PyDict.get al_material k).
Qed.

Lemma fold_hash_nodes_ext A B keys acc :
  (∀ k, k ∈ keys → freeze <$> PyDict.get A k = freeze <$> PyDict.get B k) →
  fold_left (hash_nodes_step A) keys acc =
  fold_left (hash_nodes_step B) keys acc.
Proof.
  revert acc. induction keys as [|k0 keys IH]; intros acc Hag; [done|].
  simpl. assert (Hst : hash_nodes_step A acc k0 = hash_nodes_step B acc k0).
  { unfold hash_nodes_step. specialize (Hag k0 (list_elem_of_here _ _)).
    destruct (PyDict.get A k0), (PyDict.get B k0); simpl in Hag;
      [by injection Hag as -> | done..]. }
  rewrite Hst. apply IH. intros k Hk. apply Hag. by right.
Qed.

Lemma fold_hash_nodes_NoDup al_material keys acc :
  NoDup (PyDict.keys acc) →
  NoDup (PyDict.keys (fold_left (hash_nodes_step al_material) keys acc)).
Proof.
  revert acc. induction keys as [|k0 keys IH]; intros acc Hnd; [done|].
  simpl. apply IH. unfold hash_nodes_step.
  destruct (PyDict.get al_material k0); [|done].
  by apply dict_NoDup_keys_set.
Qed.

Lemma reduce_material_NoDup keys al_material :
  NoDup (PyDict.keys (reduce_material keys al_material)).
Proof. apply fold_hash_nodes_NoDup, NoDup_nil_2. Qed.

Lemma agree_reduced import_metadata A B :
  agree import_metadata A B ↔
  (get_al_material_hash import_metadata A).2 =
  (get_al_material_hash import_metadata B).2.
Proof.
  unfold get_al_material_hash; simpl. split.
  - intros Hag. by apply fold_hash_nodes_ext.
  - intros Heq k Hk.
    pose proof (reduce_material_get (compare_keys import_metadata) A k) as HA.
    pose proof (reduce_material_get (compare_keys import_metadata) B k) as HB.
    rewrite decide_True in HA, HB by done. congruence.
Qed.

Lemma agree_hash import_metadata A B :
  agree import_metadata A B →
  (get_al_material_hash import_metadata A).1 =
  (get_al_material_hash import_metadata B).1.
Proof.
  intros Hag%agree_reduced. unfold get_al_material_hash in *; simpl in *.
  by rewrite Hag.
Qed.

(** Two reduced records with the same set of items are the same mapping. *)
Lemma frozenset_items_get (d : material) k v :
  NoDup (PyDict.keys d) →
  (k, v) ∈ frozenset_items d ↔ PyDict.get d k = Some v.
Proof.
  intros Hnd. unfold frozenset_items, PyDict.items.
  rewrite elem_of_list_to_set. split.
  - by apply dict_In_get.
  - apply dict_get_In.
Qed.

Lemma frozenset_reduced_agree import_metadata A B :
  frozenset_items (get_al_material_hash import_metadata A).2 =
  frozenset_items (get_al_material_hash import_metadata B).2 →
  agree import_metadata A B.
Proof.
  unfold get_al_material_hash; simpl. intros Heq k Hk.
  set (keys := compare_keys import_metadata) in *.
  pose proof (reduce_material_get keys A k) as HA.
  pose proof (reduce_material_get keys B k) as HB.
  rewrite decide_True in HA, HB by done. rewrite <- HA, <- HB.
  apply option_eq. intros v.
  rewrite <- !frozenset_items_get by apply reduce_material_NoDup.
  by rewrite Heq.
Qed.

Lemma opacity_compared import_metadata :
  D3D.(opacity) ∈ compare_keys import_metadata.
Proof.
  unfold compare_keys. apply elem_of_app. left.
  do 4 apply list_elem_of_further. apply list_elem_of_here.
Qed.

End HashingFacts.

(** *** A hash into a bounded range has collisions *)

Lemma bounded_search (f : Z → Z) (v n : Z) :
  0 ≤ n →
  (∃ i, 0 ≤ i < n ∧ f i = v) ∨ (∀ i, 0 ≤ i < n → f i ≠ v).
Proof.
  intros Hn. pattern n. apply natlike_ind; [| |done].
  - right. intros i Hi. lia.
  - clear n Hn. intros n Hn [(i & Hi & Hv)|Hno].
    + left. exists i. split; [lia|done].
    + destruct (decide (f n = v)) as [Hv|Hv].
      * left. exists n. split; [lia|done].
      * right. intros i Hi. destruct (decide (i = n)) as [->|?]; [done|].
        apply Hno. lia.
Qed.

Lemma pigeonhole (n : Z) :
  0 ≤ n →
  ∀ f : Z → Z, (∀ i, 0 ≤ i ≤ n → 0 ≤ f i < n) →
  ∃ i j, 0 ≤ i < j ∧ j ≤ n ∧ f i = f j.
Proof.
  intros Hn. pattern n. apply natlike_ind; [| |done].
  - intros f Hf. specialize (Hf 0). lia.
  - clear n Hn. intros n Hn IH f Hf.
    destruct (bounded_search f (f (Z.succ n)) (Z.succ n)) as [(i & Hi & Hv)|Hno];
      [lia| |].
    + exists i, (Z.succ n). lia.
    + set (v := f (Z.succ n)) in *.
      set (g := λ i, if decide (f i < v) then f i else f i - 1).
      destruct (IH g) as (i & j & Hij & Hj & Hg).
      { intros i Hi. unfold g.
        pose proof (Hf i). pose proof (Hno i). pose proof (Hf (Z.succ n)).
        case_decide; lia. }
      exists i, j. split; [lia|]. split; [lia|]. unfold g in Hg.
      pose proof (Hno i). pose proof (Hno j).
      repeat case_decide; lia.
Qed.

Lemma qz_inj i j : qz i = qz j → i = j.
Proof.
  unfold qz. intros Heq.
  apply inject_Z_injective. by apply Q2Qc_eq_iff.
Qed.

Section Collisions.
Context `{RT : Runtime}.

Lemma opacity_only_disagree import_metadata i j :
  i ≠ j → ¬ agree import_metadata (opacity_only i) (opacity_only j).
Proof.
  intros Hne Hag.
  specialize (Hag _ (opacity_compared import_metadata)).
  unfold opacity_only in Hag. cbn [PyDict.get] in Hag.
  rewrite !decide_True in Hag by done.
  unfold num in Hag. cbn [fmap option_fmap option_map freeze] in Hag.
  apply Hne, qz_inj. congruence.
Qed.

(** Whatever the interpreter's hash is, as long as it fits in a machine
    word there are two materials that disagree and hash equal. *)
Lemma hash_collision import_metadata :
  (∀ s, - 2 ^ 63 ≤ py_hash s < 2 ^ 63) →
  ∃ A B, (get_al_material_hash import_metadata A).1 =
         (get_al_material_hash import_metadata B).1
         ∧ ¬ agree import_metadata A B.
Proof.
  intros Hrange.
  set (f := λ i, (get_al_material_hash import_metadata (opacity_only i)).1
                 + 2 ^ 63).
  destruct (pigeonhole (2 ^ 64) ltac:(lia) f) as (i & j & Hij & Hj & Hf).
  { intros i _. unfold f, get_al_material_hash. simpl.
    match goal with |- context [py_hash ?s] => pose proof (Hrange s) end.
    lia. }
  exists (opacity_only i), (opacity_only j). split.
  - unfold f in Hf. lia.
  - apply opacity_only_disagree. lia.
Qed.

End Collisions.

(** The proviso on collisions cannot be dropped: no hash that fits in a
    machine word has equal values on agreeing materials only, for any name
    table and either mode. *)
Lemma hash_equality_is_not_agreement :
  ¬ ∃ RT : Runtime,
      (∀ s, - 2 ^ 63 ≤ py_hash s < 2 ^ 63) ∧
      ∃ import_metadata, ∀ A B,
        (get_al_material_hash import_metadata A).1 =
        (get_al_material_hash import_metadata B).1
        ↔ agree import_metadata A B.
Proof.
  intros (RT & Hrange & md & Hiff).
  destruct (hash_collision md Hrange) as (A & B & Heq & Hdis).
  apply Hdis, Hiff, Heq.
Qed.

(** C1: two materials have the same present comparison-relevant keys with
    the same values, lists read as tuples, exactly when what is hashed for
    them, the frozenset of the pairs of the reduced record, is the same
    set; keys absent in both contribute nothing. Such materials get equal
    hashes; and when the two hashed sets are not a collision of the
    interpreter's hash (the proviso 'with overwhelming probability'), the
    hashes are equal exactly when the materials agree in this way. *)
Theorem hash_equal_iff_agreement `{RT : Runtime} import_metadata A B :
  let hashed_A := get_al_material_hash import_metadata A in
  let hashed_B := get_al_material_hash import_metadata B in
  (agree import_metadata A B ↔
   frozenset_items hashed_A.2 = frozenset_items hashed_B.2)
  ∧ (agree import_metadata A B → hashed_A.1 = hashed_B.1)
  ∧ (no_collision (frozenset_items hashed_A.2) (frozenset_items hashed_B.2) →
     (hashed_A.1 = hashed_B.1 ↔ agree import_metadata A B)).
Proof.
  intros hashed_A hashed_B.
  assert (Hset : agree import_metadata A B ↔
                 frozenset_items hashed_A.2 = frozenset_items hashed_B.2).
  { split; [|apply frozenset_reduced_agree].
    intros Hag%agree_reduced. unfold hashed_A, hashed_B. by rewrite Hag. }
  split; [done|]. split; [apply agree_hash|].
  intros Hfree. split; [|apply agree_hash].
  intros Heq. apply Hset, Hfree. exact Heq.
Qed.

Lemma hash_equal_iff_agreement_witness :
  let A := [("opacity", num 1); ("name", VScalar (SStr "wall"))] in
  let B := [("id", num 7); ("opacity", num 2)] in
  ((@get_al_material_hash sample_runtime false A).1 =
   (@get_al_material_hash sample_runtime false B).1
   ↔ @agree sample_runtime false A B)
  ∧ ¬ @agree sample_runtime false A B.
Proof.
  intros A B.
  destruct (@hash_equal_iff_agreement sample_runtime false A B)
    as (_ & _ & Hiff).
  assert (Hne : (@get_al_material_hash sample_runtime false A).1 ≠
                (@get_al_material_hash sample_runtime false B).1).
  { vm_compute. discriminate. }
  assert (Hfree : @no_collision sample_runtime
                    (frozenset_items (@get_al_material_hash sample_runtime false A).2)
                    (frozenset_items (@get_al_material_hash sample_runtime false B).2)).
  { intros Heq. exfalso. apply Hne. exact Heq. }
  split; [exact (Hiff Hfree)|].
  intros Hag. apply Hne, (Hiff Hfree), Hag.
Defined.

(** C4: the hash does not depend on the order in which the material's
    entries are stored, nor on the order in which the pairs of the reduced
    record are enumerated into the frozenset. *)
Theorem hash_order_independent `{RT : Runtime} import_metadata
    (A B : material) :
  NoDup (PyDict.keys A) → A ≡ₚ B →
  (get_al_material_hash import_metadata A).1 =
  (get_al_material_hash import_metadata B).1
  ∧ ∀ pairs,
      pairs ≡ₚ PyDict.items (get_al_material_hash import_metadata B).2 →
      py_hash (list_to_set pairs) =
      (get_al_material_hash import_metadata A).1.
Proof.
  intros Hnd Hp.
  assert (Hag : agree import_metadata A B).
  { intros k _. by rewrite (dict_get_Permutation A B k). }
  split; [by apply agree_hash|].
  intros pairs Hpairs. rewrite (agree_hash _ _ _ Hag).
  unfold get_al_material_hash, frozenset_items in *. simpl in *.
  f_equal. apply set_eq. intros x. rewrite !elem_of_list_to_set.
  by rewrite Hpairs.
Qed.

Lemma hash_order_independent_witness :
  let A := [("opacity", num 1); ("colorDiffuse", grey)] in
  let B := [("colorDiffuse", grey); ("opacity", num 1)] in
  (@get_al_material_hash sample_runtime false A).1 =
  (@get_al_material_hash sample_runtime false B).1
  ∧ ∀ pairs,
      pairs ≡ₚ PyDict.items (@get_al_material_hash sample_runtime false B).2 →
      sample_hash (list_to_set pairs) =
      (@get_al_material_hash sample_runtime false A).1.
Proof.
  intros A B.
  apply (@hash_order_independent sample_runtime false A B).
  - unfold A. simpl. apply NoDup_cons_2; [|apply NoDup_singleton].
    by intros ?%list_elem_of_singleton.
  - apply perm_swap.
Defined.

(** ** The deduplicator *)

Section DedupFacts.
Context `{RT : Runtime}.
Implicit Types (tbl : dict Z material) (mhm : dict string string).

Lemma material_step_table import_metadata mats ks mhm tbl :
  (fold_left (material_step import_metadata mats) ks (mhm, tbl)).2 =
  fold_left (table_insert import_metadata) (omap (PyDict.get mats) ks) tbl.
Proof.
  revert mhm tbl. induction ks as [|k ks IH]; intros mhm tbl; [done|].
  cbn [fold_left omap list_omap]. unfold material_step at 2.
  destruct (PyDict.get mats k) as [raw|] eqn:E; [|apply IH].
  cbn [fold_left]. unfold table_insert at 2.
  destruct (get_al_material_hash import_metadata raw) as [h r].
  cbn [fst snd]. apply IH.
Qed.

Lemma material_step_map import_metadata mats ks mhm tbl k :
  PyDict.get (fold_left (material_step import_metadata mats) ks (mhm, tbl)).1 k =
    if decide (k ∈ ks)
    then match PyDict.get mats k with
         | Some raw => Some (str (get_al_material_hash import_metadata raw).1)
         | None => PyDict.get mhm k
         end
    else PyDict.get mhm k.
Proof.
  revert mhm tbl. induction ks as [|k0 ks IH]; intros mhm tbl.
  - cbn [fold_left]. destruct (decide (k ∈ [])) as [?%elem_of_nil|]; done.
  - cbn [fold_left]. unfold material_step at 2.
    destruct (PyDict.get mats k0) as [raw0|] eqn:E0.
    + destruct (get_al_material_hash import_metadata raw0) as [h0 r0] eqn:Eh.
      cbn [fst snd]. rewrite IH.
      destruct (decide (k ∈ ks)) as [Hin|Hnin];
        destruct (decide (k ∈ k0 :: ks)) as [Hin'|Hnin'].
      * destruct (PyDict.get mats k) eqn:Ek; [done|].
        rewrite dict_get_set_ne; [done|]. intros ->. congruence.
      * exfalso. apply Hnin'. by right.
      * apply elem_of_cons in Hin' as [->|?]; [|done].
        rewrite E0, dict_get_set_eq. by rewrite Eh.
      * rewrite dict_get_set_ne; [done|]. intros ->. apply Hnin'. left.
    + rewrite IH.
      destruct (decide (k ∈ ks)) as [Hin|Hnin];
        destruct (decide (k ∈ k0 :: ks)) as [Hin'|Hnin']; try done.
      * exfalso. apply Hnin'. by right.
      * apply elem_of_cons in Hin' as [->|?]; [|done]. by rewrite E0.
Qed.

(** The hash map of one node: every local key, and only those, mapped to
    the string form of its material's hash. *)
Lemma hash_node_materials_map import_metadata mats tbl k :
  PyDict.get (hash_node_materials import_metadata mats tbl).1 k =
  (λ raw, str (get_al_material_hash import_metadata raw).1)
    <$> PyDict.get mats k.
Proof.
  unfold hash_node_materials. rewrite material_step_map.
  destruct (PyDict.get mats k) as [raw|] eqn:E.
  - rewrite decide_True; [done|]. by eapply dict_get_Some_keys.
  - by case_decide.
Qed.

Lemma hash_node_materials_table import_metadata mats tbl :
  (hash_node_materials import_metadata mats tbl).2 =
  fold_left (table_insert import_metadata)
    (omap (PyDict.get mats) (PyDict.keys mats)) tbl.
Proof. apply material_step_table. Qed.

Lemma hash_objects_table import_metadata objs tbl :
  (hash_objects import_metadata objs tbl).2 =
  fold_left (table_insert import_metadata) (encountered objs) tbl.
Proof.
  revert tbl. induction objs as [|o objs IH]; intros tbl; [done|].
  cbn [hash_objects].
  pose proof (hash_node_materials_table import_metadata (materials o) tbl) as Ht.
  destruct (hash_node_materials import_metadata (materials o) tbl) as [mhm tbl1].
  specialize (IH tbl1).
  destruct (hash_objects import_metadata objs tbl1) as [rest' tbl2].
  cbn [fst snd] in *. subst.
  unfold encountered. cbn [mbind list_bind]. rewrite fold_left_app.
  by unfold encountered_in.
Qed.

Lemma table_insert_NoDup import_metadata raws tbl :
  NoDup (PyDict.keys tbl) →
  NoDup (PyDict.keys (fold_left (table_insert import_metadata) raws tbl)).
Proof.
  revert tbl. induction raws as [|raw raws IH]; intros tbl Hnd; [done|].
  cbn [fold_left]. apply IH. unfold table_insert.
  destruct (get_al_material_hash import_metadata raw) as [h r].
  destruct (PyDict.mem tbl h); [done|]. by apply dict_NoDup_keys_set.
Qed.

(** First seen wins: an entry that is in the table stays as it is, and a
    new hash gets the reduced record of the first material that has it. *)
Lemma table_insert_get import_metadata raws tbl h :
  PyDict.get (fold_left (table_insert import_metadata) raws tbl) h =
    match PyDict.get tbl h with
    | Some r => Some r
    | None =>
        (λ raw, (get_al_material_hash import_metadata raw).2)
          <$> first_with_hash import_metadata h raws
    end.
Proof.
  revert tbl. induction raws as [|raw raws IH]; intros tbl.
  - cbn [fold_left]. by destruct (PyDict.get tbl h).
  - cbn [fold_left]. rewrite IH. unfold table_insert, first_with_hash.
    cbn [List.find].
    destruct (get_al_material_hash import_metadata raw) as [h0 r0] eqn:Eh.
    cbn [fst snd].
    destruct (PyDict.mem tbl h0) eqn:Em.
    + destruct (PyDict.get tbl h) as [r|] eqn:Eg; [done|].
      rewrite bool_decide_eq_false_2; [done|].
      intros ->. apply dict_mem_true in Em as [? Em]. congruence.
    + apply dict_mem_false in Em.
      destruct (decide (h0 = h)) as [->|Hne].
      * rewrite dict_get_set_eq, Em, bool_decide_eq_true_2 by done.
        change (Some r0 = Some (get_al_material_hash import_metadata raw).2).
        by rewrite Eh.
      * rewrite dict_get_set_ne by done.
        by rewrite (bool_decide_eq_false_2 (h0 = h)).
Qed.

Lemma hash_objects_nodes import_metadata objs tbl :
  Forall2
    (λ o o',
       o' = set_mat_hash_map o (mat_hash_map o') ∧
       ∀ k, PyDict.get (mat_hash_map o') k =
            (λ raw, str (get_al_material_hash import_metadata raw).1)
              <$> PyDict.get (materials o) k)
    objs (hash_objects import_metadata objs tbl).1.
Proof.
  revert tbl. induction objs as [|o objs IH]; intros tbl; [constructor|].
  cbn [hash_objects].
  pose proof (hash_node_materials_map import_metadata (materials o) tbl) as Hm.
  destruct (hash_node_materials import_metadata (materials o) tbl) as [mhm tbl1].
  specialize (IH tbl1).
  destruct (hash_objects import_metadata objs tbl1) as [rest' tbl2].
  cbn [fst snd] in *. constructor; [|done]. split; [done|]. apply Hm.
Qed.

Lemma hash_objects_idempotent import_metadata objs tbl :
  hash_objects import_metadata (hash_objects import_metadata objs tbl).1 tbl =
  hash_objects import_metadata objs tbl.
Proof.
  revert tbl. induction objs as [|o objs IH]; intros tbl; [done|].
  cbn [hash_objects].
  destruct (hash_node_materials import_metadata (materials o) tbl)
    as [mhm tbl1] eqn:E1.
  specialize (IH tbl1).
  destruct (hash_objects import_metadata objs tbl1) as [rest' tbl2] eqn:E2.
  cbn [fst snd hash_objects] in *.
  change (materials (set_mat_hash_map o mhm)) with (materials o).
  rewrite E1, IH. done.
Qed.

End DedupFacts.

(** C3: the table has one entry per hash, the entry for a hash is the
    reduced record of the first material met with that hash, and every
    node's hash map sends each of its local keys (and nothing else) to the
    string form of its material's hash; the nodes are otherwise
    untouched. *)
Theorem dedup_first_seen_wins `{RT : Runtime} import_metadata
    (data3d_objects : list Data3dObject) :
  let result := deduplicate import_metadata data3d_objects in
  NoDup (PyDict.keys result.2)
  ∧ (∀ h, PyDict.get result.2 h =
          (λ raw, (get_al_material_hash import_metadata raw).2)
            <$> first_with_hash import_metadata h (encountered data3d_objects))
  ∧ Forall2
      (λ o o',
         o' = set_mat_hash_map o (mat_hash_map o') ∧
         ∀ k, PyDict.get (mat_hash_map o') k =
              (λ raw, str (get_al_material_hash import_metadata raw).1)
                <$> PyDict.get (materials o) k)
      data3d_objects result.1.
Proof.
  unfold deduplicate. cbn zeta. split; [|split].
  - rewrite hash_objects_table. apply table_insert_NoDup, NoDup_nil_2.
  - intros h. rewrite hash_objects_table, table_insert_get. done.
  - apply hash_objects_nodes.
Qed.

(** C5: running the deduplicator on the nodes it has already annotated
    gives the same annotated nodes and the same table. *)
Theorem dedup_idempotent `{RT : Runtime} import_metadata
    (data3d_objects : list Data3dObject) :
  deduplicate import_metadata (deduplicate import_metadata data3d_objects).1 =
  deduplicate import_metadata data3d_objects.
Proof. apply hash_objects_idempotent. Qed.

Example dedup_two_grey_nodes :
  let n1 := sample_node "a" None [] [] [("m1", [("colorDiffuse", grey)])] in
  let n2 := sample_node "b" None [] [] [("m2", [("colorDiffuse", grey)])] in
  let result := @deduplicate sample_runtime false [n1; n2] in
  length result.2 = 1%nat
  ∧ (mat_hash_map <$> result.1) =
    [[("m1", "1818222375051379728")]; [("m2", "1818222375051379728")]].
Proof. vm_compute. done. Qed.

(** ** The loop layout of [create_mesh] *)

Lemma loop_layout_from (fs : list face) lv ls lt (l : Z) :
  fold_left loop_step fs (lv, ls, lt, l) =
    (lv ++ (fs ≫= f_vert),
     ls ++ ((λ i, l + 3 * i) <$> seqZ 0 (Z.of_nat (length fs))),
     lt ++ replicate (length fs) 3,
     l + 3 * Z.of_nat (length fs)).
Proof.
  revert lv ls lt l. induction fs as [|f fs IH]; intros lv ls lt l.
  - cbn [fold_left length mbind list_bind replicate].
    change (seqZ 0 (Z.of_nat 0)) with (@nil Z). cbn [fmap list_fmap].
    rewrite !app_nil_r. do 3 f_equal. lia.
  - cbn [fold_left loop_step]. rewrite IH.
    cbn [length mbind list_bind replicate].
    rewrite Nat2Z.inj_succ.
    rewrite (seqZ_cons 0 (Z.succ (Z.of_nat (length fs)))) by lia.
    rewrite <- !(assoc_L (++)). cbn [app fmap list_fmap].
    replace (Z.pred (Z.succ (Z.of_nat (length fs)))) with (Z.of_nat (length fs))
      by lia.
    replace (l + 3 * 0) with l by lia.
    replace (l + 3 * Z.succ (Z.of_nat (length fs)))
      with (l + 3 + 3 * Z.of_nat (length fs)) by lia.
    change (Z.succ 0) with (1 + 0).
    rewrite <- fmap_add_seqZ, <- list_fmap_compose.
    do 2 f_equal. f_equal. f_equal. f_equal.
    apply list_fmap_ext. intros _ i _. cbn. lia.
Qed.

Lemma triangular_loops (fs : list face) :
  Forall triangular fs → length (fs ≫= f_vert) = (3 * length fs)%nat.
Proof.
  induction 1 as [|f fs Hf _ IH]; [done|].
  cbn [mbind list_bind length]. rewrite length_app, IH, Hf. lia.
Qed.

(** C6: for a mesh of [n] triangular faces, [loop_start] is
    [0, 3, 6, ...] (so it starts at 0 and grows by 3 from face to face),
    every [loop_total] is 3, and there are [3 * n] loops, both as the number
    handed to [me.loops.add] and as the number of vertex indices emitted. *)
Theorem create_mesh_loop_layout (data : mesh_data) :
  Forall triangular (faces data) →
  let me := create_mesh data in
  let n := length (faces data) in
  length (me_loop_start me) = n
  ∧ (∀ i a b, me_loop_start me !! i = Some a →
              me_loop_start me !! S i = Some b → a + 3 = b)
  ∧ ((0 < n)%nat → me_loop_start me !! 0%nat = Some 0)
  ∧ (∀ i, (i < n)%nat → me_loop_start me !! i = Some (3 * Z.of_nat i))
  ∧ length (me_loop_total me) = n
  ∧ Forall (λ t, t = 3) (me_loop_total me)
  ∧ me_loops me = 3 * Z.of_nat n
  ∧ length (me_vertex_index me) = (3 * n)%nat.
Proof.
  intros Htri. unfold create_mesh, loop_layout.
  rewrite loop_layout_from. cbn [me_loop_start me_loop_total me_loops
    me_vertex_index app].
  set (n := length (faces data)).
  assert (Hstart : ∀ i, (i < n)%nat →
    ((λ i, 0 + 3 * i) <$> seqZ 0 (Z.of_nat n)) !! i = Some (3 * Z.of_nat i)).
  { intros i Hi. rewrite list_lookup_fmap, lookup_seqZ_lt by lia.
    reflexivity. }
  assert (Hlen : length ((λ i, 0 + 3 * i) <$> seqZ 0 (Z.of_nat n)) = n).
  { rewrite length_fmap, length_seqZ. lia. }
  split; [done|]. split; [|split; [|split; [|split; [|split; [|split]]]]].
  - intros i a b Ha Hb.
    assert (S i < n)%nat as Hi by (rewrite <- Hlen; by eapply lookup_lt_Some).
    rewrite Hstart in Ha, Hb by lia. simplify_eq. lia.
  - intros Hn. by rewrite Hstart.
  - done.
  - apply length_replicate.
  - by apply Forall_replicate.
  - lia.
  - by apply triangular_loops.
Qed.

Lemma create_mesh_loop_layout_witness :
  let data :=
    {| m_name := "quad";
       verts_loc := []; verts_nor := []; verts_uvs := []; verts_uvs2 := [];
       faces := [triangle;
                 {| f_vert := [0; 2; 3]; f_nor := [0; 0; 0];
                    f_uvs := []; f_uvs2 := [] |}];
       m_material := None |} in
  me_loop_start (create_mesh data) = [0; 3]
  ∧ me_loop_total (create_mesh data) = [3; 3]
  ∧ me_loops (create_mesh data) = 6
  ∧ length (me_vertex_index (create_mesh data)) = 6%nat.
Proof.
  intros data.
  assert (Htri : Forall triangular (faces data)).
  { repeat constructor. }
  pose proof (create_mesh_loop_layout data Htri) as (_ & _ & _ & _ & _ & _ & Hl & Hv).
  split; [reflexivity|]. split; [reflexivity|]. split; [exact Hl | exact Hv].
Defined.

(** ** [create_mesh]: slices, per-loop attributes, regrouping *)

Lemma create_mesh_layout (data : mesh_data) :
  let n := length (faces data) in
  me_vertex_index (create_mesh data) = faces data ≫= f_vert
  ∧ me_loop_start (create_mesh data) = (λ i, 0 + 3 * i) <$> seqZ 0 (Z.of_nat n)
  ∧ me_loop_total (create_mesh data) = replicate n 3
  ∧ me_loops (create_mesh data) = Z.of_nat n * 3.
Proof.
  unfold create_mesh, loop_layout. rewrite loop_layout_from. done.
Qed.

Lemma bind_slice (fs : list face) (i : nat) (f : face) :
  Forall triangular fs → fs !! i = Some f →
  take 3 (drop (3 * i) (fs ≫= f_vert)) = f_vert f.
Proof.
  intros Htri. revert i. induction Htri as [|g fs Hg _ IH]; intros i Hi.
  - by rewrite lookup_nil in Hi.
  - cbn [mbind list_bind]. destruct i as [|i].
    + cbn in Hi. simplify_eq. rewrite Nat.mul_0_r, drop_0.
      rewrite take_app_length'; [done|symmetry; apply Hg].
    + cbn in Hi. replace (3 * S i)%nat with (length (f_vert g) + 3 * i)%nat
        by (rewrite Hg; lia).
      rewrite drop_app_add'; [|done]. by apply IH.
Qed.

(** X7: in a mesh of triangles the vertex indices of face [i] are the
    slice of [loops_vert_idx] that polygon [i] is given by its [loop_start]
    and [loop_total]. *)
Theorem polygon_slice_is_face (data : mesh_data) (i : nat) (f : face) :
  Forall triangular (faces data) →
  faces data !! i = Some f →
  let me := create_mesh data in
  ∃ loop_start loop_total,
    me_loop_start me !! i = Some loop_start
    ∧ me_loop_total me !! i = Some loop_total
    ∧ take (Z.to_nat loop_total)
        (drop (Z.to_nat loop_start) (me_vertex_index me)) = f_vert f.
Proof.
  intros Htri Hf me.
  destruct (create_mesh_layout data) as (Hv & Hs & Ht & _).
  assert (i < length (faces data))%nat as Hi by by eapply lookup_lt_Some.
  exists (3 * Z.of_nat i), 3. subst me. rewrite Hv, Hs, Ht.
  split; [|split].
  - rewrite list_lookup_fmap, lookup_seqZ_lt by lia. reflexivity.
  - by rewrite lookup_replicate_2.
  - replace (Z.to_nat (3 * Z.of_nat i)) with (3 * i)%nat by lia.
    change (Z.to_nat 3) with 3%nat. by apply bind_slice.
Qed.

Lemma polygon_slice_is_face_witness :
  take 3 (drop 3 (me_vertex_index (create_mesh quad_mesh))) = [0; 2; 3].
Proof.
  destruct (polygon_slice_is_face quad_mesh 1
    {| f_vert := [0; 2; 3]; f_nor := [0; 0; 0]; f_uvs := [0; 2; -1];
       f_uvs2 := [] |}) as (s & t & Hs & Ht & Hslice).
  - repeat constructor.
  - reflexivity.
  - vm_compute in Hs, Ht. simplify_eq. exact Hslice.
Defined.

(** X8: the layout never looks at the size of a face: whatever the faces
    hold, polygon [i] starts at loop [3 * i] and has 3 loops, while the
    vertex-index array handed to the host has one entry per index of every
    face, so it fits the [3 * n] loops exactly when the indices add up to
    [3 * n]. *)
Theorem layout_ignores_face_size (data : mesh_data) :
  let me := create_mesh data in
  let n := length (faces data) in
  (∀ i, (i < n)%nat →
     me_loop_start me !! i = Some (3 * Z.of_nat i)
     ∧ me_loop_total me !! i = Some 3)
  ∧ length (me_vertex_index me)
      = sum_list ((λ f, length (f_vert f)) <$> faces data)
  ∧ (Z.of_nat (length (me_vertex_index me)) = me_loops me
     ↔ sum_list ((λ f, length (f_vert f)) <$> faces data) = (3 * n)%nat).
Proof.
  intros me n. destruct (create_mesh_layout data) as (Hv & Hs & Ht & Hl).
  subst me. rewrite Hv, Hs, Ht, Hl. fold n.
  assert (Hlen : ∀ fs : list face,
    length (fs ≫= f_vert) = sum_list ((λ f, length (f_vert f)) <$> fs)).
  { induction fs as [|g fs IH]; [done|].
    cbn [mbind list_bind fmap list_fmap sum_list sum_list_with].
    rewrite length_app. f_equal. exact IH. }
  split; [|split].
  - intros i Hi. split.
    + rewrite list_lookup_fmap, lookup_seqZ_lt by lia. reflexivity.
    + by rewrite lookup_replicate_2.
  - apply Hlen.
  - rewrite Hlen. lia.
Qed.

Lemma loop_indices_three (s : nat) :
  loop_indices (Z.of_nat s) 3 = [s + 0; s + 1; s + 2]%nat.
Proof.
  unfold loop_indices, seqZ. change (Z.to_nat 3) with 3%nat.
  cbn [seq fmap list_fmap]. f_equal; [lia|]. f_equal; [lia|]. f_equal. lia.
Qed.

Lemma loop_indices_length (s : Z) : length (loop_indices s 3) = 3%nat.
Proof. unfold loop_indices. by rewrite length_fmap, length_seqZ. Qed.

Lemma starts_cons (s n : nat) :
  (λ i, Z.of_nat s + 3 * i) <$> seqZ 0 (Z.of_nat (S n)) =
  Z.of_nat s :: ((λ i, Z.of_nat (s + 3) + 3 * i) <$> seqZ 0 (Z.of_nat n)).
Proof.
  rewrite Nat2Z.inj_succ.
  rewrite (seqZ_cons 0 (Z.succ (Z.of_nat n))) by lia.
  cbn [fmap list_fmap]. f_equal; [lia|].
  replace (Z.pred (Z.succ (Z.of_nat n))) with (Z.of_nat n) by lia.
  change (Z.succ 0) with (1 + 0).
  rewrite <- fmap_add_seqZ, <- list_fmap_compose.
  apply list_fmap_ext. intros _ i _. cbn. lia.
Qed.

Lemma set_corners_block (src : list vec) (idxs : list Z) (s : nat)
    (pre rest : list (option vec)) :
  length pre = s →
  in_range src idxs →
  set_corners src (zip idxs [s + 0; s + 1; s + 2]%nat)
    (pre ++ [None; None; None] ++ rest)
  = inr (pre ++ corners src idxs ++ rest).
Proof.
  unfold in_range, corners. intros <- Hin.
  assert (Hlen : ∀ (j : nat) (l : list (option vec)),
    (j < 3)%nat → length l = 3%nat →
    (length pre + j < length (pre ++ l ++ rest))%nat).
  { intros j l Hj Hl. rewrite !length_app, Hl. lia. }
  destruct idxs as [|a [|b [|c tl]]]; cbn [take] in Hin;
    cbn [zip zip_with set_corners fmap list_fmap lookup list_lookup mbind
         option_bind].
  - reflexivity.
  - apply Forall_cons_1 in Hin as [[va Ha] _]. rewrite Ha.
    rewrite decide_True by (apply Hlen; [lia|done]).
    rewrite insert_app_r. reflexivity.
  - apply Forall_cons_1 in Hin as [[va Ha] Hin].
    apply Forall_cons_1 in Hin as [[vb Hb] _]. rewrite Ha, Hb.
    rewrite decide_True by (apply Hlen; [lia|done]).
    rewrite insert_app_r. cbn [insert list_insert app].
    rewrite decide_True by (apply (Hlen 1%nat [_; _; _]); [lia|done]).
    rewrite insert_app_r. reflexivity.
  - apply Forall_cons_1 in Hin as [[va Ha] Hin].
    apply Forall_cons_1 in Hin as [[vb Hb] Hin].
    apply Forall_cons_1 in Hin as [[vc Hc] _]. rewrite Ha, Hb, Hc.
    rewrite decide_True by (apply Hlen; [lia|done]).
    rewrite insert_app_r. cbn [insert list_insert app].
    rewrite decide_True by (apply (Hlen 1%nat [_; _; _]); [lia|done]).
    rewrite insert_app_r. cbn [insert list_insert app].
    rewrite decide_True by (apply (Hlen 2%nat [_; _; _]); [lia|done]).
    rewrite insert_app_r. by destruct tl.
Qed.

Lemma set_uv_corners_block (src : list vec) (idxs : list Z) (s : nat)
    (pre rest : list (option vec)) :
  length pre = s →
  uv_in_range src idxs →
  set_uv_corners src (zip idxs [s + 0; s + 1; s + 2]%nat)
    (uv_layer src (pre ++ [None; None; None] ++ rest))
  = inr (uv_layer src (pre ++ corners src idxs ++ rest)).
Proof.
  unfold uv_in_range, set_uv_corners, uv_layer. intros Hs Hin.
  case_bool_decide as Hsrc; [|done]. by apply set_corners_block; [|apply Hin].
Qed.

Lemma corners_length (src : list vec) (idxs : list Z) :
  length (corners src idxs) = 3%nat.
Proof. done. Qed.

Lemma fill_faces_blocks (data : mesh_data) (fs : list face) (s : nat)
    (pn pu pu2 : list (option vec)) :
  length pn = s → length pu = s → length pu2 = s →
  Forall (face_in_range data) fs →
  fill_faces data
    (zip fs (zip ((λ i, Z.of_nat s + 3 * i) <$> seqZ 0 (Z.of_nat (length fs)))
                 (replicate (length fs) 3)))
    {| la_normal := pn ++ replicate (3 * length fs) None;
       la_uv := uv_layer (verts_uvs data) (pu ++ replicate (3 * length fs) None);
       la_uv2 :=
         uv_layer (verts_uvs2 data) (pu2 ++ replicate (3 * length fs) None) |}
  = inr {| la_normal := pn ++ (fs ≫= λ f, corners (verts_nor data) (f_nor f));
           la_uv := uv_layer (verts_uvs data)
                      (pu ++ (fs ≫= λ f, corners (verts_uvs data) (f_uvs f)));
           la_uv2 := uv_layer (verts_uvs2 data)
                      (pu2 ++ (fs ≫= λ f, corners (verts_uvs2 data) (f_uvs2 f)))
        |}.
Proof.
  intros Hn Hu Hu2 Hfs. revert s pn pu pu2 Hn Hu Hu2.
  induction Hfs as [|f fs (Hfn & Hfu & Hfu2) _ IH]; intros s pn pu pu2 Hn Hu Hu2.
  - cbn [length Nat.mul replicate mbind list_bind zip zip_with fill_faces].
    change (seqZ 0 (Z.of_nat 0)) with (@nil Z). done.
  - cbn [length]. rewrite starts_cons.
    replace (3 * S (length fs))%nat with (3 + 3 * length fs)%nat by lia.
    rewrite replicate_add. change (replicate 3 None)
      with [@None vec; None; None].
    cbn [replicate zip zip_with fill_faces mbind list_bind].
    unfold fill_face. cbn [la_normal la_uv la_uv2].
    rewrite loop_indices_three.
    rewrite (set_corners_block (verts_nor data) (f_nor f) s pn
               (replicate (3 * length fs) None) Hn Hfn).
    rewrite (set_uv_corners_block (verts_uvs data) (f_uvs f) s pu
               (replicate (3 * length fs) None) Hu Hfu).
    rewrite (set_uv_corners_block (verts_uvs2 data) (f_uvs2 f) s pu2
               (replicate (3 * length fs) None) Hu2 Hfu2).
    rewrite !(assoc_L (++)).
    rewrite (IH (s + 3)%nat); [done|..];
      rewrite length_app, corners_length; lia.
Qed.

Lemma lookup_blocks {A B} (g : A → list B) (fs : list A) (i j : nat) (f : A) :
  (∀ f, length (g f) = 3%nat) → fs !! i = Some f → (j < 3)%nat →
  (fs ≫= g) !! (3 * i + j)%nat = g f !! j.
Proof.
  intros Hg. revert i. induction fs as [|f0 fs IH]; intros i Hi Hj.
  - by rewrite lookup_nil in Hi.
  - cbn [mbind list_bind]. destruct i as [|i]; cbn in Hi.
    + simplify_eq. rewrite Nat.mul_0_r, Nat.add_0_l.
      apply lookup_app_l. rewrite Hg. done.
    + rewrite lookup_app_r by (rewrite Hg; lia).
      replace (3 * S i + j - length (g f0))%nat with (3 * i + j)%nat
        by (rewrite Hg; lia).
      by apply IH.
Qed.

(** X9: when every index the face loop reads is in range (negative ones
    counting from the end of the list), the loop returns, and the per-loop
    arrays are, face after face, the picked normals and uv coordinates:
    loop [3 * i + j] holds what index [j] of face [i] picks; a uv layer
    whose coordinate list is empty is never created. Index lists longer
    than three are cut, shorter ones leave the loop as the host made it. *)
Theorem loop_attributes_follow_faces (data : mesh_data) :
  well_indexed data →
  ∃ la, fill_loops data = inr la
    ∧ la_normal la = (faces data ≫= λ f, corners (verts_nor data) (f_nor f))
    ∧ la_uv la = uv_layer (verts_uvs data)
        (faces data ≫= λ f, corners (verts_uvs data) (f_uvs f))
    ∧ la_uv2 la = uv_layer (verts_uvs2 data)
        (faces data ≫= λ f, corners (verts_uvs2 data) (f_uvs2 f))
    ∧ ∀ i j f, faces data !! i = Some f → (j < 3)%nat →
        la_normal la !! (3 * i + j)%nat
          = Some (f_nor f !! j ≫= py_index (verts_nor data))
        ∧ (verts_uvs data ≠ [] →
           la_uv la !! (3 * i + j)%nat
             = Some (f_uvs f !! j ≫= py_index (verts_uvs data)))
        ∧ (verts_uvs2 data ≠ [] →
           la_uv2 la !! (3 * i + j)%nat
             = Some (f_uvs2 f !! j ≫= py_index (verts_uvs2 data))).
Proof.
  intros Hwf. unfold fill_loops.
  destruct (create_mesh_layout data) as (_ & Hs & Ht & Hl).
  rewrite Hs, Ht, Hl.
  replace (Z.to_nat (Z.of_nat (length (faces data)) * 3))
    with (3 * length (faces data))%nat by lia.
  pose proof (fill_faces_blocks data (faces data) 0 [] [] []
    eq_refl eq_refl eq_refl Hwf) as Hrun.
  cbn [app] in Hrun. change (Z.of_nat 0) with 0 in Hrun. rewrite Hrun.
  eexists. split; [done|]. cbn [la_normal la_uv la_uv2].
  split; [done|]. split; [done|]. split; [done|].
  assert (Hcorner : ∀ src idxs (j : nat), (j < 3)%nat →
    corners src idxs !! j = Some (idxs !! j ≫= py_index src)).
  { intros src idxs j Hj. unfold corners.
    destruct j as [|[|[|j]]]; [done..|lia]. }
  intros i j f Hf Hj. split; [|split].
  - rewrite (lookup_blocks _ _ i j f); [by apply Hcorner|done..].
  - intros Hsrc. unfold uv_layer. rewrite bool_decide_eq_true_2 by done.
    rewrite (lookup_blocks _ _ i j f); [by apply Hcorner|done..].
  - intros Hsrc. unfold uv_layer. rewrite bool_decide_eq_true_2 by done.
    rewrite (lookup_blocks _ _ i j f); [by apply Hcorner|done..].
Qed.

Lemma loop_attributes_follow_faces_witness :
  ∃ la, fill_loops quad_mesh = inr la
    ∧ la_normal la !! 2%nat = Some (Some (qz <$> [0; 0; 1]))
    ∧ la_uv la !! 5%nat = Some (Some (qz <$> [0; 1]))
    ∧ la_uv2 la = [].
Proof.
  destruct (loop_attributes_follow_faces quad_mesh)
    as (la & Hrun & Hn & Hu & Hu2 & _).
  - repeat constructor; try (intros _); repeat constructor;
      by (vm_compute; eexists).
  - exists la. rewrite Hn, Hu, Hu2. split; [exact Hrun|].
    split; [|split]; vm_compute; reflexivity.
Defined.

Lemma set_corners_error (src : list vec) (pairs : list (Z * nat))
    (arr : list (option vec)) (e : lookup_error) :
  set_corners src pairs arr = inl e → e = IndexError.
Proof.
  revert arr. induction pairs as [|[idx loop_idx] pairs IH]; intros arr;
    cbn [set_corners]; [done|].
  destruct (py_index src idx); [|congruence].
  destruct (decide _); [apply IH|congruence].
Qed.

Lemma set_corners_out_of_range (src : list vec) (idxs : list Z)
    (x y z : nat) (arr : list (option vec)) :
  ¬ in_range src idxs →
  set_corners src (zip idxs [x; y; z]) arr = inl IndexError.
Proof.
  unfold in_range. intros Hbad.
  destruct idxs as [|a [|b [|c tl]]]; cbn [take] in Hbad;
    cbn [zip zip_with set_corners].
  - destruct Hbad. constructor.
  - destruct (py_index src a) eqn:Ha; [|done].
    destruct Hbad. repeat constructor. by rewrite Ha.
  - destruct (py_index src a) eqn:Ha; [|done].
    destruct (decide _); [|done]. cbn [set_corners].
    destruct (py_index src b) eqn:Hb; [|done].
    destruct Hbad. repeat constructor; by rewrite ?Ha, ?Hb.
  - destruct (py_index src a) eqn:Ha; [|done].
    destruct (decide _); [|done]. cbn [set_corners].
    destruct (py_index src b) eqn:Hb; [|done].
    destruct (decide _); [|done]. cbn [set_corners].
    destruct (py_index src c) eqn:Hc; [|done].
    destruct Hbad. repeat constructor; by rewrite ?Ha, ?Hb, ?Hc.
Qed.

Lemma fill_face_out_of_range (data : mesh_data) (f : face) (s : Z)
    (la : loop_attrs) :
  ¬ face_in_range data f →
  fill_face data la (f, (s, 3)) = inl IndexError.
Proof.
  unfold face_in_range, uv_in_range, fill_face, set_uv_corners. intros Hbad.
  pose proof (loop_indices_length s) as Hli.
  destruct (loop_indices s 3) as [|x [|y [|z [|]]]]; try done. clear Hli.
  destruct (decide (in_range (verts_nor data) (f_nor f))) as [Hn|Hn];
    [|by rewrite set_corners_out_of_range].
  destruct (set_corners (verts_nor data) _ _) as [e|nors] eqn:Hrun;
    [by apply set_corners_error in Hrun as ->|].
  case_bool_decide as Hu.
  - destruct (decide (in_range (verts_uvs data) (f_uvs f))) as [Huv|Huv];
      [|by rewrite set_corners_out_of_range].
    destruct (set_corners (verts_uvs data) _ _) as [e|uvs] eqn:Hrun1;
      [by apply set_corners_error in Hrun1 as ->|].
    case_bool_decide as Hu2.
    + destruct (decide (in_range (verts_uvs2 data) (f_uvs2 f))) as [Huv2|Huv2];
        [|by rewrite set_corners_out_of_range].
      destruct Hbad. done.
    + destruct Hbad. done.
  - case_bool_decide as Hu2.
    + destruct (decide (in_range (verts_uvs2 data) (f_uvs2 f))) as [Huv2|Huv2];
        [|by rewrite set_corners_out_of_range].
      destruct Hbad. done.
    + destruct Hbad. done.
Qed.

Lemma fill_face_error (data : mesh_data) (la : loop_attrs)
    (fp : face * (Z * Z)) (e : lookup_error) :
  fill_face data la fp = inl e → e = IndexError.
Proof.
  destruct fp as [f [s t]]. unfold fill_face, set_uv_corners.
  destruct (set_corners (verts_nor data) _ _) eqn:H1;
    [intros [= <-]; by eapply set_corners_error|].
  case_bool_decide.
  - destruct (set_corners (verts_uvs data) _ _) eqn:H2;
      [intros [= <-]; by eapply set_corners_error|].
    case_bool_decide; [|done].
    destruct (set_corners (verts_uvs2 data) _ _) eqn:H3;
      [intros [= <-]; by eapply set_corners_error|done].
  - case_bool_decide; [|done].
    destruct (set_corners (verts_uvs2 data) _ _) eqn:H3;
      [intros [= <-]; by eapply set_corners_error|done].
Qed.

Lemma fill_faces_out_of_range (data : mesh_data)
    (fps : list (face * (Z * Z))) (f : face) (s : Z) (la : loop_attrs) :
  (f, (s, 3)) ∈ fps → ¬ face_in_range data f →
  fill_faces data fps la = inl IndexError.
Proof.
  intros Hin Hbad. revert la.
  induction fps as [|fp fps IH]; intros la; [by apply elem_of_nil in Hin|].
  cbn [fill_faces]. destruct (fill_face data la fp) as [e|la'] eqn:Hrun.
  - by apply fill_face_error in Hrun as ->.
  - apply elem_of_cons in Hin as [<-|Hin]; [|by apply IH].
    by rewrite fill_face_out_of_range in Hrun.
Qed.

(** X10: one index out of range among those the face loop reads (the
    first three normal indices of a face, and the first three uv indices
    when the mesh has coordinates of that kind) makes [create_mesh] raise
    [IndexError], whichever face holds it. *)
Theorem index_out_of_range_raises (data : mesh_data) (f : face) :
  f ∈ faces data → ¬ face_in_range data f →
  fill_loops data = inl IndexError.
Proof.
  intros Hf Hbad. unfold fill_loops.
  destruct (create_mesh_layout data) as (_ & Hs & Ht & _). rewrite Hs, Ht.
  apply list_elem_of_lookup in Hf as [i Hi].
  assert (i < length (faces data))%nat as Hlt by by eapply lookup_lt_Some.
  eapply (fill_faces_out_of_range data _ f (3 * Z.of_nat i)); [|done].
  apply list_elem_of_lookup. exists i.
  apply lookup_zip_with_Some. eexists _, _. split; [done|]. split; [done|].
  apply lookup_zip_with_Some. eexists _, _. split; [done|]. split.
  - rewrite list_lookup_fmap, lookup_seqZ_lt by lia. reflexivity.
  - by rewrite lookup_replicate_2.
Qed.

Lemma index_out_of_range_raises_witness :
  fill_loops
    {| m_name := "bad"; verts_loc := []; verts_nor := [[0%Qc; 0%Qc; 1%Qc]];
       verts_uvs := []; verts_uvs2 := [];
       faces := [ triangle;
                  {| f_vert := [0; 1; 2]; f_nor := [0; 1; 0]; f_uvs := [];
                     f_uvs2 := [] |} ];
       m_material := None |}
  = inl IndexError.
Proof.
  eapply (index_out_of_range_raises _
    {| f_vert := [0; 1; 2]; f_nor := [0; 1; 0]; f_uvs := []; f_uvs2 := [] |}).
  - cbn [faces]. apply elem_of_cons. right. apply elem_of_cons. by left.
  - intros (Hn & _). cbn in Hn.
    apply Forall_cons_1 in Hn as [_ Hn]. apply Forall_cons_1 in Hn as [[v Hv] _].
    vm_compute in Hv. discriminate Hv.
Defined.

Lemma regroup3_spec {A} (m : nat) (flat : list A) :
  length flat = (3 * m)%nat →
  length (regroup3 flat) = m
  ∧ (regroup3 flat ≫= λ t, [t.1.1; t.1.2; t.2]) = flat.
Proof.
  revert flat. induction m as [|m IH]; intros flat Hlen.
  - by destruct flat.
  - destruct flat as [|a [|b [|c rest]]]; cbn [length] in Hlen; try lia.
    destruct (IH rest) as [Hl Hf]; [lia|].
    cbn [regroup3 length mbind list_bind fst snd app].
    split; [by rewrite Hl|]. f_equal. f_equal. f_equal. exact Hf.
Qed.

(** X11: the regrouping of the flat normal array: an array of [3 * m]
    numbers, as [cl_nors] is for [m] loops, becomes [m] triples that hold
    its entries in order, three by three. *)
Theorem regroup3_round_trip {A} (m : nat) (flat : list A) :
  length flat = (3 * m)%nat →
  length (regroup3 flat) = m
  ∧ (regroup3 flat ≫= λ t, [t.1.1; t.1.2; t.2]) = flat
  ∧ ∀ i, (i < m)%nat →
      ∃ a b c, regroup3 flat !! i = Some (a, b, c)
        ∧ flat !! (3 * i)%nat = Some a
        ∧ flat !! (3 * i + 1)%nat = Some b
        ∧ flat !! (3 * i + 2)%nat = Some c.
Proof.
  intros Hlen. destruct (regroup3_spec m flat Hlen) as [Hl Hf].
  split; [done|]. split; [done|]. intros i Hi.
  destruct (lookup_lt_is_Some_2 (regroup3 flat) i) as [[[a b] c] Ht];
    [by rewrite Hl|].
  exists a, b, c. split; [done|].
  rewrite <- Hf at 1 2 3.
  rewrite <- (Nat.add_0_r (3 * i)) at 1.
  rewrite !(lookup_blocks _ _ i _ (a, b, c)); done || lia.
Qed.

Lemma regroup3_round_trip_witness :
  length (regroup3 [1; 2; 3; 4; 5; 6]) = 2%nat
  ∧ (regroup3 [1; 2; 3; 4; 5; 6] ≫= λ t, [t.1.1; t.1.2; t.2])
      = [1; 2; 3; 4; 5; 6]
  ∧ ∀ i, (i < 2)%nat →
      ∃ a b c, regroup3 [1; 2; 3; 4; 5; 6] !! i = Some (a, b, c)
        ∧ [1; 2; 3; 4; 5; 6] !! (3 * i)%nat = Some a
        ∧ [1; 2; 3; 4; 5; 6] !! (3 * i + 1)%nat = Some b
        ∧ [1; 2; 3; 4; 5; 6] !! (3 * i + 2)%nat = Some c.
Proof. apply (regroup3_round_trip 2 [1; 2; 3; 4; 5; 6]). reflexivity. Defined.

(** *** The call of [create_mesh] *)

Lemma fill_loops_returns (data : mesh_data) :
  well_indexed data → ∃ la, fill_loops data = inr la.
Proof.
  intros Hwf. unfold fill_loops.
  destruct (create_mesh_layout data) as (_ & Hs & Ht & Hl).
  rewrite Hs, Ht, Hl.
  replace (Z.to_nat (Z.of_nat (length (faces data)) * 3))
    with (3 * length (faces data))%nat by lia.
  pose proof (fill_faces_blocks data (faces data) 0 [] [] []
    eq_refl eq_refl eq_refl Hwf) as Hrun.
  cbn [app] in Hrun. change (Z.of_nat 0) with 0 in Hrun. rewrite Hrun.
  by eexists.
Qed.

Lemma fill_loops_raises (data : mesh_data) :
  ¬ well_indexed data → fill_loops data = inl IndexError.
Proof.
  intros Hbad. unfold well_indexed in Hbad.
  apply not_Forall_Exists in Hbad; [|apply _].
  apply list.Exists_exists in Hbad as (f & Hf & Hbad). unfold fill_loops.
  destruct (create_mesh_layout data) as (_ & Hs & Ht & _). rewrite Hs, Ht.
  apply list_elem_of_lookup in Hf as [i Hi].
  assert (i < length (faces data))%nat as Hlt by by eapply lookup_lt_Some.
  eapply (fill_faces_out_of_range data _ f (3 * Z.of_nat i)); [|done].
  apply list_elem_of_lookup. exists i.
  apply lookup_zip_with_Some. eexists _, _. split; [done|]. split; [done|].
  apply lookup_zip_with_Some. eexists _, _. split; [done|]. split.
  - rewrite list_lookup_fmap, lookup_seqZ_lt by lia. reflexivity.
  - by rewrite lookup_replicate_2.
Qed.

Lemma create_mesh_call_run (data : mesh_data) h :
  well_indexed data → create_mesh_call data h = (h, inr (create_mesh data)).
Proof.
  intros (la & Hla)%fill_loops_returns. unfold create_mesh_call.
  by rewrite Hla.
Qed.

Lemma create_mesh_call_raises (data : mesh_data) h :
  ¬ well_indexed data →
  create_mesh_call data h = (h, inl (LookupError IndexError)).
Proof.
  intros Hbad%fill_loops_raises. unfold create_mesh_call. by rewrite Hbad.
Qed.

Lemma create_mesh_call_inr (data : mesh_data) h h' me :
  create_mesh_call data h = (h', inr me) →
  h' = h ∧ me = create_mesh data ∧ well_indexed data.
Proof.
  destruct (decide (well_indexed data)) as [Hwf|Hbad].
  - rewrite create_mesh_call_run by done. by intros [= <- <-].
  - by rewrite create_mesh_call_raises.
Qed.

Lemma create_mesh_call_inl (data : mesh_data) h h' e :
  create_mesh_call data h = (h', inl e) →
  h' = h ∧ e = LookupError IndexError ∧ ¬ well_indexed data.
Proof.
  destruct (decide (well_indexed data)) as [Hwf|Hbad].
  - by rewrite create_mesh_call_run.
  - rewrite create_mesh_call_raises by done. by intros [= <- <-].
Qed.

(** ** Running the importer's monad *)

Lemma bind_run {A B} (m : M A) (f : A → M B) (h : host) :
  (m ≫= f) h =
    match m h with
    | (h', inr a) => f a h'
    | (h', inl e) => (h', inl e)
    end.
Proof. reflexivity. Qed.

Lemma bind_inr {A B} (m : M A) (f : A → M B) h h' b :
  (m ≫= f) h = (h', inr b) ↔
  ∃ h1 a, m h = (h1, inr a) ∧ f a h1 = (h', inr b).
Proof.
  rewrite bind_run. destruct (m h) as [h1 [e|a]]; split.
  - done.
  - by intros (? & ? & ? & ?).
  - intros Hf. by exists h1, a.
  - intros (? & ? & [= <- <-] & ?). done.
Qed.

Lemma bind_inl {A B} (m : M A) (f : A → M B) h h' e :
  (m ≫= f) h = (h', inl e) ↔
  m h = (h', inl e) ∨ ∃ h1 a, m h = (h1, inr a) ∧ f a h1 = (h', inl e).
Proof.
  rewrite bind_run. destruct (m h) as [h1 [e1|a]]; split.
  - intros [= <- <-]. by left.
  - intros [[= <- <-]|(? & ? & ? & ?)]; done.
  - intros Hf. right. by exists h1, a.
  - intros [?|(? & ? & [= <- <-] & ?)]; done.
Qed.

Lemma bind_fails_l {A B} (m : M A) (f : A → M B) : fails m → fails (m ≫= f).
Proof.
  intros Hm h. destruct (Hm h) as (h' & e & Hr).
  exists h', e. rewrite bind_run, Hr. done.
Qed.

Lemma bind_fails_r {A B} (m : M A) (f : A → M B) :
  (∀ a, fails (f a)) → fails (m ≫= f).
Proof.
  intros Hf h. rewrite bind_run. destruct (m h) as [h1 [e|a]].
  - by exists h1, e.
  - apply Hf.
Qed.

Lemma fold_m_fails {A S} (body : S → A → M S) (l1 l2 : list A) (x : A) :
  (∀ s, fails (body s x)) → ∀ s, fails (fold_m body (l1 ++ x :: l2) s).
Proof.
  intros Hx. induction l1 as [|y l1 IH]; intros s; cbn [app fold_m].
  - apply bind_fails_l, Hx.
  - apply bind_fails_r. intros s'. apply IH.
Qed.

Lemma fold_m_app {A S} (body : S → A → M S) (l1 l2 : list A) (s : S) h :
  fold_m body (l1 ++ l2) s h =
    match fold_m body l1 s h with
    | (h', inr s') => fold_m body l2 s' h'
    | (h', inl e) => (h', inl e)
    end.
Proof.
  revert s h. induction l1 as [|y l1 IH]; intros s h; cbn [app fold_m].
  - done.
  - rewrite !bind_run. destruct (body s y h) as [h1 [e|s1]]; [done|].
    apply IH.
Qed.

(** ** Host operations that only add objects *)

Lemma grows_ret {A} (a : A) : grows (mret a).
Proof. intros h h' r [= <- <-]. done. Qed.

Lemma grows_raise {A} (e : exn) : grows (@raise A e).
Proof. intros h h' r [= <- <-]. done. Qed.

Lemma grows_bind {A B} (m : M A) (f : A → M B) :
  grows m → (∀ a, grows (f a)) → grows (m ≫= f).
Proof.
  intros Hm Hf h h' r. rewrite bind_run.
  destruct (m h) as [h1 [e|a]] eqn:E; destruct (Hm _ _ _ E) as [Hl Hlog].
  - intros [= <- <-]. done.
  - intros Hr. destruct (Hf a _ _ _ Hr) as [Hl' Hlog'].
    split; [set_solver | congruence].
Qed.

Lemma grows_modify (f : host → host) :
  (∀ h, live h ⊆ live (f h) ∧ h_log (f h) = h_log h) → grows (modify f).
Proof. intros Hf h h' r [= <- <-]. apply Hf. Qed.

Lemma grows_for_each {A} (l : list A) (body : A → M unit) :
  (∀ x, grows (body x)) → grows (for_each l body).
Proof.
  intros Hb. induction l as [|x l IH]; cbn [for_each].
  - apply grows_ret.
  - apply grows_bind; [apply Hb | intros _; apply IH].
Qed.

Lemma grows_with_obj {A} (o : option nat) (k : nat → M A) :
  (∀ id, grows (k id)) → grows (with_obj o k).
Proof. intros Hk. destruct o; [apply Hk | apply grows_raise]. Qed.

Lemma live_alter f id h :
  live (with_objects h (alter f id (h_objects h))) = live h.
Proof. unfold live. cbn. apply dom_alter_L. Qed.

Lemma grows_alter_object f id : grows (alter_object f id).
Proof. apply grows_modify. intros h. by rewrite live_alter. Qed.

Lemma grows_objects_new name data : grows (objects_new name data).
Proof.
  intros h h' r [= <- <-]. split; [|done].
  unfold live. cbn. rewrite dom_insert_L. set_solver.
Qed.

Lemma grows_scene_link id : grows (scene_link id).
Proof. by apply grows_modify. Qed.

Lemma grows_select_all_deselect : grows select_all_deselect.
Proof. by apply grows_modify. Qed.

Lemma grows_set_select id : grows (set_select id).
Proof. by apply grows_modify. Qed.

Lemma grows_set_active id : grows (set_active id).
Proof. by apply grows_modify. Qed.

Lemma grows_materials_new name : grows (materials_new name).
Proof. intros h h' r [= <- <-]. done. Qed.

Lemma grows_gets {A} (f : host → A) : grows (gets f).
Proof. intros h h' r [= <- <-]. done. Qed.

Lemma grows_type_of o : grows (type_of o).
Proof.
  apply grows_with_obj. intros id h h' r. 
  destruct (h_objects h !! id); intros [= <- <-]; done.
Qed.

Lemma grows_select objects discard : grows (select objects discard).
Proof.
  unfold select. apply grows_bind.
  - destruct discard; [apply grows_select_all_deselect | apply grows_ret].
  - intros _. apply grows_for_each. intros obj. apply grows_with_obj.
    intros id. apply grows_bind; [apply grows_set_select|].
    intros _. apply grows_set_active.
Qed.

Lemma grows_optimize_mesh obj : grows (optimize_mesh obj).
Proof.
  destruct obj as [id|]; cbn [optimize_mesh]; [|apply grows_ret].
  apply grows_bind; [apply grows_type_of|]. intros t.
  case_decide; [apply grows_ret | apply grows_select].
Qed.

Section SceneFacts.
Context `{RT : Runtime}.

Lemma grows_bind_keywords fname ps kws : grows (bind_keywords fname ps kws).
Proof.
  unfold bind_keywords. destruct (List.find _ kws);
    [apply grows_raise | apply grows_ret].
Qed.

Lemma grows_py_gt v q : grows (py_gt v q).
Proof.
  destruct v as [[]| |]; cbn [py_gt]; try apply grows_raise. apply grows_ret.
Qed.

Lemma grows_apply_material nd blm mesh ob : grows (apply_material nd blm mesh ob).
Proof.
  unfold apply_material. destruct (m_material mesh) as [key|].
  - case_decide; [|apply grows_ret].
    destruct (_ && _); [|apply grows_raise].
    destruct (PyDict.get blm _); [|apply grows_raise].
    apply grows_bind; [apply grows_alter_object|]. intros _.
    apply grows_bind; [apply grows_bind_keywords|]. intros _.
    apply grows_bind; [apply grows_py_gt|]. intros b. apply grows_ret.
  - apply grows_bind; [apply grows_gets|]. intros [m|].
    + apply grows_bind; [apply grows_alter_object|]. intros _. apply grows_ret.
    + apply grows_bind; [|intros _; apply grows_ret].
      apply grows_bind; [apply grows_materials_new|]. intros m.
      apply grows_alter_object.
Qed.

(** *** What [apply_material] does *)

(** The call [mat.get_al_mat_node(D3D.coef_emit, fallback=0.0)] never gets
    to the body of [get_al_mat_node]: the keyword is not a parameter. *)
Lemma bind_fallback_keyword h :
  bind_keywords "get_al_mat_node" get_al_mat_node_parameters ["fallback"] h =
  (h, inl (TypeError
     "get_al_mat_node() got an unexpected keyword argument 'fallback'")).
Proof. reflexivity. Qed.

(** [apply_material] never reports an emissive mesh, and it returns only
    for a mesh without a material key. *)
Lemma apply_material_returns nd blm mesh ob h h' b :
  apply_material nd blm mesh ob h = (h', inr b) → b = false ∧ unkeyed mesh.
Proof.
  unfold apply_material, unkeyed. destruct (m_material mesh) as [key|].
  - case_decide as Hk.
    + destruct (_ && _); [|done].
      destruct (PyDict.get blm _); [|done].
      rewrite bind_run. destruct (alter_object _ ob h) as [h1 [e|[]]]; [done|].
      rewrite bind_run, bind_fallback_keyword. done.
    + intros [= <- <-]. split; [done|]. right. f_equal.
      by destruct (decide (key = "")).
  - intros Hr. split; [|by left].
    apply bind_inr in Hr as (h1 & m & _ & Hr).
    apply bind_inr in Hr as (h2 & [] & _ & Hr). by injection Hr as _ <-.
Qed.

(** A mesh without a material key never makes [apply_material] raise. *)
Lemma apply_material_unkeyed nd blm mesh ob h :
  unkeyed mesh → ∃ h', apply_material nd blm mesh ob h = (h', inr false).
Proof.
  unfold apply_material. intros [-> | ->].
  - rewrite bind_run. cbn [gets].
    destruct (index_of _ _) as [m|]; cbn; eauto.
  - rewrite decide_False by (by intros ?). eauto.
Qed.

(** A key that the node's hash map does not know raises the
    material-resolution exception. *)
Lemma apply_material_unknown_key nd blm mesh ob key h :
  m_material mesh = Some key → key ≠ "" →
  PyDict.get (mat_hash_map nd) key = None →
  apply_material nd blm mesh ob h =
    (h, inl (Exception "Material not found: ")).
Proof.
  intros Hm Hk Hg. unfold apply_material. rewrite Hm, decide_True by done.
  rewrite Hg. cbn [default]. rewrite bool_decide_eq_false_2; [done|].
  by intros ?.
Qed.

(** A key that resolves to a material, emissive or not, raises
    [TypeError]. *)
Lemma apply_material_resolved nd blm mesh ob key hashed_key mat h :
  m_material mesh = Some key → key ≠ "" →
  PyDict.get (mat_hash_map nd) key = Some hashed_key → hashed_key ≠ "" →
  PyDict.get blm hashed_key = Some mat →
  ∃ h', apply_material nd blm mesh ob h =
    (h', inl (TypeError
       "get_al_mat_node() got an unexpected keyword argument 'fallback'")).
Proof.
  intros Hm Hk Hg Hh Hb. unfold apply_material.
  rewrite Hm, decide_True by done. rewrite Hg. cbn [default]. unfold id.
  rewrite bool_decide_eq_true_2 by done.
  unfold PyDict.mem. rewrite Hb. cbn [andb].
  rewrite bind_run. cbn [alter_object modify].
  rewrite bind_run, bind_fallback_keyword. eauto.
Qed.

End SceneFacts.

(** ** The mesh loop of one node *)

Lemma type_of_live id h :
  id ∈ live h → ∃ t, type_of (Some id) h = (h, inr t).
Proof.
  unfold live. intros [ob Hob]%elem_of_dom.
  unfold type_of, with_obj. rewrite Hob. eauto.
Qed.

(** Selecting real objects always goes through; it only touches the
    selection and the active object. *)
Lemma select_each_run (group : list nat) h :
  ∃ h', for_each (Some <$> group)
          (λ obj, with_obj obj (λ id, set_select id;; set_active id)) h
        = (h', inr ())
      ∧ h_objects h' = h_objects h ∧ h_log h' = h_log h
      ∧ h_selected h' = list_to_set group ∪ h_selected h.
Proof.
  revert h. induction group as [|id group IH]; intros h.
  - exists h. cbn. repeat split. set_solver.
  - cbn [fmap list_fmap for_each]. rewrite bind_run. cbn [with_obj].
    rewrite bind_run. cbn [set_select set_active modify].
    match goal with |- context [for_each _ _ ?h1] =>
      destruct (IH h1) as (h' & Hr & Ho & Hl & Hs) end.
    exists h'. rewrite Hr, Ho, Hl, Hs. cbn. repeat split. set_solver.
Qed.

Lemma select_many_run (group : list nat) h :
  ∃ h', select (Many (Some <$> group)) true h = (h', inr ())
      ∧ h_objects h' = h_objects h ∧ h_log h' = h_log h
      ∧ h_selected h' = list_to_set group.
Proof.
  unfold select. rewrite bind_run. cbn [select_all_deselect modify].
  match goal with |- context [for_each _ _ ?h1] =>
    destruct (select_each_run group h1) as (h' & Hr & Ho & Hl & Hs) end.
  exists h'. rewrite Hr, Ho, Hl, Hs. cbn. repeat split. set_solver.
Qed.

Lemma select_one_run id discard h :
  ∃ h', select (One (Some id)) discard h = (h', inr ())
      ∧ h_objects h' = h_objects h ∧ h_log h' = h_log h.
Proof.
  unfold select. rewrite bind_run.
  destruct discard; cbn; eexists; repeat split.
Qed.

(** Joining removes selected objects only, and never the active one. *)
Lemma object_join_run h :
  ∃ h', object_join h = (h', inr ())
      ∧ h_log h' = h_log h
      ∧ ∀ id, id ∈ live h →
              (id ∉ h_selected h ∨ h_active h = Some id) → id ∈ live h'.
Proof.
  unfold object_join, modify. eexists. split; [done|].
  destruct (h_active h) as [a|] eqn:Ea; [|by split].
  destruct (h_objects h !! a ≫= ob_data) as [me_a|]; [|by split].
  split; [done|]. intros id Hid Hsel. unfold live in *. cbn.
  rewrite dom_alter_L. apply elem_of_dom in Hid as [ob Hob].
  apply elem_of_dom. exists ob. apply map_lookup_filter_Some. split; [done|].
  cbn. intros [_ Hin]%list_elem_of_filter. apply elem_of_elements in Hin.
  destruct Hsel as [?|[= ->]]; set_solver.
Qed.

Lemma join_objects_run joined rest h :
  ∃ h', join_objects (joined :: rest) h = (h', inr (Some joined))
      ∧ h_log h' = h_log h
      ∧ ∀ id, id ∈ live h → (id = joined ∨ id ∉ rest) → id ∈ live h'.
Proof.
  unfold join_objects. rewrite bind_run.
  destruct (select_many_run (joined :: rest) h) as (h1 & Hr & Ho & Hl & Hs).
  rewrite Hr. rewrite bind_run. cbn [set_active modify]. rewrite bind_run.
  match goal with |- context [object_join ?h2] =>
    destruct (object_join_run h2) as (h' & Hj & Hlog & Hlive) end.
  rewrite Hj. exists h'. split; [done|]. split.
  - rewrite Hlog. cbn. done.
  - intros id Hid Hcase. apply Hlive.
    + unfold live in *. cbn. by rewrite Ho.
    + cbn. rewrite Hs. destruct Hcase as [->|Hn]; [by right|].
      destruct (decide (id = joined)) as [->|Hne]; [by right|].
      left. set_solver.
Qed.

Section NodeFacts.
Context `{RT : Runtime}.

Lemma grows_create_mesh_call data : grows (create_mesh_call data).
Proof.
  intros h h' r. unfold create_mesh_call.
  destruct (fill_loops data); by intros [= <- <-].
Qed.

Lemma grows_import_mesh kw nd blm st mesh : grows (import_mesh kw nd blm st mesh).
Proof.
  unfold import_mesh. apply grows_bind; [apply grows_create_mesh_call|].
  intros me. apply grows_bind; [apply grows_objects_new|]. intros ob.
  apply grows_bind.
  { destruct (import_materials kw);
      [apply grows_apply_material | apply grows_ret]. }
  intros b. apply grows_bind; [apply grows_scene_link|]. intros _.
  apply grows_bind; [apply grows_optimize_mesh|]. intros _. apply grows_ret.
Qed.

Lemma import_mesh_returns kw nd blm st mesh h h' st' :
  import_mesh kw nd blm st mesh h = (h', inr st') →
  st' = (st.1 ++ [fresh (live h)], st.2)
  ∧ fresh (live h) ∈ live h'
  ∧ (import_materials kw = true → unkeyed mesh).
Proof.
  intros Hr. pose proof Hr as Hrun. unfold import_mesh in Hr.
  apply bind_inr in Hr as (h0 & me & Hcall & Hr).
  apply create_mesh_call_inr in Hcall as (-> & -> & _).
  apply bind_inr in Hr as (h1 & ob & Hnew & Hr).
  injection Hnew as <- <-.
  apply bind_inr in Hr as (h2 & b & Hmat & Hr).
  apply bind_inr in Hr as (h3 & [] & Hlink & Hr).
  apply bind_inr in Hr as (h4 & [] & Hopt & Hr).
  injection Hr as <- <-.
  assert (Hb : b = false ∧ (import_materials kw = true → unkeyed mesh)).
  { destruct (import_materials kw).
    - apply apply_material_returns in Hmat as [-> ?]. done.
    - injection Hmat as _ <-. done. }
  destruct Hb as [-> Hkey]. split; [done|]. split; [|done].
  assert (grows (m ← (if import_materials kw
                      then apply_material nd blm mesh (fresh (live h))
                      else mret false);
                 scene_link (fresh (live h));;
                 optimize_mesh (Some (fresh (live h))))) as Hg.
  { apply grows_bind.
    { destruct (import_materials kw);
        [apply grows_apply_material | apply grows_ret]. }
    intros _. apply grows_bind; [apply grows_scene_link|]. intros _.
    apply grows_optimize_mesh. }
  match type of Hmat with _ ?h1 = _ =>
    destruct (Hg h1 h4 (inr ())) as [Hsub _] end.
  { unfold live. rewrite bind_run, Hmat, bind_run, Hlink. done. }
  apply Hsub. unfold live. cbn. rewrite dom_insert_L. set_solver.
Qed.

(** A mesh that [create_mesh] takes and that has no material key is
    imported without an exception. *)
Lemma import_mesh_unkeyed kw nd blm st mesh h :
  well_indexed mesh →
  (import_materials kw = true → unkeyed mesh) →
  ∃ h' st', import_mesh kw nd blm st mesh h = (h', inr st').
Proof.
  intros Hwf Hkey. unfold import_mesh.
  rewrite bind_run, create_mesh_call_run by done.
  rewrite bind_run. cbn [objects_new].
  set (ob := fresh (dom (h_objects h))).
  set (h1 := with_objects h _).
  assert (Hlive : ob ∈ live h1).
  { unfold live, h1. cbn. rewrite dom_insert_L. set_solver. }
  rewrite bind_run.
  assert (∃ h2, (if import_materials kw
                 then apply_material nd blm mesh ob else mret false) h1
                = (h2, inr false) ∧ ob ∈ live h2) as (h2 & Hmat & Hlive2).
  { destruct (import_materials kw) eqn:Ek.
    - destruct (apply_material_unkeyed nd blm mesh ob h1 (Hkey eq_refl))
        as (h2 & Hr).
      exists h2. split; [done|].
      by apply (grows_apply_material _ _ _ _ _ _ _ Hr).
    - by exists h1. }
  rewrite Hmat, bind_run. cbn [scene_link modify]. rewrite bind_run.
  cbn [optimize_mesh]. rewrite bind_run.
  match goal with |- context [type_of _ ?h3] =>
    destruct (type_of_live ob h3) as (t & Ht); [done|] end.
  rewrite Ht. case_decide.
  - cbn. eauto.
  - match goal with |- context [select _ _ ?h3] =>
      destruct (select_one_run ob true h3) as (h4 & Hs & _) end.
    rewrite Hs. eauto.
Qed.

Lemma import_meshes_returns kw nd blm ms st h h' st' :
  fold_m (import_mesh kw nd blm) ms st h = (h', inr st') →
  ∃ news, st' = (st.1 ++ news, st.2)
        ∧ length news = length ms
        ∧ live h ⊆ live h'
        ∧ h_log h' = h_log h
        ∧ (∀ id, id ∈ news → id ∈ live h' ∧ id ∉ live h)
        ∧ (import_materials kw = true → Forall unkeyed ms).
Proof.
  revert st h. induction ms as [|mesh ms IH]; intros st h Hr.
  - injection Hr as <- <-. exists []. rewrite app_nil_r.
    split; [by destruct st|]. split; [done|]. split; [done|].
    split; [done|]. split; [by intros id ?%elem_of_nil | by constructor].
  - cbn [fold_m] in Hr. apply bind_inr in Hr as (h1 & st1 & Hm & Hr).
    pose proof (grows_import_mesh _ _ _ _ _ _ _ _ Hm) as [Hsub1 Hlog1].
    apply import_mesh_returns in Hm as (-> & Hfresh & Hkey).
    apply IH in Hr as (news & -> & Hlen & Hsub & Hlog & Hnews & Hkeys).
    exists (fresh (live h) :: news). cbn [fst snd].
    split; [by rewrite <- (assoc_L (++))|].
    split; [cbn; lia|]. split; [set_solver|]. split; [congruence|]. split.
    + intros id [->|Hin]%elem_of_cons.
      * split; [by apply Hsub|]. apply is_fresh.
      * destruct (Hnews id Hin) as [? Hn]. split; [done|]. set_solver.
    + intros Hk. constructor; auto.
Qed.

(** A mesh whose face loop reads outside a list raises before the mesh
    has an object. *)
Lemma import_mesh_ill_indexed kw nd blm st mesh h :
  ¬ well_indexed mesh →
  import_mesh kw nd blm st mesh h = (h, inl (LookupError IndexError)).
Proof.
  intros Hbad. unfold import_mesh.
  by rewrite bind_run, create_mesh_call_raises.
Qed.

Lemma import_mesh_well_indexed kw nd blm st mesh h h' st' :
  import_mesh kw nd blm st mesh h = (h', inr st') → well_indexed mesh.
Proof.
  intros Hr. destruct (decide (well_indexed mesh)) as [|Hbad]; [done|].
  by rewrite import_mesh_ill_indexed in Hr.
Qed.

Lemma import_meshes_unkeyed kw nd blm ms st h :
  Forall well_indexed ms →
  (import_materials kw = true → Forall unkeyed ms) →
  ∃ h' st', fold_m (import_mesh kw nd blm) ms st h = (h', inr st').
Proof.
  revert st h. induction ms as [|mesh ms IH]; intros st h Hwf Hkeys.
  - cbn. eauto.
  - cbn [fold_m]. rewrite bind_run.
    destruct (import_mesh_unkeyed kw nd blm st mesh h) as (h1 & st1 & Hm).
    { by inversion Hwf. }
    { intros Hk. specialize (Hkeys Hk). by inversion Hkeys. }
    rewrite Hm. apply IH; [by inversion Hwf|].
    intros Hk. specialize (Hkeys Hk). by inversion Hkeys.
Qed.

Lemma import_meshes_well_indexed kw nd blm ms st h h' st' :
  fold_m (import_mesh kw nd blm) ms st h = (h', inr st') →
  Forall well_indexed ms.
Proof.
  revert st h. induction ms as [|mesh ms IH]; intros st h Hr; [constructor|].
  cbn [fold_m] in Hr. apply bind_inr in Hr as (h1 & st1 & Hm & Hr).
  constructor; [by eapply import_mesh_well_indexed | by eapply IH].
Qed.

End NodeFacts.

(** ** One node, and the node loop *)

Section ImportNodeFacts.
Context `{RT : Runtime}.

(** Once the mesh loop is through without emissive meshes, the rest of
    [import_node] cannot raise: the node gets the first mesh object, or a
    new empty. *)
Lemma import_node_run kw blm o h h1 news :
  fold_m (import_mesh kw o blm) (meshes o) ([], []) h = (h1, inr (news, [])) →
  (∀ id, id ∈ news → id ∈ live h1) →
  ∃ h' b, import_node kw blm o h = (h', inr (set_bl_object o (Some b)))
        ∧ h_log h' = h_log h1
        ∧ b ∈ live h'
        ∧ (b ∈ news ∨ b ∉ live h1)
        ∧ (∀ id, id ∈ live h1 → id ∉ news → id ∈ live h').
Proof.
  intros Hfold Hnews. unfold import_node. rewrite bind_run, Hfold.
  destruct news as [|b rest].
  - rewrite decide_False by (cbn; lia).
    rewrite !bind_run. cbn [objects_new]. rewrite bind_run.
    cbn [scene_link modify mret M_ret]. rewrite decide_False by (cbn; lia).
    cbn [mret M_ret bl_object set_bl_object with_obj].
    rewrite !bind_run. cbn [alter_object modify].
    eexists _, _. split; [reflexivity|]. split; [done|].
    unfold live. cbn. rewrite !dom_alter_L, dom_insert_L.
    split; [set_solver|]. split; [right; apply is_fresh|]. set_solver.
  - rewrite decide_True by (cbn; lia). rewrite !bind_run.
    destruct (join_objects_run b rest h1) as (h2 & Hj & Hlog & Hlive).
    rewrite Hj. cbn [with_obj]. rewrite !bind_run.
    cbn [alter_object modify mret M_ret]. rewrite decide_False by (cbn; lia).
    cbn [mret M_ret bl_object set_bl_object with_obj].
    rewrite !bind_run. cbn [alter_object modify].
    eexists _, _. split; [reflexivity|]. split; [done|].
    unfold live in *. cbn. rewrite !dom_alter_L.
    split; [|split; [left; left|]].
    + apply Hlive; [|by left]. apply Hnews. left.
    + intros id Hid Hn. apply Hlive; [done|]. right.
      intros Hin. apply Hn. by right.
Qed.

Lemma import_node_returns kw blm o h h' o' :
  import_node kw blm o h = (h', inr o') →
  ∃ b, imported_as o o' b
     ∧ b ∈ live h' ∧ (b ∉ live h)
     ∧ live h ⊆ live h'
     ∧ h_log h' = h_log h
     ∧ (import_materials kw = true → Forall unkeyed (meshes o)).
Proof.
  intros Hr. pose proof Hr as Hrun. unfold import_node in Hr.
  apply bind_inr in Hr as (h1 & [bm em] & Hfold & _).
  pose proof (import_meshes_returns _ _ _ _ _ _ _ _ Hfold)
    as (news & [= -> ->] & _ & Hsub & Hlog & Hnews & Hkeys).
  destruct (import_node_run kw blm o h h1 news Hfold)
    as (h2 & b & Hrun' & Hlog' & Hb & Hbnew & Hkeep).
  { intros id Hid. by apply Hnews. }
  rewrite Hrun in Hrun'. injection Hrun' as <- ->.
  exists b. split; [done|]. split; [done|]. split.
  { destruct Hbnew as [Hin|Hout]; [by apply Hnews|]. set_solver. }
  split; [|split; [congruence|done]].
  intros id Hid. apply Hkeep; [by apply Hsub|].
  intros Hin. by apply Hnews in Hin as [_ ?].
Qed.

(** The ways for [import_node] to raise are a mesh that [create_mesh] does
    not take and a mesh with a material key. *)
Lemma import_node_unkeyed kw blm o h :
  Forall well_indexed (meshes o) →
  (import_materials kw = true → Forall unkeyed (meshes o)) →
  ∃ h' o', import_node kw blm o h = (h', inr o').
Proof.
  intros Hwf Hkeys.
  destruct (import_meshes_unkeyed kw o blm (meshes o) ([], []) h Hwf Hkeys)
    as (h1 & [bm em] & Hfold).
  pose proof (import_meshes_returns _ _ _ _ _ _ _ _ Hfold)
    as (news & [= -> ->] & _ & _ & _ & Hnews & _).
  destruct (import_node_run kw blm o h h1 news Hfold)
    as (h2 & b & Hrun & _).
  { intros id Hid. by apply Hnews. }
  eauto.
Qed.

(** The objects the node loop hands out are pairwise distinct and live. *)
Lemma import_nodes_returns kw blm objs h h' objs' :
  import_nodes kw blm objs h = (h', inr objs') →
  ∃ bs, Forall3 imported_as objs objs' bs
      ∧ NoDup bs
      ∧ (∀ b, b ∈ bs → b ∈ live h' ∧ b ∉ live h)
      ∧ live h ⊆ live h'
      ∧ h_log h' = h_log h
      ∧ (import_materials kw = true →
         Forall (λ o, Forall unkeyed (meshes o)) objs).
Proof.
  revert h objs'. induction objs as [|o objs IH]; intros h objs' Hr.
  - injection Hr as <- <-. exists []. split; [constructor|].
    split; [constructor|]. split; [by intros b ?%elem_of_nil|]. done.
  - cbn [import_nodes] in Hr.
    apply bind_inr in Hr as (h1 & o1 & Hnode & Hr).
    apply bind_inr in Hr as (h2 & rest' & Hrest & Hr).
    injection Hr as <- <-.
    apply import_node_returns in Hnode
      as (b & Has & Hb & Hbnew & Hsub1 & Hlog1 & Hk1).
    apply IH in Hrest as (bs & Hall & Hnd & Hbs & Hsub2 & Hlog2 & Hk2).
    exists (b :: bs). split; [by constructor|]. split.
    { apply NoDup_cons_2; [|done]. intros Hin.
      apply Hbs in Hin as [_ Hn]. done. }
    split.
    { intros b' [->|Hin]%elem_of_cons.
      - split; [by apply Hsub2 | done].
      - apply Hbs in Hin as [? Hn]. split; [done|]. set_solver. }
    split; [set_solver|]. split; [congruence|].
    intros Hk. constructor; auto.
Qed.

Lemma import_nodes_unkeyed kw blm objs h :
  well_indexed_scene objs →
  (import_materials kw = true → Forall (λ o, Forall unkeyed (meshes o)) objs) →
  ∃ h' objs', import_nodes kw blm objs h = (h', inr objs').
Proof.
  revert h. induction objs as [|o objs IH]; intros h Hwf Hkeys.
  - cbn. eauto.
  - cbn [import_nodes]. rewrite bind_run.
    destruct (import_node_unkeyed kw blm o h) as (h1 & o1 & Hnode).
    { by inversion Hwf. }
    { intros Hk. specialize (Hkeys Hk). by inversion Hkeys. }
    rewrite Hnode, bind_run.
    destruct (IH h1) as (h2 & rest' & Hrest).
    { by inversion Hwf. }
    { intros Hk. specialize (Hkeys Hk). by inversion Hkeys. }
    rewrite Hrest. cbn. eauto.
Qed.

Lemma import_node_well_indexed kw blm o h h' o' :
  import_node kw blm o h = (h', inr o') → Forall well_indexed (meshes o).
Proof.
  intros Hr. unfold import_node in Hr.
  apply bind_inr in Hr as (h1 & [bm em] & Hfold & _).
  by eapply import_meshes_well_indexed.
Qed.

Lemma import_nodes_well_indexed kw blm objs h h' objs' :
  import_nodes kw blm objs h = (h', inr objs') → well_indexed_scene objs.
Proof.
  revert h h' objs'. induction objs as [|o objs IH]; intros h h' objs' Hr;
    [constructor|].
  cbn [import_nodes] in Hr.
  apply bind_inr in Hr as (h1 & o1 & Hnode & Hr).
  apply bind_inr in Hr as (h2 & rest' & Hrest & _).
  constructor; [by eapply import_node_well_indexed | eapply IH, Hrest].
Qed.

End ImportNodeFacts.

(** ** The material stage *)

Lemma raises_fails {A} (m : M A) e : raises m e → fails m.
Proof. intros Hm h. destruct (Hm h) as (h' & Hr). eauto. Qed.

Lemma raises_bind_l {A B} (m : M A) (f : A → M B) e :
  raises m e → raises (m ≫= f) e.
Proof.
  intros Hm h. destruct (Hm h) as (h' & Hr). exists h'.
  by rewrite bind_run, Hr.
Qed.

Lemma raises_bind_r {A B} (m : M A) (f : A → M B) e :
  returns m → (∀ a, raises (f a) e) → raises (m ≫= f) e.
Proof.
  intros Hm Hf h. destruct (Hm h) as (h1 & a & Hr).
  rewrite bind_run, Hr. apply Hf.
Qed.

Section MaterialStageFacts.
Context `{RT : Runtime}.

Lemma table_insert_from_scene import_metadata raws tbl h r :
  PyDict.get (fold_left (table_insert import_metadata) raws tbl) h = Some r →
  PyDict.get tbl h = Some r
  ∨ ∃ raw, raw ∈ raws ∧ r = (get_al_material_hash import_metadata raw).2.
Proof.
  rewrite table_insert_get. destruct (PyDict.get tbl h); [by left|].
  unfold first_with_hash.
  destruct (List.find _ raws) as [raw|] eqn:E; [|done].
  intros [= <-]. right. exists raw. split; [|done].
  apply find_some in E as [Hin _]. by apply list_elem_of_In.
Qed.

Lemma materials_loop_grows import_metadata tbl ks blm :
  grows (fold_m (λ (bl_materials : dict string Material) key,
                   match PyDict.get tbl key with
                   | Some al_mat =>
                       mat ← Material_init (str key) al_mat import_metadata;
                       mret (PyDict.set bl_materials (str key) mat)
                   | None => mret bl_materials
                   end) ks blm).
Proof.
  revert blm. induction ks as [|k ks IH]; intros blm; cbn [fold_m].
  - apply grows_ret.
  - apply grows_bind; [|intros ?; apply IH].
    destruct (PyDict.get tbl k); [|apply grows_ret].
    apply grows_bind; [|intros ?; apply grows_ret].
    unfold Material_init. apply grows_bind; [apply grows_materials_new|].
    intros ?. destruct (host_accepts _); [apply grows_ret | apply grows_raise].
Qed.

Lemma grows_import_data3d_materials objs import_metadata :
  grows (import_data3d_materials objs import_metadata).
Proof.
  unfold import_data3d_materials.
  destruct (deduplicate import_metadata objs) as [objs1 tbl].
  apply grows_bind; [apply materials_loop_grows|]. intros ?. apply grows_ret.
Qed.

(** Whatever the stage returns, the nodes are those of [deduplicate]. *)
Lemma import_data3d_materials_nodes objs import_metadata h h' objs1 blm :
  import_data3d_materials objs import_metadata h = (h', inr (objs1, blm)) →
  objs1 = (deduplicate import_metadata objs).1.
Proof.
  unfold import_data3d_materials.
  destruct (deduplicate import_metadata objs) as [objs2 tbl].
  intros (h1 & blm1 & _ & [= <- <- <-])%bind_inr. done.
Qed.

Lemma materials_loop_returns import_metadata tbl ks blm :
  (∀ k al_mat, k ∈ ks → PyDict.get tbl k = Some al_mat →
               host_accepts al_mat = true) →
  returns (fold_m (λ (bl_materials : dict string Material) key,
                     match PyDict.get tbl key with
                     | Some al_mat =>
                         mat ← Material_init (str key) al_mat import_metadata;
                         mret (PyDict.set bl_materials (str key) mat)
                     | None => mret bl_materials
                     end) ks blm).
Proof.
  revert blm. induction ks as [|k ks IH]; intros blm Hok h; cbn [fold_m].
  - cbn. eauto.
  - rewrite bind_run.
    destruct (PyDict.get tbl k) as [al_mat|] eqn:E.
    + rewrite bind_run. unfold Material_init at 1. rewrite bind_run.
      cbn [materials_new]. rewrite (Hok k al_mat) by (done || left).
      cbn [mret M_ret]. apply IH. intros k' m' Hin. apply Hok. by right.
    + cbn [mret M_ret]. apply IH. intros k' m' Hin. apply Hok. by right.
Qed.

(** The stage returns when the host accepts the scene's materials. *)
Lemma import_data3d_materials_returns objs import_metadata :
  host_accepts_scene import_metadata objs →
  returns (import_data3d_materials objs import_metadata).
Proof.
  intros Hok h. unfold import_data3d_materials.
  pose proof (hash_objects_table import_metadata objs []) as Htbl.
  unfold deduplicate.
  destruct (hash_objects import_metadata objs []) as [objs1 tbl].
  cbn [snd] in Htbl. rewrite bind_run.
  destruct (materials_loop_returns import_metadata tbl (PyDict.keys tbl) [])
    with (h := h) as (h1 & blm & Hr).
  { intros k al_mat _ Hget. rewrite Htbl in Hget.
    apply table_insert_from_scene in Hget as [?|(raw & Hin & ->)]; [done|].
    unfold host_accepts_scene in Hok.
    by apply (proj1 (list.Forall_forall _ _) Hok). }
  rewrite Hr. cbn. eauto.
Qed.

(** After deduplication a node's hash map has exactly the node's own
    material keys. *)
Lemma deduplicate_node import_metadata objs pre o post :
  objs = pre ++ o :: post →
  ∃ pre1 o1 post1,
    (deduplicate import_metadata objs).1 = pre1 ++ o1 :: post1
    ∧ Forall2 (λ a b, meshes b = meshes a) pre pre1
    ∧ meshes o1 = meshes o
    ∧ ∀ k, k ∉ PyDict.keys (materials o) →
           PyDict.get (mat_hash_map o1) k = None.
Proof.
  intros ->.
  pose proof (hash_objects_nodes import_metadata (pre ++ o :: post) []) as Hall.
  unfold deduplicate.
  apply Forall2_app_inv_l in Hall as (pre1 & rest & Hpre & Hrest & ->).
  apply Forall2_cons_inv_l in Hrest as (o1 & post1 & [Ho Hmap] & Hpost & ->).
  exists pre1, o1, post1. split; [done|]. split.
  - eapply list.Forall2_impl; [exact Hpre|]. intros a b [-> _]. done.
  - split; [by rewrite Ho|]. intros k Hk. rewrite Hmap.
    apply dict_get_None_keys in Hk. by rewrite Hk.
Qed.

End MaterialStageFacts.

(** ** A dangling material key *)

Section DanglingKey.
Context `{RT : Runtime}.

Lemma returns_objects_new name data : returns (objects_new name data).
Proof. intros h. cbn. eauto. Qed.

Lemma import_mesh_dangling_raises kw nd blm st mesh key :
  import_materials kw = true →
  m_material mesh = Some key → key ≠ "" →
  PyDict.get (mat_hash_map nd) key = None →
  raises (import_mesh kw nd blm st mesh)
    (if decide (well_indexed mesh)
     then Exception "Material not found: " else LookupError IndexError).
Proof.
  intros Hk Hm Hne Hg. case_decide as Hwf.
  - unfold import_mesh. apply raises_bind_r.
    { intros h. rewrite create_mesh_call_run by done. eauto. }
    intros me. apply raises_bind_r; [apply returns_objects_new|]. intros ob.
    apply raises_bind_l. rewrite Hk. intros h. exists h.
    by apply apply_material_unknown_key with (key := key).
  - intros h. exists h. by apply import_mesh_ill_indexed.
Qed.

Lemma import_meshes_raises kw nd blm mpre mesh mpost e :
  Forall well_indexed mpre →
  (import_materials kw = true → Forall unkeyed mpre) →
  (∀ st, raises (import_mesh kw nd blm st mesh) e) →
  ∀ st, raises (fold_m (import_mesh kw nd blm) (mpre ++ mesh :: mpost) st) e.
Proof.
  intros Hwf Hpre Hmesh st h. rewrite fold_m_app.
  destruct (import_meshes_unkeyed kw nd blm mpre st h Hwf Hpre)
    as (h1 & st1 & Hr).
  rewrite Hr. cbn [fold_m]. by apply raises_bind_l.
Qed.

Lemma import_nodes_fails kw blm pre o post :
  fails (import_node kw blm o) →
  fails (import_nodes kw blm (pre ++ o :: post)).
Proof.
  intros Ho. induction pre as [|p pre IH]; cbn [app import_nodes].
  - by apply bind_fails_l.
  - apply bind_fails_r. intros o'. by apply bind_fails_l.
Qed.

Lemma import_nodes_raises kw blm pre o post e :
  well_indexed_scene pre →
  (import_materials kw = true →
   Forall (λ o, Forall unkeyed (meshes o)) pre) →
  raises (import_node kw blm o) e →
  raises (import_nodes kw blm (pre ++ o :: post)) e.
Proof.
  intros Hwf Hpre Ho. induction pre as [|p pre IH]; cbn [app import_nodes].
  - by apply raises_bind_l.
  - apply raises_bind_r.
    + intros h. apply import_node_unkeyed; [by inversion Hwf|]. intros Hk.
      specialize (Hpre Hk). by inversion Hpre.
    + intros o'. apply raises_bind_l, IH; [by inversion Hwf|]. intros Hk.
      specialize (Hpre Hk). by inversion Hpre.
Qed.

Lemma import_scene_body_dangling objs kw pre o post mpre mesh mpost h :
  import_materials kw = true →
  objs = pre ++ o :: post →
  meshes o = mpre ++ mesh :: mpost →
  dangling o mesh →
  ∃ h' e,
    import_scene_body objs kw h = (h', inl e)
    ∧ (host_accepts_scene (import_al_metadata kw) objs →
       Forall (λ o, Forall unkeyed (meshes o)) pre →
       Forall unkeyed mpre →
       well_indexed_scene pre →
       Forall well_indexed mpre →
       e = if decide (well_indexed mesh)
           then Exception "Material not found: "
           else LookupError IndexError).
Proof.
  intros Hk Hobjs Hmeshes (key & Hm & Hne & Hnin).
  unfold import_scene_body. rewrite bind_run, Hk.
  destruct (import_data3d_materials objs (import_al_metadata kw) h)
    as [h0 [e0|[objs1 blm]]] eqn:Hstage.
  { exists h0, e0. split; [done|]. intros Hok _ _ _ _.
    destruct (import_data3d_materials_returns _ _ Hok h) as (? & ? & Hr).
    congruence. }
  apply import_data3d_materials_nodes in Hstage as ->.
  destruct (deduplicate_node (import_al_metadata kw) objs pre o post Hobjs)
    as (pre1 & o1 & post1 & -> & Hpre1 & Hmeshes1 & Hmap).
  rewrite Hmeshes in Hmeshes1.
  set (expected := if decide (well_indexed mesh)
                   then Exception "Material not found: "
                   else LookupError IndexError).
  assert (Hmesh : ∀ st, raises (import_mesh kw o1 blm st mesh) expected).
  { intros st. apply import_mesh_dangling_raises with (key := key); auto. }
  assert (Hfail : fails (import_node kw blm o1)).
  { unfold import_node. apply bind_fails_l. rewrite Hmeshes1.
    apply fold_m_fails. intros st. eapply raises_fails, Hmesh. }
  destruct (import_nodes_fails kw blm pre1 o1 post1 Hfail h0) as (h1 & e & Hr).
  rewrite bind_run, Hr. exists h1, e. split; [done|].
  intros _ Hpre Hmpre Hwpre Hwmpre.
  destruct (import_nodes_raises kw blm pre1 o1 post1 expected)
    with (h := h0) as (h2 & Hr2).
  - clear -Hwpre Hpre1. unfold well_indexed_scene in *.
    induction Hpre1 as [|a b pre pre1 Hab _ IH]; [constructor|].
    inversion Hwpre; subst. constructor; [by rewrite Hab | by apply IH].
  - intros _. clear -Hpre Hpre1.
    induction Hpre1 as [|a b pre pre1 Hab _ IH]; [constructor|].
    inversion Hpre; subst. constructor; [by rewrite Hab | by apply IH].
  - unfold import_node. apply raises_bind_l. rewrite Hmeshes1.
    by apply import_meshes_raises.
  - congruence.
Qed.

End DanglingKey.

(** C7 (as stated): a node whose only mesh carries a material key that is
    not among the node's materials, and whose face reads the normal at
    index 1 of a one-element list. The host accepts every material and
    nothing is imported before this mesh, yet the import does not fail with
    the material-resolution exception: [create_mesh] raises [IndexError]
    before the material block is reached, and that is what the import's
    exception wraps. *)
Lemma dangling_key_fails_with_index_error :
  let mesh := stray_mesh "m0" (Some "nope") in
  let o := sample_node "n" None [] [mesh]
             [("glow", [("lightEmissionCoef", num 2)])] in
  dangling o mesh
  ∧ (@import_scene sample_runtime [o] (sample_kwargs true true)
       empty_host).2 =
    inl (ImportSceneFailed (LookupError IndexError)).
Proof.
  intros mesh o. split.
  - exists "nope". split; [reflexivity|]. split; [done|].
    cbn. by intros ?%list_elem_of_singleton.
  - vm_compute. reflexivity.
Qed.

(** C7 (amended): with materials imported, a mesh whose non-empty material
    key is not among its node's materials makes the import fail:
    [import_scene] raises its one exception, 'Import Scene failed', and
    returns nothing. The code has no exception class of its own for this;
    what the raised exception wraps is the generic exception 'Material not
    found' when the import gets as far as the material block of this mesh,
    that is, when the host has accepted the materials, no mesh imported
    earlier carries a material key, and the face loops of the earlier
    meshes and of this one read inside their lists. When only the face
    loop of this mesh reads outside a list, it wraps the [IndexError]. *)
Theorem dangling_material_key_fails `{RT : Runtime} objs kw
    pre o post mpre mesh mpost h :
  import_materials kw = true →
  objs = pre ++ o :: post →
  meshes o = mpre ++ mesh :: mpost →
  dangling o mesh →
  ∃ h' e,
    import_scene objs kw h = (h', inl (ImportSceneFailed e))
    ∧ (host_accepts_scene (import_al_metadata kw) objs →
       Forall (λ o, Forall unkeyed (meshes o)) pre →
       Forall unkeyed mpre →
       well_indexed_scene pre →
       Forall well_indexed mpre →
       (well_indexed mesh → e = Exception "Material not found: ")
       ∧ (¬ well_indexed mesh → e = LookupError IndexError)).
Proof.
  intros Hk Hobjs Hmeshes Hd.
  destruct (import_scene_body_dangling objs kw pre o post mpre mesh mpost h
              Hk Hobjs Hmeshes Hd) as (h' & e & Hbody & Hexn).
  exists h', e. split.
  - unfold import_scene, try_except. by rewrite Hbody.
  - intros Hok Hpre Hmpre Hwpre Hwmpre.
    rewrite (Hexn Hok Hpre Hmpre Hwpre Hwmpre).
    split; intros Hwf; [by rewrite decide_True | by rewrite decide_False].
Qed.

Lemma dangling_material_key_fails_witness :
  let mesh := sample_mesh "m0" (Some "nope") in
  let o := sample_node "n" None [] [sample_mesh "floor" None; mesh]
             [("glow", [("lightEmissionCoef", num 2)])] in
  ∃ h',
    @import_scene sample_runtime [o] (sample_kwargs true true) empty_host =
    (h', inl (ImportSceneFailed (Exception "Material not found: "))).
Proof.
  intros mesh o.
  destruct (@dangling_material_key_fails sample_runtime [o]
              (sample_kwargs true true) [] o [] [sample_mesh "floor" None]
              mesh [] empty_host)
    as (h' & e & Hrun & Hexn).
  - reflexivity.
  - reflexivity.
  - reflexivity.
  - exists "nope". split; [reflexivity|]. split; [done|].
    cbn. by intros ?%list_elem_of_singleton.
  - exists h'. rewrite Hrun.
    assert (e = Exception "Material not found: ") as ->; [|reflexivity].
    apply Hexn.
    + repeat constructor.
    + constructor.
    + constructor; [by left | constructor].
    + constructor.
    + constructor; [|constructor].
      apply (bool_decide_unpack _). vm_compute. exact I.
    + apply (bool_decide_unpack _). vm_compute. exact I.
Defined.

(** ** Parent links, normalisation and the global matrix *)

Lemma link_parent_run `{RT : Runtime} (all : list Data3dObject)
    (roots : list (option nat)) (o : Data3dObject) b h :
  bl_object o = Some b →
  ∃ h', link_parent all roots o h
          = (h', inr (roots ++ (Some <$> root_handles_of o)))
      ∧ h_log h' = h_log h ++ parent_events all o
      ∧ live h' = live h.
Proof.
  intros Hb. unfold link_parent, root_handles_of, parent_events.
  rewrite Hb. destruct (parent o) as [p|].
  - rewrite !bind_run. cbn [set_parent with_obj].
    rewrite !bind_run. cbn [alter_object modify].
    destruct (bl_emission_object o) as [e|].
    + cbn [set_parent with_obj]. rewrite !bind_run.
      cbn [alter_object modify mret M_ret].
      eexists. split; [by rewrite app_nil_r|].
      unfold live. cbn. rewrite !dom_alter_L, <- !(assoc_L (++)). done.
    + cbn [mret M_ret]. eexists. split; [by rewrite app_nil_r|].
      unfold live. cbn. rewrite !dom_alter_L. done.
  - cbn [mret M_ret]. exists h. split.
    + do 2 f_equal. cbn [option_list]. rewrite fmap_app. f_equal.
      by destruct (bl_emission_object o).
    + by rewrite app_nil_r.
Qed.

Lemma link_parents_run `{RT : Runtime} (all objs : list Data3dObject)
    (roots : list (option nat)) h :
  Forall (λ o, is_Some (bl_object o)) objs →
  ∃ h', fold_m (link_parent all) objs roots h
          = (h', inr (roots ++ (Some <$> root_handles objs)))
      ∧ h_log h' = h_log h ++ (objs ≫= parent_events all)
      ∧ live h' = live h.
Proof.
  intros Hobjs. revert roots h.
  induction Hobjs as [|o objs [b Hb] _ IH]; intros roots h.
  - exists h. cbn. by rewrite !app_nil_r.
  - cbn [fold_m]. rewrite bind_run.
    destruct (link_parent_run all roots o b h Hb) as (h1 & Hr1 & Hlog1 & Hlive1).
    rewrite Hr1.
    destruct (IH (roots ++ (Some <$> root_handles_of o)) h1)
      as (h' & Hr & Hlog & Hlive).
    exists h'. rewrite Hr. split.
    + unfold root_handles. cbn [mbind list_bind].
      by rewrite fmap_app, (assoc_L (++)).
    + rewrite Hlog, Hlog1, Hlive, Hlive1. cbn [mbind list_bind].
      by rewrite (assoc_L (++)).
Qed.

(** The working group of [normalise_objects] stays empty on a list of real
    objects: for an object, [obj is None] is false and the test is over. *)
Lemma normalise_keep_real `{RT : Runtime} (id : nat) h :
  normalise_keep (Some id) h = (h, inr false).
Proof. reflexivity. Qed.

Lemma normalise_group_real `{RT : Runtime} (ids : list nat) h :
  normalise_group (Many (Some <$> ids)) h = (h, inr []).
Proof.
  cbn [normalise_group].
  assert (∀ group : list (option nat),
    fold_m (λ (group : list (option nat)) obj,
              keep ← normalise_keep obj;
              mret (if keep : bool then group ++ [obj] else group))
           (Some <$> ids) group h = (h, inr group)) as Hgen; [|apply Hgen].
  induction ids as [|id ids IH]; intros group; [done|].
  cbn [fmap list_fmap fold_m]. rewrite !bind_run, normalise_keep_real.
  cbn [mret M_ret]. apply IH.
Qed.

Lemma normalise_objects_run `{RT : Runtime} (ids : list nat) location h :
  ∃ h', normalise_objects (Many (Some <$> ids)) location h = (h', inr ())
      ∧ h_objects h' = h_objects h
      ∧ h_log h' = h_log h ++ [EvTransformApply [] location].
Proof.
  unfold normalise_objects. rewrite bind_run, normalise_group_real.
  rewrite bind_run. unfold select. rewrite bind_run.
  cbn [select_all_deselect modify for_each mret M_ret].
  unfold transform_apply, modify. cbn [h_selected with_selected].
  rewrite elements_empty. cbn [foldr].
  eexists. split; [reflexivity|]. done.
Qed.

Lemma set_matrices_run `{RT : Runtime} (ids : list nat) (gm : matrix) h :
  ∃ h', for_each (Some <$> ids) (λ obj, set_matrix_world obj gm) h
          = (h', inr ())
      ∧ live h' = live h
      ∧ h_log h' = h_log h ++ ((λ id, EvSetMatrixWorld id gm) <$> ids)
      ∧ (∀ id ob, (id ∈ ids ∨
                   ∃ ob0, h_objects h !! id = Some ob0
                          ∧ ob_matrix_world ob0 = Some gm) →
                  h_objects h' !! id = Some ob →
                  ob_matrix_world ob = Some gm).
Proof.
  revert h. induction ids as [|i ids IH]; intros h.
  - exists h. cbn. rewrite app_nil_r. repeat split.
    intros id ob [?%elem_of_nil|(ob0 & H0 & Hm)] Hob; [done|]. congruence.
  - cbn [fmap list_fmap for_each]. rewrite bind_run.
    cbn [set_matrix_world with_obj]. rewrite bind_run.
    cbn [alter_object modify].
    match goal with |- context [for_each _ _ ?h1] =>
      destruct (IH h1) as (h' & Hr & Hlive & Hlog & Hm) end.
    exists h'. rewrite Hr. split; [done|]. split.
    { rewrite Hlive. unfold live. cbn. by rewrite dom_alter_L. }
    split.
    { rewrite Hlog. cbn. by rewrite <- (assoc_L (++)). }
    intros id ob Hcase Hob. apply (Hm id ob); [|done]. cbn.
    destruct (decide (id = i)) as [->|Hne].
    + destruct (h_objects h !! i) as [ob0|] eqn:E0.
      * right. exists (put_matrix_world gm ob0).
        by rewrite lookup_alter_eq, E0.
      * (* a stale handle stays absent *)
        exfalso. assert (i ∈ live h') as Hi by (by apply elem_of_dom).
        rewrite Hlive in Hi. unfold live in Hi. cbn in Hi.
        rewrite dom_alter_L in Hi. apply elem_of_dom in Hi as [? Hi].
        congruence.
    + destruct Hcase as [Hin|(ob0 & H0 & Hm0)].
      * left. apply elem_of_cons in Hin as [?|?]; [done|done].
      * right. exists ob0. by rewrite lookup_alter_ne.
Qed.

(** ** The clean-up after the global matrix *)

Lemma keeps_matrices_refl h : keeps_matrices h h.
Proof. intros id ob Hob. by exists ob. Qed.

Lemma keeps_matrices_trans h1 h2 h3 :
  keeps_matrices h1 h2 → keeps_matrices h2 h3 → keeps_matrices h1 h3.
Proof.
  intros H12 H23 id ob3 Hob3.
  destruct (H23 id ob3 Hob3) as (ob2 & Hob2 & Hm2).
  destruct (H12 id ob2 Hob2) as (ob1 & Hob1 & Hm1).
  exists ob1. split; [done | congruence].
Qed.

Lemma finishing_same {A} (m : M A) :
  (∀ h h' r, m h = (h', r) →
     h_objects h' = h_objects h ∧ h_log h' = h_log h) →
  finishing m.
Proof.
  intros Hm h h' r Hr. destruct (Hm h h' r Hr) as [Ho Hl].
  exists []. rewrite app_nil_r. split; [done|]. split; [constructor|].
  split.
  - intros id ob Hob. exists ob. by rewrite <- Ho.
  - intros id Hid. left. unfold live in *. by rewrite Ho.
Qed.

Lemma finishing_ret {A} (a : A) : finishing (mret a).
Proof. apply finishing_same. by intros h h' r [= <- <-]. Qed.

Lemma finishing_raise {A} (e : exn) : finishing (@raise A e).
Proof. apply finishing_same. by intros h h' r [= <- <-]. Qed.

Lemma finishing_bind {A B} (m : M A) (f : A → M B) :
  finishing m → (∀ a, finishing (f a)) → finishing (m ≫= f).
Proof.
  intros Hm Hf h h' r. rewrite bind_run.
  destruct (m h) as [h1 [e|a]] eqn:E;
    destruct (Hm _ _ _ E) as (t1 & Hlog1 & Hev1 & Hk1 & Hl1).
  - intros [= <- <-]. by exists t1.
  - intros Hr. destruct (Hf a _ _ _ Hr) as (t2 & Hlog2 & Hev2 & Hk2 & Hl2).
    exists (t1 ++ t2). split; [by rewrite Hlog2, Hlog1, (assoc_L (++))|].
    split; [by apply Forall_app|].
    split; [by eapply keeps_matrices_trans|].
    intros id Hid. destruct (Hl1 id Hid) as [Hid1|Hrm].
    + destruct (Hl2 id Hid1) as [?|Hrm]; [by left|].
      right. apply elem_of_app. by right.
    + right. apply elem_of_app. by left.
Qed.

Lemma finishing_for_each {A} (l : list A) (body : A → M unit) :
  (∀ x, finishing (body x)) → finishing (for_each l body).
Proof.
  intros Hb. induction l as [|x l IH]; cbn [for_each].
  - apply finishing_ret.
  - apply finishing_bind; [apply Hb | intros _; apply IH].
Qed.

Lemma finishing_with_obj {A} (o : option nat) (k : nat → M A) :
  (∀ id, finishing (k id)) → finishing (with_obj o k).
Proof. intros Hk. destruct o; [apply Hk | apply finishing_raise]. Qed.

Lemma finishing_type_of o : finishing (type_of o).
Proof.
  apply finishing_with_obj. intros id. apply finishing_same.
  intros h h' r. destruct (h_objects h !! id); by intros [= <- <-].
Qed.

Lemma finishing_scene_unlink id : finishing (scene_unlink id).
Proof. apply finishing_same. by intros h h' r [= <- <-]. Qed.

Lemma finishing_objects_remove id : finishing (objects_remove id).
Proof.
  intros h h' r [= <- <-]. exists [EvRemove id]. split; [done|].
  split; [by repeat constructor|]. split.
  - intros i ob Hob. cbn in Hob. exists ob. split; [|done].
    by apply lookup_delete_Some in Hob as [_ ?].
  - intros i Hi. destruct (decide (i = id)) as [->|Hne].
    + right. by left.
    + left. unfold live in *. cbn. rewrite dom_delete_L. set_solver.
Qed.

Lemma finishing_select objects discard : finishing (select objects discard).
Proof.
  unfold select. apply finishing_bind.
  - destruct discard; [|apply finishing_ret].
    apply finishing_same. by intros h h' r [= <- <-].
  - intros _. apply finishing_for_each. intros obj.
    apply finishing_with_obj. intros id. apply finishing_bind.
    + apply finishing_same. by intros h h' r [= <- <-].
    + intros _. apply finishing_same. by intros h h' r [= <- <-].
Qed.

Lemma alter_all_lookup (f : bl_obj → bl_obj) (m : gmap nat bl_obj)
    (l : list nat) id ob' :
  (∀ o, ob_matrix_world (f o) = ob_matrix_world o) →
  foldr (alter f) m l !! id = Some ob' →
  ∃ ob, m !! id = Some ob ∧ ob_matrix_world ob' = ob_matrix_world ob.
Proof.
  intros Hf. revert ob'. induction l as [|i l IH]; intros ob' Hob.
  - by exists ob'.
  - cbn [foldr] in Hob. destruct (decide (i = id)) as [->|Hne].
    + rewrite lookup_alter_eq in Hob.
      destruct (foldr (alter f) m l !! id) as [ob1|] eqn:E; [|done].
      injection Hob as <-. destruct (IH ob1 eq_refl) as (ob & ? & Hm).
      exists ob. split; [done|]. by rewrite Hf.
    + rewrite lookup_alter_ne in Hob by done. by apply IH.
Qed.

Lemma alter_all_dom (f : bl_obj → bl_obj) (m : gmap nat bl_obj) (l : list nat) :
  dom (foldr (alter f) m l) = dom m.
Proof.
  induction l as [|i l IH]; [done|]. cbn [foldr]. by rewrite dom_alter_L.
Qed.

Lemma finishing_parent_clear : finishing parent_clear.
Proof.
  intros h h' r [= <- <-]. eexists [_]. split; [reflexivity|].
  split; [by repeat constructor|]. split.
  - intros id ob' Hob. cbn in Hob. by apply alter_all_lookup in Hob.
  - intros id Hid. left. unfold live in *. cbn. by rewrite alter_all_dom.
Qed.

Lemma finishing_normalise_objects `{RT : Runtime} (ids : list nat) location :
  finishing (normalise_objects (Many (Some <$> ids)) location).
Proof.
  intros h h' r Hr.
  destruct (normalise_objects_run ids location h) as (h1 & Hr1 & Ho & Hl).
  rewrite Hr in Hr1. injection Hr1 as <- ->.
  eexists [_]. split; [exact Hl|]. split; [by repeat constructor|]. split.
  - intros id ob Hob. exists ob. by rewrite <- Ho.
  - intros id Hid. left. unfold live in *. by rewrite Ho.
Qed.

Lemma finishing_unlink_and_remove `{RT : Runtime} bl :
  finishing (unlink_and_remove bl).
Proof.
  apply finishing_with_obj. intros id.
  apply finishing_bind; [apply finishing_scene_unlink|].
  intros _. apply finishing_objects_remove.
Qed.

Lemma finishing_finish_hierarchy `{RT : Runtime} kw objs (bs : list nat) :
  bl_object <$> objs = Some <$> bs →
  finishing (finish_hierarchy kw objs).
Proof.
  intros Hbs. unfold finish_hierarchy. destruct (import_hierarchy kw).
  - apply finishing_for_each. intros o.
    apply finishing_bind; [apply finishing_type_of|]. intros t.
    destruct (_ && _); [apply finishing_unlink_and_remove | apply finishing_ret].
  - rewrite Hbs. apply finishing_bind.
    { apply finishing_for_each. intros bl.
      apply finishing_bind; [apply finishing_select|].
      intros _. apply finishing_parent_clear. }
    intros _. apply finishing_bind; [apply finishing_normalise_objects|].
    intros _. apply finishing_for_each. intros bl.
    apply finishing_bind; [apply finishing_type_of|]. intros t.
    destruct (bool_decide _);
      [apply finishing_unlink_and_remove | apply finishing_ret].
Qed.

(** ** The whole import *)

Section ImportSceneFacts.
Context `{RT : Runtime}.

(** The nodes that reach the node loop are the given ones, up to the hash
    map. *)
Lemma material_stage_nodes objs kw h h0 objs1 blm :
  (if import_materials kw
   then import_data3d_materials objs (import_al_metadata kw)
   else mret (objs, [])) h = (h0, inr (objs1, blm)) →
  Forall2 (λ o o1, ∃ mhm, o1 = set_mat_hash_map o mhm) objs objs1
  ∧ h_log h0 = h_log h.
Proof.
  destruct (import_materials kw).
  - intros Hr.
    pose proof (grows_import_data3d_materials _ _ _ _ _ Hr) as [_ Hlog].
    apply import_data3d_materials_nodes in Hr as ->. split; [|done].
    eapply list.Forall2_impl; [apply hash_objects_nodes|].
    intros o o1 [Ho _]. eauto.
  - intros [= <- <- <-]. split; [|done].
    apply Forall2_same_length_lookup. split; [done|].
    intros i o o1 Ho Ho1. exists (mat_hash_map o).
    assert (o1 = o) as -> by congruence. by destruct o.
Qed.

Lemma imported_nodes (objs objs1 objs' : list Data3dObject) (bs : list nat) :
  Forall2 (λ o o1, ∃ mhm, o1 = set_mat_hash_map o mhm) objs objs1 →
  Forall3 imported_as objs1 objs' bs →
  Forall3 imported objs objs' bs.
Proof.
  intros H1. revert objs' bs.
  induction H1 as [|o o1 objs objs1 [mhm ->] _ IH]; intros objs' bs H2.
  - inversion H2. constructor.
  - inversion H2 as [|? o' b ? rest' bs' Has Hrest]; subst.
    constructor; [|by apply IH]. by exists mhm.
Qed.

Lemma imported_bl_objects (objs objs' : list Data3dObject) (bs : list nat) :
  Forall3 imported objs objs' bs → bl_object <$> objs' = Some <$> bs.
Proof.
  induction 1 as [|o o' b objs objs' bs [mhm ->] _ IH]; [done|].
  cbn. by rewrite IH.
Qed.

Lemma imported_root_handles (objs objs' : list Data3dObject) (bs : list nat) :
  fresh_nodes objs → Forall3 imported objs objs' bs →
  root_handles objs' ⊆ bs ∧ (NoDup bs → NoDup (root_handles objs')).
Proof.
  intros Hfresh Hall. revert Hfresh.
  induction Hall as [|o o' b objs objs' bs [mhm ->] _ IH]; intros Hfresh.
  - split; [done | by intros _; constructor].
  - inversion Hfresh as [|? ? He Hrest]; subst.
    destruct (IH Hrest) as [Hsub Hnd].
    unfold root_handles in *. cbn [mbind list_bind].
    unfold root_handles_of at 1 3. cbn. rewrite He.
    destruct (parent o); cbn.
    + split; [set_solver|]. intros [_ ?]%list.NoDup_cons. auto.
    + split; [set_solver|]. intros [Hb ?]%list.NoDup_cons.
      apply NoDup_cons_2; [|auto]. intros Hin. apply Hb. by apply Hsub.
Qed.

Lemma import_scene_body_inv objs kw h h' objs' keys :
  import_scene_body objs kw h = (h', inr (objs', keys)) →
  ∃ bs t_finish,
    Forall3 imported objs objs' bs
    ∧ NoDup bs
    ∧ h_log h' =
        h_log h
        ++ (objs' ≫= parent_events objs')
        ++ [EvTransformApply [] true]
        ++ ((λ id, EvSetMatrixWorld id (global_matrix kw))
              <$> root_handles objs')
        ++ t_finish
    ∧ Forall finish_event t_finish
    ∧ ∀ r, r ∈ root_handles objs' → r ∈ bs →
        (∃ ob, h_objects h' !! r = Some ob
               ∧ ob_matrix_world ob = Some (global_matrix kw))
        ∨ ((r ∉ live h') ∧ EvRemove r ∈ t_finish).
Proof.
  unfold import_scene_body. intros Hr.
  apply bind_inr in Hr as (h0 & [objs1 blm] & Hstage & Hr).
  apply material_stage_nodes in Hstage as [Hnodes Hlog0].
  apply bind_inr in Hr as (h1 & objs2 & Himport & Hr).
  apply import_nodes_returns in Himport
    as (bs & Hall & Hnd & Hbs & _ & Hlog1 & _).
  pose proof (imported_nodes _ _ _ _ Hnodes Hall) as Himp.
  pose proof (imported_bl_objects _ _ _ Himp) as Hbl.
  assert (Hsome : Forall (λ o, is_Some (bl_object o)) objs2).
  { clear -Himp. induction Himp as [|o o' b ? ? ? [mhm ->] _ IH];
      constructor; [by eexists | done]. }
  rewrite bind_run in Hr.
  destruct (link_parents_run objs2 objs2 [] h1 Hsome)
    as (h2 & Hlink & Hlog2 & Hlive2).
  rewrite Hlink in Hr. cbn [app] in Hr. rewrite bind_run in Hr.
  destruct (normalise_objects_run (root_handles objs2) true h2)
    as (h3 & Hnorm & Hobj3 & Hlog3).
  rewrite Hnorm in Hr. rewrite bind_run in Hr.
  destruct (set_matrices_run (root_handles objs2) (global_matrix kw) h3)
    as (h4 & Hset & Hlive4 & Hlog4 & Hmat).
  rewrite Hset in Hr. rewrite bind_run in Hr.
  destruct (finish_hierarchy kw objs2 h4) as [h5 [e|[]]] eqn:Hfin; [done|].
  injection Hr as <- <- <-.
  destruct (finishing_finish_hierarchy kw objs2 bs Hbl _ _ _ Hfin)
    as (t & Hlog5 & Hev & Hkeep & Hgone).
  exists bs, t. split; [done|]. split; [done|]. split.
  { rewrite Hlog5, Hlog4, Hlog3, Hlog2, Hlog1, Hlog0.
    by rewrite <- !(assoc_L (++)). }
  split; [done|]. intros r Hroot Hr.
  assert (r ∈ live h4) as Hlive.
  { rewrite Hlive4. assert (live h3 = live h2) as ->
      by (unfold live; by rewrite Hobj3).
    rewrite Hlive2. by apply Hbs. }
  destruct (h_objects h5 !! r) as [ob|] eqn:Hob.
  - left. exists ob. split; [done|].
    destruct (Hkeep r ob Hob) as (ob4 & Hob4 & ->).
    apply (Hmat r ob4); [by left | done].
  - right. destruct (Hgone r Hlive) as [Hin|?]; [|split; [|done]].
    + unfold live in Hin. apply elem_of_dom in Hin as [? ?]. congruence.
    + unfold live. by apply not_elem_of_dom.
Qed.

Lemma import_scene_inv objs kw h h' res :
  import_scene objs kw h = (h', inr res) →
  import_scene_body objs kw h = (h', inr res).
Proof.
  unfold import_scene, try_except.
  by destruct (import_scene_body objs kw h) as [h1 [e|r]].
Qed.

End ImportSceneFacts.

(** ** Root objects and the global matrix *)

Lemma matrix_assignments_app t1 t2 :
  matrix_assignments (t1 ++ t2) = matrix_assignments t1 ++ matrix_assignments t2.
Proof. unfold matrix_assignments. apply omap_app. Qed.

Lemma matrix_assignments_parents all objs :
  matrix_assignments (objs ≫= parent_events all) = [].
Proof.
  induction objs as [|o objs IH]; [done|]. cbn [mbind list_bind].
  rewrite matrix_assignments_app, IH, app_nil_r. unfold parent_events.
  destruct (parent o), (bl_object o); try done.
  by destruct (bl_emission_object o).
Qed.

Lemma matrix_assignments_finish t :
  Forall finish_event t → matrix_assignments t = [].
Proof.
  induction 1 as [|e t He _ IH]; [done|].
  destruct e; cbn in *; done.
Qed.

Lemma matrix_assignments_set (gm : matrix) ids :
  matrix_assignments ((λ id, EvSetMatrixWorld id gm) <$> ids) =
  (λ id, (id, gm)) <$> ids.
Proof. induction ids as [|id ids IH]; [done|]. cbn. by rewrite <- IH. Qed.

Lemma imported_handle (objs objs' : list Data3dObject) (bs : list nat) o b :
  Forall3 imported objs objs' bs → o ∈ objs' → bl_object o = Some b → b ∈ bs.
Proof.
  intros Himp Hin Hb. apply imported_bl_objects in Himp.
  assert (Some b ∈ bl_object <$> objs') as Hs.
  { rewrite <- Hb. by apply list_elem_of_fmap_2. }
  rewrite Himp in Hs. apply list_elem_of_fmap in Hs as (b' & [= ->] & ?). done.
Qed.

(** Under distinct handles, a node's object is a root object exactly when
    the node has no parent. *)
Lemma root_handle_iff (objs objs' : list Data3dObject) (bs : list nat) :
  fresh_nodes objs → Forall3 imported objs objs' bs → NoDup bs →
  ∀ o b, o ∈ objs' → bl_object o = Some b →
         (b ∈ root_handles objs' ↔ parent o = None).
Proof.
  intros Hfresh Himp. revert Hfresh.
  induction Himp as [|o0 o0' b0 objs objs' bs Ho0 Hrest IH];
    intros Hfresh Hnd o b Hin Hb; [by apply elem_of_nil in Hin|].
  inversion Hfresh as [|? ? He Hfresh']; subst.
  apply list.NoDup_cons in Hnd as [Hb0 Hnd].
  destruct (imported_root_handles _ _ _ Hfresh' Hrest) as [Hsub _].
  destruct Ho0 as [mhm ->].
  unfold root_handles. cbn [mbind list_bind].
  fold (root_handles objs'). rewrite elem_of_app.
  assert (Hhead : ∀ x, x ∈ root_handles_of
                           (set_bl_object (set_mat_hash_map o0 mhm) (Some b0))
                       ↔ x = b0 ∧ parent o0 = None).
  { intros x. unfold root_handles_of. cbn. rewrite He.
    destruct (parent o0); cbn.
    - split; [by intros ?%elem_of_nil | by intros [_ ?]].
    - rewrite list_elem_of_singleton. split; [done | by intros [? _]]. }
  rewrite Hhead.
  destruct (decide (b = b0)) as [->|Hne].
  - (* the handle of the first node: it belongs to no later node *)
    assert (o = set_bl_object (set_mat_hash_map o0 mhm) (Some b0)) as ->.
    { apply elem_of_cons in Hin as [?|Hin]; [done|].
      exfalso. apply Hb0. by eapply imported_handle. }
    cbn. split; [|by left].
    intros [[_ ?]|Hin']; [done|]. exfalso. by apply Hb0, Hsub.
  - apply elem_of_cons in Hin as [->|Hin]; [cbn in Hb; congruence|].
    rewrite <- (IH Hfresh' Hnd o b Hin Hb).
    split; [by intros [[? _]|?] | by right].
Qed.

(** ** World matrices the import leaves alone *)

Lemma no_new_matrix_refl h : no_new_matrix h h.
Proof. intros id. by right. Qed.

Lemma no_new_matrix_trans h1 h2 h3 :
  no_new_matrix h1 h2 → no_new_matrix h2 h3 → no_new_matrix h1 h3.
Proof.
  intros H12 H23 id. destruct (H23 id) as [?|E]; [by left|].
  rewrite E. apply H12.
Qed.

Lemma no_new_matrix_objects h h' :
  h_objects h' = h_objects h → no_new_matrix h h'.
Proof. intros E id. right. unfold matrix_of. by rewrite E. Qed.

Lemma keeps_no_new_matrix h h' : keeps_matrices h h' → no_new_matrix h h'.
Proof.
  intros Hk id. unfold matrix_of.
  destruct (h_objects h' !! id) as [ob'|] eqn:E; [|by left].
  destruct (Hk id ob' E) as (ob & -> & Hm). right. done.
Qed.

Lemma assigns_no_matrix_ret {A} (a : A) : assigns_no_matrix (mret a).
Proof. intros h h' r [= <- <-]. apply no_new_matrix_refl. Qed.

Lemma assigns_no_matrix_raise {A} (e : exn) : assigns_no_matrix (@raise A e).
Proof. intros h h' r [= <- <-]. apply no_new_matrix_refl. Qed.

Lemma assigns_no_matrix_bind {A B} (m : M A) (f : A → M B) :
  assigns_no_matrix m → (∀ a, assigns_no_matrix (f a)) →
  assigns_no_matrix (m ≫= f).
Proof.
  intros Hm Hf h h' r. rewrite bind_run.
  destruct (m h) as [h1 [e|a]] eqn:E.
  - intros [= <- <-]. by eapply Hm.
  - intros Hr. eapply no_new_matrix_trans; [by eapply Hm | by eapply Hf].
Qed.

Lemma assigns_no_matrix_modify (f : host → host) :
  (∀ h, h_objects (f h) = h_objects h) → assigns_no_matrix (modify f).
Proof. intros Hf h h' r [= <- <-]. by apply no_new_matrix_objects. Qed.

Lemma assigns_no_matrix_gets {A} (f : host → A) : assigns_no_matrix (gets f).
Proof. intros h h' r [= <- <-]. apply no_new_matrix_refl. Qed.

Lemma assigns_no_matrix_for_each {A} (l : list A) (body : A → M unit) :
  (∀ x, assigns_no_matrix (body x)) → assigns_no_matrix (for_each l body).
Proof.
  intros Hb. induction l as [|x l IH]; cbn [for_each].
  - apply assigns_no_matrix_ret.
  - apply assigns_no_matrix_bind; [apply Hb | by intros _].
Qed.

Lemma assigns_no_matrix_fold_m {A S} (body : S → A → M S) (l : list A) s :
  (∀ s x, assigns_no_matrix (body s x)) → assigns_no_matrix (fold_m body l s).
Proof.
  intros Hb. revert s. induction l as [|x l IH]; intros s; cbn [fold_m].
  - apply assigns_no_matrix_ret.
  - apply assigns_no_matrix_bind; [apply Hb | intros s'; apply IH].
Qed.

Lemma assigns_no_matrix_with_obj {A} (o : option nat) (k : nat → M A) :
  (∀ id, assigns_no_matrix (k id)) → assigns_no_matrix (with_obj o k).
Proof. intros Hk. destruct o; [apply Hk | apply assigns_no_matrix_raise]. Qed.

(** An attribute write other than that of [matrix_world]. *)
Lemma assigns_no_matrix_alter_object (f : bl_obj → bl_obj) (id : nat) :
  (∀ o, ob_matrix_world (f o) = ob_matrix_world o) →
  assigns_no_matrix (alter_object f id).
Proof.
  intros Hf h h' r [= <- <-] j. right. unfold matrix_of. cbn.
  destruct (decide (j = id)) as [->|Hne].
  - rewrite lookup_alter_eq. destruct (h_objects h !! id); cbn; [apply Hf|done].
  - by rewrite lookup_alter_ne.
Qed.

(** A new object has no assigned matrix. *)
Lemma assigns_no_matrix_objects_new name data :
  assigns_no_matrix (objects_new name data).
Proof.
  intros h h' r [= <- <-] j. unfold matrix_of. cbn.
  destruct (decide (j = fresh (dom (h_objects h)))) as [->|Hne].
  - left. by rewrite lookup_insert_eq.
  - right. by rewrite lookup_insert_ne.
Qed.

Lemma assigns_no_matrix_create_mesh_call data :
  assigns_no_matrix (create_mesh_call data).
Proof.
  intros h h' r. unfold create_mesh_call.
  destruct (fill_loops data); intros [= <- <-]; apply no_new_matrix_refl.
Qed.

Lemma assigns_no_matrix_type_of o : assigns_no_matrix (type_of o).
Proof.
  apply assigns_no_matrix_with_obj. intros id h h' r.
  destruct (h_objects h !! id); intros [= <- <-]; apply no_new_matrix_refl.
Qed.

Lemma assigns_no_matrix_select objects discard :
  assigns_no_matrix (select objects discard).
Proof.
  unfold select. apply assigns_no_matrix_bind.
  - destruct discard; [by apply assigns_no_matrix_modify
                      | apply assigns_no_matrix_ret].
  - intros _. apply assigns_no_matrix_for_each. intros obj.
    apply assigns_no_matrix_with_obj. intros id.
    apply assigns_no_matrix_bind; [by apply assigns_no_matrix_modify|].
    intros _. by apply assigns_no_matrix_modify.
Qed.

Lemma assigns_no_matrix_optimize_mesh obj :
  assigns_no_matrix (optimize_mesh obj).
Proof.
  destruct obj as [id|]; cbn [optimize_mesh]; [|apply assigns_no_matrix_ret].
  apply assigns_no_matrix_bind; [apply assigns_no_matrix_type_of|]. intros t.
  case_decide; [apply assigns_no_matrix_ret | apply assigns_no_matrix_select].
Qed.

(** Joining removes objects and replaces the mesh of the active one. *)
Lemma assigns_no_matrix_object_join : assigns_no_matrix object_join.
Proof.
  intros h h' r [= <- <-] j. unfold matrix_of.
  destruct (h_active h) as [a|]; [|by right].
  destruct (h_objects h !! a ≫= ob_data) as [me_a|]; [|by right].
  cbn [h_objects with_selected with_scene with_objects].
  set (others := filter _ _).
  destruct (decide (j = a)) as [->|Hne].
  - rewrite lookup_alter_eq.
    destruct (filter _ (h_objects h) !! a) as [ob|] eqn:E; [|by left].
    apply map_lookup_filter_Some in E as [-> _]. by right.
  - rewrite lookup_alter_ne by done.
    destruct (filter _ (h_objects h) !! j) as [ob|] eqn:E; [|by left].
    apply map_lookup_filter_Some in E as [-> _]. by right.
Qed.

Lemma assigns_no_matrix_join_objects group :
  assigns_no_matrix (join_objects group).
Proof.
  destruct group as [|joined rest]; cbn [join_objects];
    [apply assigns_no_matrix_ret|].
  apply assigns_no_matrix_bind; [apply assigns_no_matrix_select|]. intros _.
  apply assigns_no_matrix_bind; [by apply assigns_no_matrix_modify|]. intros _.
  apply assigns_no_matrix_bind; [apply assigns_no_matrix_object_join|].
  intros _. apply assigns_no_matrix_ret.
Qed.

Lemma append_material_matrix (m : nat) (o : bl_obj) :
  ob_matrix_world (append_material m o) = ob_matrix_world o.
Proof. unfold append_material. by destruct (ob_data o). Qed.

Lemma assigns_no_matrix_materials_new name :
  assigns_no_matrix (materials_new name).
Proof. intros h h' r [= <- <-]. by apply no_new_matrix_objects. Qed.

Section MatrixFacts.
Context `{RT : Runtime}.

Lemma assigns_no_matrix_apply_material nd blm mesh ob :
  assigns_no_matrix (apply_material nd blm mesh ob).
Proof.
  unfold apply_material. destruct (m_material mesh) as [key|].
  - case_decide; [|apply assigns_no_matrix_ret].
    destruct (_ && _); [|apply assigns_no_matrix_raise].
    destruct (PyDict.get blm _); [|apply assigns_no_matrix_raise].
    apply assigns_no_matrix_bind.
    { apply assigns_no_matrix_alter_object, append_material_matrix. }
    intros _. apply assigns_no_matrix_bind.
    { unfold bind_keywords. destruct (List.find _ _);
        [apply assigns_no_matrix_raise | apply assigns_no_matrix_ret]. }
    intros _. apply assigns_no_matrix_bind; [|intros b; apply assigns_no_matrix_ret].
    unfold py_gt. destruct (get_al_mat_node _ _) as [[]| |];
      apply assigns_no_matrix_ret || apply assigns_no_matrix_raise.
  - apply assigns_no_matrix_bind; [apply assigns_no_matrix_gets|]. intros [m|].
    + apply assigns_no_matrix_bind; [|intros _; apply assigns_no_matrix_ret].
      apply assigns_no_matrix_alter_object, append_material_matrix.
    + apply assigns_no_matrix_bind; [|intros _; apply assigns_no_matrix_ret].
      apply assigns_no_matrix_bind; [apply assigns_no_matrix_materials_new|].
      intros m. apply assigns_no_matrix_alter_object, append_material_matrix.
Qed.

Lemma assigns_no_matrix_import_mesh kw nd blm st mesh :
  assigns_no_matrix (import_mesh kw nd blm st mesh).
Proof.
  unfold import_mesh.
  apply assigns_no_matrix_bind; [apply assigns_no_matrix_create_mesh_call|].
  intros me.
  apply assigns_no_matrix_bind; [apply assigns_no_matrix_objects_new|].
  intros ob. apply assigns_no_matrix_bind.
  { destruct (import_materials kw);
      [apply assigns_no_matrix_apply_material | apply assigns_no_matrix_ret]. }
  intros b. apply assigns_no_matrix_bind; [by apply assigns_no_matrix_modify|].
  intros _. apply assigns_no_matrix_bind; [apply assigns_no_matrix_optimize_mesh|].
  intros _. apply assigns_no_matrix_ret.
Qed.

Lemma assigns_no_matrix_import_node kw blm o :
  assigns_no_matrix (import_node kw blm o).
Proof.
  unfold import_node. apply assigns_no_matrix_bind.
  { apply assigns_no_matrix_fold_m. intros st mesh.
    apply assigns_no_matrix_import_mesh. }
  intros [bm em]. apply assigns_no_matrix_bind.
  { case_decide.
    - apply assigns_no_matrix_bind; [apply assigns_no_matrix_join_objects|].
      intros j. apply assigns_no_matrix_with_obj. intros id.
      apply assigns_no_matrix_bind; [by apply assigns_no_matrix_alter_object|].
      intros _. apply assigns_no_matrix_ret.
    - apply assigns_no_matrix_bind; [apply assigns_no_matrix_objects_new|].
      intros ob. apply assigns_no_matrix_bind;
        [by apply assigns_no_matrix_modify|].
      intros _. apply assigns_no_matrix_ret. }
  intros o1. apply assigns_no_matrix_bind.
  { case_decide; [|apply assigns_no_matrix_ret].
    apply assigns_no_matrix_bind; [apply assigns_no_matrix_join_objects|].
    intros j. apply assigns_no_matrix_with_obj. intros id.
    apply assigns_no_matrix_bind; [by apply assigns_no_matrix_alter_object|].
    intros _.
    apply assigns_no_matrix_bind; [by apply assigns_no_matrix_alter_object|].
    intros _. apply assigns_no_matrix_ret. }
  intros o2. apply assigns_no_matrix_bind; [|intros _; apply assigns_no_matrix_ret].
  apply assigns_no_matrix_with_obj. intros id.
  apply assigns_no_matrix_bind; [by apply assigns_no_matrix_alter_object|].
  intros _. by apply assigns_no_matrix_alter_object.
Qed.

Lemma assigns_no_matrix_import_nodes kw blm objs :
  assigns_no_matrix (import_nodes kw blm objs).
Proof.
  induction objs as [|o objs IH]; cbn [import_nodes];
    [apply assigns_no_matrix_ret|].
  apply assigns_no_matrix_bind; [apply assigns_no_matrix_import_node|].
  intros o'. apply assigns_no_matrix_bind; [apply IH|].
  intros rest. apply assigns_no_matrix_ret.
Qed.

Lemma assigns_no_matrix_set_parent child p :
  assigns_no_matrix (set_parent child p).
Proof.
  apply assigns_no_matrix_with_obj. intros id.
  apply assigns_no_matrix_bind; [by apply assigns_no_matrix_alter_object|].
  intros _. by apply assigns_no_matrix_modify.
Qed.

Lemma assigns_no_matrix_link_parent all roots o :
  assigns_no_matrix (link_parent all roots o).
Proof.
  unfold link_parent. destruct (parent o) as [p|];
    [|apply assigns_no_matrix_ret].
  apply assigns_no_matrix_bind; [apply assigns_no_matrix_set_parent|].
  intros _. apply assigns_no_matrix_bind; [|intros _; apply assigns_no_matrix_ret].
  destruct (bl_emission_object o);
    [apply assigns_no_matrix_set_parent | apply assigns_no_matrix_ret].
Qed.

Lemma assigns_no_matrix_material_stage objs kw :
  assigns_no_matrix
    (if import_materials kw
     then import_data3d_materials objs (import_al_metadata kw)
     else mret (objs, [])).
Proof.
  destruct (import_materials kw); [|apply assigns_no_matrix_ret].
  unfold import_data3d_materials.
  destruct (deduplicate _ objs) as [objs1 tbl].
  apply assigns_no_matrix_bind; [|intros ?; apply assigns_no_matrix_ret].
  apply assigns_no_matrix_fold_m. intros blm key.
  destruct (PyDict.get tbl key); [|apply assigns_no_matrix_ret].
  apply assigns_no_matrix_bind; [|intros ?; apply assigns_no_matrix_ret].
  unfold Material_init.
  apply assigns_no_matrix_bind; [apply assigns_no_matrix_materials_new|].
  intros ?. destruct (host_accepts _);
    [apply assigns_no_matrix_ret | apply assigns_no_matrix_raise].
Qed.

(** Assigning the matrix to a list of objects leaves the others alone. *)
Lemma set_matrices_frame (ids : list nat) (gm : matrix) h h' r :
  for_each (Some <$> ids) (λ obj, set_matrix_world obj gm) h = (h', r) →
  ∀ id, id ∉ ids → matrix_of h' id = matrix_of h id.
Proof.
  revert h. induction ids as [|i ids IH]; intros h Hr id Hid.
  - by injection Hr as <- <-.
  - cbn [fmap list_fmap for_each] in Hr. rewrite bind_run in Hr.
    cbn [set_matrix_world with_obj] in Hr. rewrite bind_run in Hr.
    cbn [alter_object modify] in Hr.
    apply IH with (id := id) in Hr; [|set_solver]. rewrite Hr.
    unfold matrix_of. cbn. rewrite lookup_alter_ne; [done|set_solver].
Qed.

(** The import assigns a world matrix to root objects only. *)
Lemma import_scene_body_frame objs kw h h' objs' keys :
  import_scene_body objs kw h = (h', inr (objs', keys)) →
  ∀ id, id ∉ root_handles objs' →
        matrix_of h' id = None ∨ matrix_of h' id = matrix_of h id.
Proof.
  unfold import_scene_body. intros Hr.
  apply bind_inr in Hr as (h0 & [objs1 blm] & Hstage & Hr).
  apply assigns_no_matrix_material_stage in Hstage.
  apply bind_inr in Hr as (h1 & objs2 & Himport & Hr).
  pose proof (assigns_no_matrix_import_nodes _ _ _ _ _ _ Himport) as Hnodes.
  apply bind_inr in Hr as (h2 & roots & Hlink & Hr).
  pose proof Hlink as Hroots.
  apply (assigns_no_matrix_fold_m _ _ _
           (assigns_no_matrix_link_parent objs2)) in Hlink.
  apply import_nodes_returns in Himport as (bs & Hall & _).
  assert (Hsome : Forall (λ o, is_Some (bl_object o)) objs2).
  { clear -Hall. induction Hall as [|o o' b ? ? ? -> _ IH];
      constructor; [by eexists | done]. }
  destruct (link_parents_run objs2 objs2 [] h1 Hsome) as (h2' & Hlink' & _).
  rewrite Hlink' in Hroots. injection Hroots as <- <-. cbn [app] in Hr.
  rewrite bind_run in Hr.
  destruct (normalise_objects_run (root_handles objs2) true h2')
    as (h3 & Hnorm & Hobj3 & _).
  rewrite Hnorm in Hr. rewrite bind_run in Hr.
  destruct (for_each _ _ h3) as [h4 [e|[]]] eqn:Hset; [done|].
  pose proof (set_matrices_frame _ _ _ _ _ Hset) as Hframe.
  rewrite bind_run in Hr.
  destruct (finish_hierarchy kw objs2 h4) as [h5 [e|[]]] eqn:Hfin; [done|].
  injection Hr as <- <- <-.
  assert (Hbl : bl_object <$> objs2 = Some <$> bs).
  { clear -Hall. induction Hall as [|o o' b ? ? ? -> _ IH]; [done|].
    cbn. by rewrite IH. }
  destruct (finishing_finish_hierarchy kw objs2 bs Hbl _ _ _ Hfin)
    as (t & _ & _ & Hkeep%keeps_no_new_matrix & _).
  intros id Hid.
  assert (no_new_matrix h h3) as H03.
  { eapply no_new_matrix_trans; [exact Hstage|].
    eapply no_new_matrix_trans; [exact Hnodes|].
    eapply no_new_matrix_trans; [exact Hlink|].
    by apply no_new_matrix_objects. }
  destruct (Hkeep id) as [?|E5]; [by left|]. rewrite E5, (Hframe id Hid).
  apply H03.
Qed.

End MatrixFacts.

(** C9: the import assigns the global matrix to the root objects, to each
    of them once and to no other object; the assignments come after all
    parent links are set, and nothing after them assigns a matrix or sets
    a parent. A node's object is among the root objects exactly when the
    node has no parent. In the host the import leaves, every root object
    that is still there has the global matrix as its world matrix, a root
    object that is not there was removed by the clean-up, and no other
    object has a world matrix assigned that it did not have before the
    import: an object the import created for a node with a parent has
    none. *)
Theorem global_matrix_once_on_roots `{RT : Runtime} objs kw h h' objs' keys :
  fresh_nodes objs →
  import_scene objs kw h = (h', inr (objs', keys)) →
  let roots := root_handles objs' in
  ∃ t_finish,
    h_log h' =
      h_log h
      ++ (objs' ≫= parent_events objs')
      ++ [EvTransformApply [] true]
      ++ ((λ id, EvSetMatrixWorld id (global_matrix kw)) <$> roots)
      ++ t_finish
    ∧ Forall finish_event t_finish
    ∧ (∀ t, h_log h' = h_log h ++ t →
            matrix_assignments t = (λ id, (id, global_matrix kw)) <$> roots)
    ∧ NoDup roots
    ∧ (∀ o b, o ∈ objs' → bl_object o = Some b →
              (b ∈ roots ↔ parent o = None))
    ∧ (∀ r, r ∈ roots →
            (∃ ob, h_objects h' !! r = Some ob
                   ∧ ob_matrix_world ob = Some (global_matrix kw))
            ∨ ((r ∉ live h') ∧ EvRemove r ∈ t_finish))
    ∧ (∀ id, id ∉ roots →
             matrix_of h' id = None ∨ matrix_of h' id = matrix_of h id).
Proof.
  intros Hfresh Hrun%import_scene_inv roots.
  pose proof (import_scene_body_frame _ _ _ _ _ _ Hrun) as Hframe.
  apply import_scene_body_inv in Hrun
    as (bs & t_finish & Himp & Hnd & Hlog & Hev & Hroots).
  destruct (imported_root_handles _ _ _ Hfresh Himp) as [Hsub Hndr].
  exists t_finish. split; [done|]. split; [done|]. split.
  { intros t Ht. rewrite Ht in Hlog. apply app_inv_head in Hlog as ->.
    rewrite !matrix_assignments_app, matrix_assignments_parents.
    rewrite matrix_assignments_set, (matrix_assignments_finish t_finish Hev).
    cbn. by rewrite app_nil_r. }
  split; [by apply Hndr|]. split.
  { by apply (root_handle_iff _ _ _ Hfresh Himp Hnd). }
  split; [|done].
  intros r Hr. by apply Hroots, Hsub.
Qed.

Lemma global_matrix_once_on_roots_witness :
  ∃ h' objs' keys,
    @import_scene sample_runtime house_nodes (sample_kwargs true true)
      empty_host = (h', inr (objs', keys))
    ∧ root_handles objs' = [0%nat]
    ∧ matrix_assignments (h_log h') = [(0%nat, sample_matrix)]
    ∧ matrix_of h' 0%nat = Some sample_matrix
    ∧ ∀ id, id ≠ 0%nat → matrix_of h' id = None.
Proof.
  destruct (@import_scene sample_runtime house_nodes (sample_kwargs true true)
              empty_host) as [h' [e|[objs' keys]]] eqn:Hrun.
  { exfalso. vm_compute in Hrun. discriminate Hrun. }
  exists h', objs', keys. split; [done|].
  assert (Hfresh : fresh_nodes house_nodes) by (repeat constructor).
  destruct (@global_matrix_once_on_roots sample_runtime _ _ _ _ _ _ Hfresh Hrun)
    as (t & Hlog & _ & Hm & _ & _ & Hstate & Hframe).
  assert (Hroots : root_handles objs' = [0%nat]).
  { vm_compute in Hrun. injection Hrun as _ <- _. reflexivity. }
  split; [done|]. split; [|split].
  - rewrite (Hm (h_log h')); [by rewrite Hroots|].
    vm_compute in Hrun. injection Hrun as <- _ _. reflexivity.
  - destruct (Hstate 0%nat) as [(ob & Hob & Hmat)|[Hgone _]].
    + rewrite Hroots. by left.
    + unfold matrix_of. rewrite Hob. exact Hmat.
    + exfalso. apply Hgone. vm_compute in Hrun. injection Hrun as <- _ _.
      vm_compute. done.
  - intros id Hid. destruct (Hframe id) as [?|E]; [|done|by rewrite E].
    rewrite Hroots. by intros ?%list_elem_of_singleton.
Defined.

(** C10: when the import is through, every root object still in the scene
    has the global matrix as its world matrix, whatever position and
    rotation its node had; a root object no longer in the scene is an empty
    that the clean-up removed. The working group of [normalise_objects] is
    empty on the root objects, and every transform the import applies is
    applied to no object. *)
Theorem root_matrix_is_global_matrix `{RT : Runtime} objs kw h h' objs' keys :
  fresh_nodes objs →
  import_scene objs kw h = (h', inr (objs', keys)) →
  (∀ r, r ∈ root_handles objs' →
        (∃ ob, h_objects h' !! r = Some ob
               ∧ ob_matrix_world ob = Some (global_matrix kw))
        ∨ ((r ∉ live h') ∧ EvRemove r ∈ h_log h'))
  ∧ (∀ h0, normalise_group (Many (Some <$> root_handles objs')) h0
           = (h0, inr []))
  ∧ ∃ t, h_log h' = h_log h ++ t
         ∧ ∀ sel location, EvTransformApply sel location ∈ t → sel = [].
Proof.
  intros Hfresh Hrun%import_scene_inv.
  apply import_scene_body_inv in Hrun
    as (bs & t_finish & Himp & Hnd & Hlog & Hev & Hroots).
  destruct (imported_root_handles _ _ _ Hfresh Himp) as [Hsub _].
  split; [|split].
  - intros r Hr. destruct (Hroots r Hr (Hsub r Hr)) as [?|[? Hrm]]; [by left|].
    right. split; [done|]. rewrite Hlog, !elem_of_app. auto.
  - apply normalise_group_real.
  - eexists. split; [exact Hlog|]. intros sel location.
    rewrite !elem_of_app.
    intros [Hin|[Hin|[Hin|Hin]]].
    + apply list_elem_of_bind in Hin as (o & Hin & _).
      unfold parent_events in Hin.
      destruct (parent o), (bl_object o), (bl_emission_object o);
        repeat (apply elem_of_cons in Hin as [Hin|Hin]; [done|]);
        by apply elem_of_nil in Hin.
    + apply list_elem_of_singleton in Hin. by injection Hin as <- _.
    + apply list_elem_of_fmap in Hin as (? & ? & _). done.
    + by apply (proj1 (list.Forall_forall _ _) Hev) in Hin.
Qed.

Lemma root_matrix_is_global_matrix_witness :
  ∃ h' objs' keys ob,
    @import_scene sample_runtime house_nodes (sample_kwargs false false)
      empty_host = (h', inr (objs', keys))
    ∧ root_handles objs' = [0%nat]
    ∧ h_objects h' !! 0%nat = Some ob
    ∧ ob_matrix_world ob = Some sample_matrix.
Proof.
  destruct (@import_scene sample_runtime house_nodes (sample_kwargs false false)
              empty_host) as [h' [e|[objs' keys]]] eqn:Hrun.
  { exfalso. vm_compute in Hrun. discriminate Hrun. }
  assert (Hfresh : fresh_nodes house_nodes) by (repeat constructor).
  destruct (@root_matrix_is_global_matrix sample_runtime _ _ _ _ _ _ Hfresh Hrun)
    as (Hroots & _ & _).
  assert (Hr : root_handles objs' = [0%nat]).
  { vm_compute in Hrun. injection Hrun as _ <- _. reflexivity. }
  destruct (Hroots 0%nat) as [(ob & Hob & Hm)|[Hgone _]].
  - rewrite Hr. left.
  - exists h', objs', keys, ob. done.
  - exfalso. apply Hgone. vm_compute in Hrun. injection Hrun as <- _ _.
    vm_compute. done.
Defined.

(** ** Emissive materials *)

(** C2: a node whose only mesh has a material with emission coefficient 2.
    The import does not get to separate an emission object: reading the
    coefficient passes a [fallback] keyword that [get_al_mat_node] does
    not take, and the import fails. *)
Theorem emissive_material_aborts_import :
  (@import_scene sample_runtime [lamp_node] (sample_kwargs true true)
     empty_host).2 =
  inl (ImportSceneFailed
         (TypeError
            "get_al_mat_node() got an unexpected keyword argument 'fallback'")).
Proof. vm_compute. reflexivity. Qed.

(** The same for any scene, name table and hash: an import that returns
    has given no node an emission object. *)
Lemma import_sets_no_emission_object `{RT : Runtime} objs kw h h' objs' keys :
  import_scene objs kw h = (h', inr (objs', keys)) →
  Forall2 (λ o o', bl_emission_object o' = bl_emission_object o) objs objs'.
Proof.
  intros Hrun%import_scene_inv.
  apply import_scene_body_inv in Hrun as (bs & _ & Himp & _).
  induction Himp as [|o o' b ? ? ? [mhm ->] _ IH]; constructor; done.
Qed.

(** A mesh that [create_mesh] takes and whose key resolves to a material
    makes the import fail, be the material emissive or not. *)
Lemma resolved_material_fails `{RT : Runtime} kw nd blm st mesh
    key hashed_key mat :
  import_materials kw = true →
  well_indexed mesh →
  m_material mesh = Some key → key ≠ "" →
  PyDict.get (mat_hash_map nd) key = Some hashed_key → hashed_key ≠ "" →
  PyDict.get blm hashed_key = Some mat →
  raises (import_mesh kw nd blm st mesh)
    (TypeError
       "get_al_mat_node() got an unexpected keyword argument 'fallback'").
Proof.
  intros Hk Hwf Hm Hne Hg Hh Hb. unfold import_mesh.
  apply raises_bind_r.
  { intros h. rewrite create_mesh_call_run by done. eauto. }
  intros me. apply raises_bind_r; [apply returns_objects_new|]. intros ob.
  apply raises_bind_l. rewrite Hk. intros h.
  by apply apply_material_resolved with (key := key) (hashed_key := hashed_key)
                                        (mat := mat).
Qed.

(** ** The default material *)



(** C8: a mesh whose material key is present and empty. The import goes
    through, but the mesh is left without any material: the default
    material is neither created nor assigned. *)
Theorem empty_key_gets_no_material :
  let run := @import_scene sample_runtime [wall_node] (sample_kwargs true true)
               empty_host in
  (∃ res, run.2 = inr res)
  ∧ (me_materials <$> (h_objects run.1 !! 0%nat ≫= ob_data)) = Some []
  ∧ h_materials run.1 = [].
Proof. vm_compute. split; [by eexists|]. done. Qed.

(** ** When the import returns *)

Lemma for_each_ext {A} (l : list A) (f g : A → M unit) h :
  (∀ x, x ∈ l → f x = g x) → for_each l f h = for_each l g h.
Proof.
  revert h. induction l as [|x l IH]; intros h Hfg; [done|].
  cbn [for_each]. rewrite !bind_run, (Hfg x) by left.
  destruct (g x h) as [h1 [e|[]]]; [done|]. apply IH.
  intros y Hy. apply Hfg. by right.
Qed.

Lemma for_each_fmap {A B} (f : A → B) (l : list A) (body : B → M unit) h :
  for_each (f <$> l) body h = for_each l (λ x, body (f x)) h.
Proof.
  revert h. induction l as [|x l IH]; intros h; [done|].
  cbn [fmap list_fmap for_each]. rewrite !bind_run.
  destruct (body (f x) h) as [h1 [e|[]]]; [done|]. apply IH.
Qed.

(** Pruning empties: every handle is looked at while it is still live,
    because the handles are distinct. *)
Lemma prune_returns `{RT : Runtime} {A} (l : list A) (hd : A → nat)
    (c : A → obj_type → bool) h :
  NoDup (hd <$> l) → (∀ x, x ∈ l → hd x ∈ live h) →
  ∃ h', for_each l (λ x, t ← type_of (Some (hd x));
                         if c x t then unlink_and_remove (Some (hd x))
                         else mret ()) h = (h', inr ()).
Proof.
  revert h. induction l as [|x l IH]; intros h Hnd Hlive.
  - cbn. eauto.
  - cbn [fmap list_fmap] in Hnd. apply list.NoDup_cons in Hnd as [Hx Hnd].
    cbn [for_each]. rewrite !bind_run.
    destruct (type_of_live (hd x) h) as (t & Ht); [apply Hlive; left|].
    rewrite Ht. destruct (c x t).
    + cbn [unlink_and_remove with_obj]. rewrite bind_run.
      cbn [scene_unlink objects_remove modify]. apply IH; [done|].
      intros y Hy. unfold live. cbn. rewrite dom_delete_L.
      apply elem_of_difference. split; [by apply Hlive; right|].
      intros ?%elem_of_singleton. apply Hx.
      apply list_elem_of_fmap. by exists y.
    + cbn [mret M_ret]. apply IH; [done|]. intros y Hy. apply Hlive. by right.
Qed.

Lemma clear_parents_returns `{RT : Runtime} (bs : list nat) h :
  ∃ h', for_each (Some <$> bs) (λ bl, select (One bl) false;; parent_clear) h
          = (h', inr ())
      ∧ live h' = live h.
Proof.
  revert h. induction bs as [|b bs IH]; intros h.
  - cbn. eauto.
  - cbn [fmap list_fmap for_each]. rewrite !bind_run.
    destruct (select_one_run b false h) as (h1 & Hs & Ho1 & _).
    rewrite Hs. cbn [parent_clear modify].
    match goal with |- context [for_each _ _ ?h2] =>
      destruct (IH h2) as (h' & Hr & Hlive) end.
    exists h'. split; [done|]. rewrite Hlive. unfold live. cbn.
    by rewrite alter_all_dom, Ho1.
Qed.

Lemma finish_hierarchy_returns `{RT : Runtime} kw objs (bs : list nat) h :
  bl_object <$> objs = Some <$> bs → NoDup bs →
  (∀ b, b ∈ bs → b ∈ live h) →
  ∃ h', finish_hierarchy kw objs h = (h', inr ()).
Proof.
  intros Hbl Hnd Hlive. unfold finish_hierarchy.
  assert (Hhd : ∀ o, o ∈ objs →
            bl_object o = Some (default 0%nat (bl_object o))
            ∧ default 0%nat (bl_object o) ∈ bs).
  { intros o Ho. assert (bl_object o ∈ Some <$> bs) as Hin.
    { rewrite <- Hbl. by apply list_elem_of_fmap_2. }
    apply list_elem_of_fmap in Hin as (b & -> & ?). done. }
  assert (Hmap : default 0%nat ∘ bl_object <$> objs = bs).
  { rewrite list_fmap_compose, Hbl, <- list_fmap_compose.
    rewrite <- (list_fmap_id bs) at 2. by apply list_fmap_ext. }
  destruct (import_hierarchy kw).
  - erewrite for_each_ext.
    + apply (prune_returns objs (default 0%nat ∘ bl_object)
               (λ o t, bool_decide (t = EMPTY)
                       && bool_decide (children o = []))).
      * by rewrite Hmap.
      * intros o Ho. apply Hlive. by apply Hhd.
    + intros o Ho. destruct (Hhd o Ho) as [Hb _]. unfold compose.
      destruct (bl_object o) as [b|]; [reflexivity | discriminate Hb].
  - rewrite Hbl, bind_run.
    destruct (clear_parents_returns bs h) as (h1 & Hr1 & Hlive1).
    rewrite Hr1, bind_run.
    destruct (normalise_objects_run bs true h1) as (h2 & Hr2 & Ho2 & _).
    rewrite Hr2, for_each_fmap.
    apply (prune_returns bs id (λ _ t, bool_decide (t = EMPTY))).
    + by rewrite list_fmap_id.
    + intros b Hb. unfold live. rewrite Ho2. change (b ∈ live h1).
      rewrite Hlive1. by apply Hlive.
Qed.

(** The material stage leaves the meshes of the nodes as they are. *)
Lemma deduplicate_well_indexed `{RT : Runtime} import_metadata objs :
  well_indexed_scene objs →
  well_indexed_scene (deduplicate import_metadata objs).1.
Proof.
  intros Hwf.
  pose proof (hash_objects_nodes import_metadata objs []) as Hall.
  unfold deduplicate, well_indexed_scene in *.
  induction Hall as [|o o1 ? ? [-> _] _ IH]; [constructor|].
  inversion Hwf; subst. constructor; auto.
Qed.

(** An import of meshes that [create_mesh] takes returns when it is one
    without materials; one with materials returns when, besides, the host
    accepts the materials and no mesh carries a material key (a key that
    resolves raises, and so does one that does not). *)
Lemma import_scene_returns `{RT : Runtime} objs kw h :
  well_indexed_scene objs →
  (import_materials kw = true →
   host_accepts_scene (import_al_metadata kw) objs
   ∧ Forall (λ o, Forall unkeyed (meshes o)) objs) →
  ∃ h' res, import_scene objs kw h = (h', inr res).
Proof.
  intros Hwf Hok. unfold import_scene, try_except.
  assert (∃ h' res, import_scene_body objs kw h = (h', inr res))
    as (h' & res & ->); [|eauto].
  unfold import_scene_body. rewrite bind_run.
  assert (∃ h0 objs1 blm,
    (if import_materials kw
     then import_data3d_materials objs (import_al_metadata kw)
     else mret (objs, [])) h = (h0, inr (objs1, blm))
    ∧ (import_materials kw = true →
       Forall (λ o, Forall unkeyed (meshes o)) objs1)
    ∧ well_indexed_scene objs1)
    as (h0 & objs1 & blm & Hstage & Hkeys & Hwf1).
  { destruct (import_materials kw) eqn:Ek.
    - destruct (Hok eq_refl) as [Hacc Hun].
      destruct (import_data3d_materials_returns _ _ Hacc h)
        as (h0 & [objs1 blm] & Hr).
      exists h0, objs1, blm. split; [done|].
      apply import_data3d_materials_nodes in Hr as ->.
      split; [|by apply deduplicate_well_indexed]. intros _.
      pose proof (hash_objects_nodes (import_al_metadata kw) objs []) as Hall.
      unfold deduplicate. clear -Hall Hun.
      induction Hall as [|o o1 ? ? [-> _] _ IH]; [constructor|].
      inversion Hun; subst. constructor; auto.
    - exists h, objs, []. split; [done|]. split; [by intros | done]. }
  rewrite Hstage.
  destruct (import_nodes_unkeyed kw blm objs1 h0 Hwf1 Hkeys)
    as (h1 & objs2 & Himp).
  rewrite bind_run, Himp.
  pose proof (import_nodes_returns _ _ _ _ _ _ Himp)
    as (bs & Hall & Hnd & Hbs & _).
  assert (Hbl : bl_object <$> objs2 = Some <$> bs).
  { clear -Hall. induction Hall as [|o o' b ? ? ? -> _ IH]; [done|].
    cbn. by rewrite IH. }
  assert (Hsome : Forall (λ o, is_Some (bl_object o)) objs2).
  { clear -Hall. induction Hall as [|o o' b ? ? ? -> _ IH];
      constructor; [by eexists | done]. }
  rewrite bind_run.
  destruct (link_parents_run objs2 objs2 [] h1 Hsome)
    as (h2 & Hlink & _ & Hlive2).
  rewrite Hlink. cbn [app]. rewrite bind_run.
  destruct (normalise_objects_run (root_handles objs2) true h2)
    as (h3 & Hnorm & Hobj3 & _).
  rewrite Hnorm, bind_run.
  destruct (set_matrices_run (root_handles objs2) (global_matrix kw) h3)
    as (h4 & Hset & Hlive4 & _).
  rewrite Hset, bind_run.
  destruct (finish_hierarchy_returns kw objs2 bs h4 Hbl Hnd) as (h5 & Hfin).
  { intros b Hb. rewrite Hlive4.
    assert (live h3 = live h2) as -> by (unfold live; by rewrite Hobj3).
    rewrite Hlive2. by apply Hbs. }
  rewrite Hfin. cbn. eauto.
Qed.

(** * Further properties of the code *)

(** ** [get_al_material_hash] *)

Lemma freeze_idemp v : freeze (freeze v) = freeze v.
Proof. by destruct v. Qed.

Lemma freeze_not_list v : ¬ is_list (freeze v).
Proof. destruct v; cbn; tauto. Qed.

(** X1: the reduced record holds comparison-relevant keys only, each with
    the value the material has for it, lists turned into tuples; it never
    holds a list, and no key twice. *)
Theorem reduced_record_shape `{RT : Runtime} import_metadata
    (al_material : material) k v :
  PyDict.get (get_al_material_hash import_metadata al_material).2 k = Some v →
  k ∈ compare_keys import_metadata
  ∧ (∃ v0, PyDict.get al_material k = Some v0 ∧ v = freeze v0)
  ∧ ¬ is_list v
  ∧ NoDup (PyDict.keys (get_al_material_hash import_metadata al_material).2).
Proof.
  unfold get_al_material_hash. cbn [snd]. rewrite reduce_material_get.
  case_decide as Hk; [|done].
  destruct (PyDict.get al_material k) as [v0|]; [|done].
  intros [= <-]. split; [done|]. split; [by exists v0|].
  split; [apply freeze_not_list | apply reduce_material_NoDup].
Qed.

Lemma reduced_record_shape_witness :
  let A := [("name", VScalar (SStr "wall")); ("colorDiffuse", grey)] in
  PyDict.get A "colorDiffuse" = Some grey
  ∧ PyDict.get (@get_al_material_hash sample_runtime false A).2 "colorDiffuse"
    = Some grey_tuple
  ∧ "colorDiffuse" ∈ @compare_keys sample_runtime false.
Proof.
  intros A.
  assert (Hget : PyDict.get (@get_al_material_hash sample_runtime false A).2
                   "colorDiffuse" = Some grey_tuple) by (vm_compute; reflexivity).
  destruct (@reduced_record_shape sample_runtime false A _ _ Hget)
    as (Hk & _ & _ & _).
  split; [reflexivity|]. split; [exact Hget | exact Hk].
Defined.

(** X2: the reduced record is canonical: hashing it again gives the same
    hash and the same record, so a table entry hashes to its own key. *)
Theorem reduced_record_is_canonical `{RT : Runtime} import_metadata
    (al_material : material) :
  get_al_material_hash import_metadata
    (get_al_material_hash import_metadata al_material).2 =
  get_al_material_hash import_metadata al_material.
Proof.
  assert (Hag : agree import_metadata
                  (get_al_material_hash import_metadata al_material).2
                  al_material).
  { intros k Hk. unfold get_al_material_hash. cbn [snd].
    rewrite reduce_material_get, decide_True by done.
    destruct (PyDict.get al_material k); cbn; [|done].
    by rewrite freeze_idemp. }
  pose proof (agree_hash _ _ _ Hag) as H1.
  pose proof (proj1 (agree_reduced _ _ _) Hag) as H2.
  destruct (get_al_material_hash import_metadata _) as [h1 r1] eqn:E1 in H1, H2 |- *.
  destruct (get_al_material_hash import_metadata al_material) as [h2 r2].
  cbn in *. by subst.
Qed.

Lemma fold_hash_nodes_absent `{RT : Runtime} (al_material : material)
    keys acc :
  (∀ k, k ∈ keys → PyDict.get al_material k = None) →
  fold_left (hash_nodes_step al_material) keys acc = acc.
Proof.
  revert acc. induction keys as [|k keys IH]; intros acc Hno; [done|].
  cbn [fold_left]. unfold hash_nodes_step at 2.
  rewrite (Hno k) by left. apply IH. intros k' Hk'. apply Hno. by right.
Qed.

(** X3: the metadata mode changes the hash and the reduced record only of
    materials that carry one of the three internal-use keys. *)
Theorem metadata_mode_needs_internal_key `{RT : Runtime}
    (al_material : material) :
  (∀ k, k ∈ internal_keys → PyDict.get al_material k = None) →
  get_al_material_hash true al_material =
  get_al_material_hash false al_material.
Proof.
  intros Hno. unfold get_al_material_hash.
  assert (reduce_material (compare_keys true) al_material =
          reduce_material (compare_keys false) al_material) as ->; [|done].
  unfold reduce_material, compare_keys. rewrite app_nil_r, fold_left_app.
  by apply fold_hash_nodes_absent.
Qed.

Lemma metadata_mode_needs_internal_key_witness :
  let A := [("colorDiffuse", grey); ("opacity", num 1)] in
  @get_al_material_hash sample_runtime true A =
  @get_al_material_hash sample_runtime false A.
Proof.
  intros A. apply (@metadata_mode_needs_internal_key sample_runtime A).
  intros k Hk. unfold internal_keys in Hk. cbn in Hk.
  repeat (apply elem_of_cons in Hk as [->|Hk]; [reflexivity|]).
  by apply elem_of_nil in Hk.
Defined.

(** ** [import_data3d_materials] *)

Lemma pretty_N_go_length x s :
  (String.length s ≤ String.length (pretty_N_go x s))%nat.
Proof.
  revert s. induction (N.lt_wf_0 x) as [x _ IH]; intros s.
  assert (x = 0 ∨ 0 < x)%N as [->|?] by lia; [by rewrite pretty_N_go_0|].
  rewrite pretty_N_go_step by done.
  etrans; [|by eapply IH, N.div_lt]. cbn. lia.
Qed.

Lemma pretty_positive_nonempty (p : positive) : pretty p ≠ "".
Proof.
  unfold pretty, pretty_positive, pretty, pretty_N.
  rewrite decide_False by done. rewrite pretty_N_go_step by done.
  intros Heq.
  pose proof (pretty_N_go_length (N.pos p `div` 10)
                (String (pretty_N_char (N.pos p `mod` 10)) "")) as Hlen.
  rewrite Heq in Hlen. cbn in Hlen. lia.
Qed.

(** The string form of an integer is never empty, and tells integers
    apart. *)
Lemma str_nonempty (n : Z) : str n ≠ "".
Proof.
  unfold str, pretty, pretty_Z. destruct n as [|p|p]; [done| |done].
  apply pretty_positive_nonempty.
Qed.

Lemma str_inj (n m : Z) : str n = str m → n = m.
Proof. apply pretty_Z_inj. Qed.

Lemma filter_all {A} (P : A → Prop) `{∀ x, Decision (P x)} (l : list A) :
  (∀ x, x ∈ l → P x) → filter P l = l.
Proof.
  induction l as [|x l IH]; intros Hall; [done|].
  rewrite filter_cons, decide_True by (apply Hall; left).
  f_equal. apply IH. intros y Hy. apply Hall. by right.
Qed.

Section MaterialTableFacts.
Context `{RT : Runtime}.

(** The loop [for key in al_hashed_materials] of [import_data3d_materials]. *)
Local Notation materials_loop import_metadata tbl :=
  (fold_m (λ (bl_materials : dict string Material) key,
             match PyDict.get tbl key with
             | Some al_mat =>
                 mat ← Material_init (str key) al_mat import_metadata;
                 mret (PyDict.set bl_materials (str key) mat)
             | None => mret bl_materials
             end)).

Lemma materials_loop_inv import_metadata (tbl : dict Z material)
    ks blm h h' blm' :
  NoDup ks → (∀ k, k ∈ ks → is_Some (PyDict.get tbl k)) →
  materials_loop import_metadata tbl ks blm h = (h', inr blm') →
  h_materials h' = h_materials h ++ (str <$> ks)
  ∧ h_objects h' = h_objects h
  ∧ (∀ hk, hk ∉ str <$> ks → PyDict.get blm' hk = PyDict.get blm hk)
  ∧ (∀ k, k ∈ ks →
       ∃ mat, PyDict.get blm' (str k) = Some mat
              ∧ PyDict.get tbl k = Some (al_material mat)
              ∧ al_material_hash mat = str k
              ∧ h_materials h' !! bl_material mat = Some (str k)).
Proof.
  revert blm h. induction ks as [|k ks IH]; intros blm h Hnd Hin Hr.
  - injection Hr as <- <-. rewrite app_nil_r.
    split; [done|]. split; [done|]. split; [done|]. by intros k ?%elem_of_nil.
  - apply list.NoDup_cons in Hnd as [Hk Hnd].
    cbn [fold_m] in Hr. apply bind_inr in Hr as (h1 & blm1 & Hbody & Hr).
    destruct (Hin k) as [al_mat Hget]; [left|]. rewrite Hget in Hbody.
    apply bind_inr in Hbody as (h2 & mat & Hinit & Hret).
    injection Hret as <- <-.
    unfold Material_init in Hinit.
    apply bind_inr in Hinit as (h3 & bl & Hnew & Hinit).
    injection Hnew as <- <-.
    destruct (host_accepts al_mat); [|done]. injection Hinit as <- <-.
    apply IH in Hr as (Hmats & Hobjs & Hother & Hks);
      [|done|by intros k' ?; apply Hin; right].
    cbn in Hmats, Hobjs.
    assert (Hfresh : str k ∉ str <$> ks).
    { intros (k' & Heq & Hk')%list_elem_of_fmap.
      apply str_inj in Heq as <-. done. }
    split; [by rewrite Hmats, <- (assoc_L (++))|]. split; [done|]. split.
    + intros hk Hhk. cbn [fmap list_fmap] in Hhk.
      apply not_elem_of_cons in Hhk as [Hne Hhk].
      rewrite (Hother hk Hhk). by apply dict_get_set_ne.
    + intros k' [->|Hk']%elem_of_cons; [|by apply Hks].
      eexists. split; [by rewrite (Hother _ Hfresh), dict_get_set_eq|].
      cbn. split; [done|]. split; [done|].
      rewrite Hmats, <- (assoc_L (++)). by apply list_lookup_middle.
Qed.

Lemma materials_loop_keys import_metadata (tbl : dict Z material)
    ks blm h h' blm' :
  NoDup ks → (∀ k, k ∈ ks → str k ∉ PyDict.keys blm) →
  materials_loop import_metadata tbl ks blm h = (h', inr blm') →
  PyDict.keys blm' =
  PyDict.keys blm
    ++ (str <$> filter (λ k, is_Some (PyDict.get tbl k)) ks).
Proof.
  revert blm h. induction ks as [|k ks IH]; intros blm h Hnd Hfresh Hr.
  - injection Hr as <- <-. by rewrite app_nil_r.
  - apply list.NoDup_cons in Hnd as [Hk Hnd].
    cbn [fold_m] in Hr. apply bind_inr in Hr as (h1 & blm1 & Hbody & Hr).
    rewrite filter_cons. destruct (PyDict.get tbl k) as [al_mat|] eqn:Hget.
    + rewrite decide_True by eauto.
      apply bind_inr in Hbody as (h2 & mat & Hinit & Hret).
      injection Hret as <- <-.
      apply IH in Hr as ->; [| done |].
      * rewrite dict_keys_set_fresh by (apply Hfresh; left).
        by rewrite <- (assoc_L (++)).
      * intros k' Hk'. rewrite dict_keys_set_fresh by (apply Hfresh; left).
        rewrite elem_of_app, list_elem_of_singleton.
        intros [Hin|Heq]; [by apply (Hfresh k'); [right|]|].
        apply str_inj in Heq as ->. done.
    + rewrite decide_False by (by intros [? ?]).
      injection Hbody as <- <-. apply IH in Hr; [done..|].
      intros k' Hk'. apply Hfresh. by right.
Qed.

Lemma table_has_encountered import_metadata (raws : list material) raw :
  raw ∈ raws →
  is_Some (first_with_hash import_metadata
             (get_al_material_hash import_metadata raw).1 raws).
Proof.
  intros Hin. unfold first_with_hash.
  destruct (List.find _ raws) as [raw0|] eqn:E; [by eexists|].
  apply list_elem_of_In in Hin.
  pose proof (find_none _ _ E raw Hin) as Hf. cbn in Hf.
  by rewrite bool_decide_eq_true_2 in Hf.
Qed.

(** What is left of a node after deduplication: the same materials, and a
    hash map that sends exactly the node's keys to the string form of the
    hash. *)
Lemma deduplicated_node import_metadata objs o' :
  o' ∈ (deduplicate import_metadata objs).1 →
  (∃ o, o ∈ objs ∧ o' = set_mat_hash_map o (mat_hash_map o'))
  ∧ ∀ k, PyDict.get (mat_hash_map o') k =
         (λ raw, str (get_al_material_hash import_metadata raw).1)
           <$> PyDict.get (materials o') k.
Proof.
  intros Hin. unfold deduplicate in Hin.
  pose proof (hash_objects_nodes import_metadata objs []) as Hall.
  apply list_elem_of_lookup in Hin as [i Hi].
  destruct (Forall2_lookup_r _ _ _ _ _ Hall Hi) as (o & Ho & Heq & Hmap).
  split.
  - exists o. split; [by eapply list_elem_of_lookup_2 | done].
  - intros k. rewrite Hmap. by rewrite Heq.
Qed.

Lemma encountered_material objs o k raw :
  o ∈ objs → PyDict.get (materials o) k = Some raw → raw ∈ encountered objs.
Proof.
  intros Ho Hget. unfold encountered. apply list_elem_of_bind.
  exists o. split; [|done]. unfold encountered_in.
  apply list_elem_of_omap. exists k. split; [|done].
  by eapply dict_get_Some_keys.
Qed.

Lemma import_data3d_materials_inv objs import_metadata h h' objs1 blm :
  import_data3d_materials objs import_metadata h = (h', inr (objs1, blm)) →
  let tbl := (deduplicate import_metadata objs).2 in
  objs1 = (deduplicate import_metadata objs).1
  ∧ h_materials h' = h_materials h ++ (str <$> PyDict.keys tbl)
  ∧ h_objects h' = h_objects h
  ∧ PyDict.keys blm = str <$> PyDict.keys tbl
  ∧ (∀ k, k ∈ PyDict.keys tbl →
       ∃ mat, PyDict.get blm (str k) = Some mat
              ∧ PyDict.get tbl k = Some (al_material mat)
              ∧ al_material_hash mat = str k
              ∧ h_materials h' !! bl_material mat = Some (str k)).
Proof.
  intros Hr tbl.
  pose proof (import_data3d_materials_nodes _ _ _ _ _ _ Hr) as Hnodes.
  unfold import_data3d_materials in Hr. subst tbl.
  assert (Hnd : NoDup (PyDict.keys (deduplicate import_metadata objs).2)).
  { unfold deduplicate. rewrite hash_objects_table.
    apply table_insert_NoDup, NoDup_nil_2. }
  destruct (deduplicate import_metadata objs) as [objs2 tbl]. cbn [fst snd] in *.
  apply bind_inr in Hr as (h1 & blm1 & Hloop & [= <- <- <-]).
  assert (Hsome : ∀ k, k ∈ PyDict.keys tbl → is_Some (PyDict.get tbl k))
    by apply dict_keys_get.
  assert (Hempty : ∀ k, k ∈ PyDict.keys tbl →
                        str k ∉ PyDict.keys (@nil (string * Material)))
    by (intros k _; apply not_elem_of_nil).
  pose proof (materials_loop_keys _ _ _ _ _ _ _ Hnd Hempty Hloop) as Hkeys.
  apply materials_loop_inv in Hloop as (Hmats & Hobjs & _ & Hks); [|done..].
  split; [done|]. split; [done|]. split; [done|]. split; [|done].
  rewrite Hkeys. cbn. f_equal. by apply filter_all.
Qed.

End MaterialTableFacts.

(** X4: when the material stage returns, every local material key of every
    node resolves: the node's hash map has a non-empty hashed key for it,
    [bl_materials] has a [Material] under that key, named by it, and its
    record is the reduced record of the first material of the scene with
    that hash. *)
Theorem recorded_keys_resolve `{RT : Runtime} objs import_metadata
    h h' objs1 blm o1 k raw :
  import_data3d_materials objs import_metadata h = (h', inr (objs1, blm)) →
  o1 ∈ objs1 → PyDict.get (materials o1) k = Some raw →
  let al_mat_hash := (get_al_material_hash import_metadata raw).1 in
  ∃ mat first,
    PyDict.get (mat_hash_map o1) k = Some (str al_mat_hash)
    ∧ str al_mat_hash ≠ ""
    ∧ PyDict.get blm (str al_mat_hash) = Some mat
    ∧ al_material_hash mat = str al_mat_hash
    ∧ first_with_hash import_metadata al_mat_hash (encountered objs)
      = Some first
    ∧ al_material mat = (get_al_material_hash import_metadata first).2.
Proof.
  intros Hr Ho1 Hget al_mat_hash.
  apply import_data3d_materials_inv in Hr as (-> & _ & _ & _ & Hks).
  apply deduplicated_node in Ho1 as [(o & Ho & Heq) Hmap].
  assert (Hraw : raw ∈ encountered objs).
  { apply (encountered_material objs o k); [done|]. by rewrite Heq in Hget. }
  destruct (table_has_encountered import_metadata _ _ Hraw) as [first Hfirst].
  assert (Htbl : PyDict.get (deduplicate import_metadata objs).2 al_mat_hash
                 = Some (get_al_material_hash import_metadata first).2).
  { unfold deduplicate. rewrite hash_objects_table, table_insert_get.
    cbn [PyDict.get]. fold al_mat_hash in Hfirst. by rewrite Hfirst. }
  destruct (Hks al_mat_hash) as (mat & Hblm & Hmat & Hname & _).
  { by eapply dict_get_Some_keys. }
  exists mat, first. split; [by rewrite Hmap, Hget|].
  split; [apply str_nonempty|]. split; [done|]. split; [done|].
  split; [done|]. congruence.
Qed.

Lemma recorded_keys_resolve_witness :
  ∃ h' objs1 blm o1 mat,
    @import_data3d_materials sample_runtime grey_nodes false empty_host
      = (h', inr (objs1, blm))
    ∧ objs1 !! 1%nat = Some o1
    ∧ PyDict.get (mat_hash_map o1) "m2" = Some "1818222375051379728"
    ∧ PyDict.get blm "1818222375051379728" = Some mat
    ∧ al_material mat = [("colorDiffuse", grey_tuple)].
Proof.
  destruct (@import_data3d_materials sample_runtime grey_nodes false empty_host)
    as [h' [e|[objs1 blm]]] eqn:Hrun.
  { exfalso. vm_compute in Hrun. discriminate Hrun. }
  destruct (objs1 !! 1%nat) as [o1|] eqn:Ho1.
  2:{ exfalso. vm_compute in Hrun. injection Hrun as _ <- _.
      vm_compute in Ho1. discriminate Ho1. }
  assert (Hget : PyDict.get (materials o1) "m2"
                 = Some [("colorDiffuse", grey_tuple);
                         ("name", VScalar (SStr "b"))]).
  { vm_compute in Hrun. injection Hrun as _ <- _.
    vm_compute in Ho1. injection Ho1 as <-. reflexivity. }
  destruct (@recorded_keys_resolve sample_runtime _ _ _ _ _ _ o1 _ _ Hrun
              (list_elem_of_lookup_2 _ _ _ Ho1) Hget)
    as (mat & first & Hmap & _ & Hblm & _ & Hfirst & Hred).
  exists h', objs1, blm, o1, mat. split; [done|]. split; [done|].
  split; [exact Hmap|]. split; [exact Hblm|].
  rewrite Hred. vm_compute in Hfirst. injection Hfirst as <-.
  vm_compute. reflexivity.
Defined.

(** X5: when the material stage returns, it has created exactly one
    Blender material per distinct hash, named by the hashed key, in the
    order the hashes were first seen; [bl_materials] has exactly those
    keys; no object is touched. *)
Theorem one_material_per_hash `{RT : Runtime} objs import_metadata
    h h' objs1 blm :
  import_data3d_materials objs import_metadata h = (h', inr (objs1, blm)) →
  let tbl := (deduplicate import_metadata objs).2 in
  h_materials h' = h_materials h ++ (str <$> PyDict.keys tbl)
  ∧ PyDict.keys blm = str <$> PyDict.keys tbl
  ∧ NoDup (PyDict.keys blm)
  ∧ h_objects h' = h_objects h
  ∧ (∀ hashed_key mat, PyDict.get blm hashed_key = Some mat →
       al_material_hash mat = hashed_key
       ∧ h_materials h' !! bl_material mat = Some hashed_key).
Proof.
  intros Hr tbl.
  apply import_data3d_materials_inv in Hr as (_ & Hmats & Hobjs & Hkeys & Hks).
  fold tbl in Hmats, Hkeys, Hks.
  split; [done|]. split; [done|]. split.
  { rewrite Hkeys. apply NoDup_fmap_2; [intros ? ?; apply str_inj|].
    unfold tbl, deduplicate. rewrite hash_objects_table.
    apply table_insert_NoDup, NoDup_nil_2. }
  split; [done|]. intros hk mat Hget.
  assert (hk ∈ PyDict.keys blm) as Hin by (by eapply dict_get_Some_keys).
  rewrite Hkeys in Hin. apply list_elem_of_fmap in Hin as (k & -> & Hk).
  destruct (Hks k Hk) as (mat' & Hget' & _ & Hname & Hhost).
  assert (mat' = mat) as -> by congruence. done.
Qed.

Lemma one_material_per_hash_witness :
  ∃ h' objs1 blm,
    @import_data3d_materials sample_runtime grey_nodes false empty_host
      = (h', inr (objs1, blm))
    ∧ h_materials h' = ["1818222375051379728"]
    ∧ PyDict.keys blm = ["1818222375051379728"].
Proof.
  destruct (@import_data3d_materials sample_runtime grey_nodes false empty_host)
    as [h' [e|[objs1 blm]]] eqn:Hrun.
  { exfalso. vm_compute in Hrun. discriminate Hrun. }
  destruct (@one_material_per_hash sample_runtime _ _ _ _ _ _ Hrun)
    as (Hmats & Hkeys & _).
  exists h', objs1, blm. split; [done|]. split.
  - rewrite Hmats. vm_compute. reflexivity.
  - rewrite Hkeys. vm_compute. reflexivity.
Defined.

(** X6: materials that agree on the comparison-relevant keys get the same
    hashed key, whatever node they are in and whatever their local key
    is. *)
Theorem agreeing_materials_share_key `{RT : Runtime} objs import_metadata
    o1 o2 k1 k2 raw1 raw2 :
  o1 ∈ (deduplicate import_metadata objs).1 →
  o2 ∈ (deduplicate import_metadata objs).1 →
  PyDict.get (materials o1) k1 = Some raw1 →
  PyDict.get (materials o2) k2 = Some raw2 →
  agree import_metadata raw1 raw2 →
  ∃ hashed_key,
    PyDict.get (mat_hash_map o1) k1 = Some hashed_key
    ∧ PyDict.get (mat_hash_map o2) k2 = Some hashed_key.
Proof.
  intros [_ Hmap1]%deduplicated_node [_ Hmap2]%deduplicated_node Hg1 Hg2 Hag.
  exists (str (get_al_material_hash import_metadata raw1).1).
  rewrite Hmap1, Hmap2, Hg1, Hg2. cbn [fmap option_fmap option_map].
  by rewrite (agree_hash _ _ _ Hag).
Qed.

Lemma agreeing_materials_share_key_witness :
  ∃ o1 o2 hashed_key,
    (@deduplicate sample_runtime false grey_nodes).1 !! 0%nat = Some o1
    ∧ (@deduplicate sample_runtime false grey_nodes).1 !! 1%nat = Some o2
    ∧ PyDict.get (mat_hash_map o1) "m1" = Some hashed_key
    ∧ PyDict.get (mat_hash_map o2) "m2" = Some hashed_key.
Proof.
  destruct ((@deduplicate sample_runtime false grey_nodes).1 !! 0%nat)
    as [o1|] eqn:H1; [|by vm_compute in H1].
  destruct ((@deduplicate sample_runtime false grey_nodes).1 !! 1%nat)
    as [o2|] eqn:H2; [|by vm_compute in H2].
  destruct (@agreeing_materials_share_key sample_runtime grey_nodes false
              o1 o2 "m1" "m2"
              [("colorDiffuse", grey)]
              [("colorDiffuse", grey_tuple); ("name", VScalar (SStr "b"))])
    as (hk & Hk1 & Hk2).
  - by eapply list_elem_of_lookup_2.
  - by eapply list_elem_of_lookup_2.
  - vm_compute in H1. injection H1 as <-. reflexivity.
  - vm_compute in H2. injection H2 as <-. reflexivity.
  - apply (@agree_reduced sample_runtime). vm_compute. reflexivity.
  - exists o1, o2, hk. done.
Defined.

(** ** [get_reference_maps] *)

Section ReferenceMapFacts.
Context `{RT : Runtime}.

Lemma next_usable_inr (maps : list value) (v : value) :
  next_usable maps = inr v →
  (truthy v = true → usable v ∧ v ∈ maps)
  ∧ (truthy v = false → v = VScalar (SStr "") ∧ Forall passed_over maps).
Proof.
  induction maps as [|m maps IH]; cbn [next_usable].
  - intros [= <-]. split; [done|]. by split.
  - destruct (truthy m) eqn:Hm.
    + destruct m as [[q|s|]|l|l]; try done.
      destruct (endswith s ".dds") eqn:Hs.
      * intros Hrun. destruct (IH Hrun) as [IHt IHf]. split.
        -- intros Hv. destruct (IHt Hv) as [? ?]. split; [done|].
           apply elem_of_cons. by right.
        -- intros Hv. destruct (IHf Hv) as [? ?]. split; [done|].
           constructor; [|done]. right. by exists s.
      * intros [= <-]. split; [|by rewrite Hm].
        intros _. split; [|apply elem_of_cons; by left].
        exists s. split; [done|]. split; [|done].
        cbn in Hm. by apply bool_decide_eq_true_1 in Hm.
    + intros Hrun. destruct (IH Hrun) as [IHt IHf]. split.
      * intros Hv. destruct (IHt Hv) as [? ?]. split; [done|].
        apply elem_of_cons. by right.
      * intros Hv. destruct (IHf Hv) as [? ?]. split; [done|].
        constructor; [|done]. by left.
Qed.

Lemma reference_loop_inv (al_mat : material) (keys : list string)
    (acc ref_maps : material) (P : string → value → Prop) :
  (∀ k v, PyDict.get acc k = Some v → P k v) →
  (∀ k v, k ∈ keys → usable v → v ∈ maps_of al_mat k → P k v) →
  reference_loop al_mat keys acc = inr ref_maps →
  ∀ k v, PyDict.get ref_maps k = Some v → P k v.
Proof.
  revert acc. induction keys as [|key keys IH]; intros acc Hacc Hkeys;
    cbn [reference_loop].
  - by intros [= <-].
  - unfold reference_step.
    destruct (next_usable (maps_of al_mat key)) as [e|ref_map] eqn:Hnext;
      [done|].
    apply IH.
    + destruct (next_usable_inr _ _ Hnext) as [Ht _].
      destruct (truthy ref_map) eqn:Htruthy; [|done].
      destruct (Ht eq_refl) as [Hu Hin].
      intros k v. destruct (decide (k = key)) as [->|Hne].
      * rewrite dict_get_set_eq. intros [= <-].
        apply Hkeys; [apply elem_of_cons; by left|done..].
      * rewrite dict_get_set_ne by done. apply Hacc.
    + intros k v Hk. apply Hkeys. apply elem_of_cons. by right.
Qed.

Lemma next_usable_first (before after : list value) (v : value) :
  Forall passed_over before → usable v →
  next_usable (before ++ v :: after) = inr v.
Proof.
  intros Hbefore (s & -> & Hs & Hdds).
  induction Hbefore as [|m before Hm _ IH]; cbn [app next_usable].
  - cbn [truthy]. rewrite bool_decide_eq_true_2 by done. by rewrite Hdds.
  - destruct Hm as [Hm|(s' & -> & Hm)].
    + by rewrite Hm.
    + rewrite Hm. by destruct (truthy _).
Qed.

Lemma next_usable_none (maps : list value) :
  Forall passed_over maps → next_usable maps = inr (VScalar (SStr "")).
Proof.
  induction 1 as [|m maps Hm _ IH]; cbn [next_usable]; [done|].
  destruct Hm as [Hm|(s' & -> & Hm)].
  - by rewrite Hm.
  - rewrite Hm. by destruct (truthy _).
Qed.

Lemma next_usable_non_string (before after : list value) (v : value) :
  Forall passed_over before → truthy v = true →
  (∀ s, v ≠ VScalar (SStr s)) →
  next_usable (before ++ v :: after) = inl (AttributeError "endswith").
Proof.
  intros Hbefore Hv Hns.
  induction Hbefore as [|m before Hm _ IH]; cbn [app next_usable].
  - rewrite Hv. destruct v as [[q|s|]|l|l]; try done. by destruct (Hns s).
  - destruct Hm as [Hm|(s' & -> & Hm)].
    + by rewrite Hm.
    + rewrite Hm. by destruct (truthy (VScalar (SStr s'))).
Qed.

Lemma next_usable_error (maps : list value) (e : exn) :
  next_usable maps = inl e → e = AttributeError "endswith".
Proof.
  induction maps as [|m maps IH]; cbn [next_usable]; [done|].
  destruct (truthy m); [|done].
  destruct m as [[q|s|]|l|l]; try congruence.
  destruct (endswith s ".dds"); [done|congruence].
Qed.

Lemma reference_loop_error (al_mat : material) (keys : list string)
    (acc : material) (e : exn) :
  reference_loop al_mat keys acc = inl e → e = AttributeError "endswith".
Proof.
  revert acc. induction keys as [|key keys IH]; intros acc;
    cbn [reference_loop]; [done|]. unfold reference_step.
  destruct (next_usable (maps_of al_mat key)) as [e'|ref_map] eqn:Hnext.
  - intros [= <-]. by eapply next_usable_error.
  - apply IH.
Qed.

Lemma reference_loop_step_error (al_mat : material) (keys : list string)
    (acc : material) (k : string) (e : exn) :
  k ∈ keys → next_usable (maps_of al_mat k) = inl e →
  reference_loop al_mat keys acc = inl (AttributeError "endswith").
Proof.
  intros Hk Hnext. revert acc.
  induction keys as [|key keys IH]; intros acc;
    [by apply elem_of_nil in Hk|].
  destruct (reference_loop al_mat (key :: keys) acc) as [e'|rm] eqn:Hrun;
    [by apply reference_loop_error in Hrun as ->|].
  exfalso. cbn [reference_loop] in Hrun. unfold reference_step in Hrun.
  destruct (next_usable (maps_of al_mat key)) as [e'|ref_map] eqn:Hkey;
    [done|].
  apply elem_of_cons in Hk as [->|Hk]; [congruence|].
  specialize (IH Hk (if truthy ref_map then PyDict.set acc key ref_map
                     else acc)).
  congruence.
Qed.

Lemma reference_loop_get (al_mat : material) (keys : list string)
    (acc ref_maps : material) (k : string) :
  NoDup keys →
  reference_loop al_mat keys acc = inr ref_maps →
  (k ∉ keys → PyDict.get ref_maps k = PyDict.get acc k)
  ∧ (k ∈ keys → ∃ v, next_usable (maps_of al_mat k) = inr v
       ∧ PyDict.get ref_maps k
           = if truthy v then Some v else PyDict.get acc k).
Proof.
  intros Hnd. revert acc.
  induction Hnd as [|key keys Hkey _ IH]; intros acc; cbn [reference_loop].
  - intros [= <-]. split; [done|]. by intros ?%elem_of_nil.
  - unfold reference_step.
    destruct (next_usable (maps_of al_mat key)) as [e|ref_map] eqn:Hnext;
      [done|].
    intros Hrun. destruct (IH _ Hrun) as [IHout IHin]. split.
    + intros Hk. apply not_elem_of_cons in Hk as [Hne Hk].
      rewrite IHout by done. destruct (truthy ref_map); [|done].
      by rewrite dict_get_set_ne.
    + intros Hk. apply elem_of_cons in Hk as [->|Hk].
      * exists ref_map. split; [done|]. rewrite IHout by done.
        destruct (truthy ref_map); [|done]. by rewrite dict_get_set_eq.
      * destruct (IHin Hk) as (v & Hv & Hget). exists v. split; [done|].
        rewrite Hget. destruct (truthy v); [done|].
        destruct (truthy ref_map); [|done].
        rewrite dict_get_set_ne; [done|]. by intros ->.
Qed.

(** X12: whatever [get_reference_maps] returns holds entries under the
    five map types only, and every entry is a usable path (a non-empty
    string that does not end in [.dds]) taken from the source, plain or
    preview variant of its map type. *)
Theorem reference_maps_are_usable (al_mat ref_maps : material)
    (k : string) (v : value) :
  get_reference_maps al_mat = inr ref_maps →
  PyDict.get ref_maps k = Some v →
  k ∈ map_types ∧ usable v ∧ v ∈ maps_of al_mat k.
Proof.
  intros Hrun. revert k v.
  apply (reference_loop_inv al_mat map_types [] ref_maps
    (λ k v, k ∈ map_types ∧ usable v ∧ v ∈ maps_of al_mat k)); done.
Qed.

(** X13: for every map type the source variant is preferred to the plain
    one and the plain one to the preview: the entry is the first usable
    candidate, the ones before it being passed over as false or [.dds];
    when all three are passed over the map type gets no entry. The map
    types have to be five different keys. *)
Theorem reference_map_priority (al_mat ref_maps : material) (k : string) :
  NoDup map_types →
  get_reference_maps al_mat = inr ref_maps →
  k ∈ map_types →
  (∀ before v after,
     maps_of al_mat k = before ++ v :: after →
     Forall passed_over before → usable v →
     PyDict.get ref_maps k = Some v)
  ∧ (Forall passed_over (maps_of al_mat k) → PyDict.get ref_maps k = None).
Proof.
  intros Hnd Hrun Hk.
  destruct (reference_loop_get al_mat map_types [] ref_maps k Hnd Hrun)
    as [_ Hin].
  destruct (Hin Hk) as (w & Hw & Hget). split.
  - intros before v after Hmaps Hbefore Hv.
    rewrite Hmaps, (next_usable_first before after v Hbefore Hv) in Hw.
    simplify_eq. rewrite Hget. destruct Hv as (s & -> & Hs & _).
    cbn [truthy]. by rewrite bool_decide_eq_true_2.
  - intros Hall. rewrite (next_usable_none _ Hall) in Hw. by simplify_eq.
Qed.

(** X14: a true value that is not a string (a non-zero number, a
    non-empty list) in a variant the search reaches makes
    [get_reference_maps] raise [AttributeError]. *)
Theorem non_string_map_raises (al_mat : material) (k : string)
    (before after : list value) (v : value) :
  k ∈ map_types →
  maps_of al_mat k = before ++ v :: after →
  Forall passed_over before →
  truthy v = true → (∀ s, v ≠ VScalar (SStr s)) →
  get_reference_maps al_mat = inl (AttributeError "endswith").
Proof.
  intros Hk Hmaps Hbefore Hv Hns.
  eapply (reference_loop_step_error al_mat map_types [] k); [done|].
  rewrite Hmaps. by apply next_usable_non_string.
Qed.

End ReferenceMapFacts.

Lemma reference_maps_are_usable_witness :
  "mapDiffuse" ∈ @map_types sample_runtime
  ∧ usable (VScalar (SStr "wood.jpg"))
  ∧ VScalar (SStr "wood.jpg") ∈ @maps_of sample_runtime textured "mapDiffuse".
Proof.
  apply (@reference_maps_are_usable sample_runtime textured
           [("mapDiffuse", VScalar (SStr "wood.jpg"))]); reflexivity.
Defined.

Lemma reference_map_priority_witness :
  PyDict.get [("mapDiffuse", VScalar (SStr "wood.jpg"))] "mapDiffuse"
    = Some (VScalar (SStr "wood.jpg")).
Proof.
  refine (proj1 (@reference_map_priority sample_runtime textured
    [("mapDiffuse", VScalar (SStr "wood.jpg"))] "mapDiffuse" _ _ _)
    [VScalar (SStr "wood.dds")] (VScalar (SStr "wood.jpg"))
    [VScalar (SStr "wood_small.jpg")] _ _ _).
  - compute_done.
  - reflexivity.
  - compute_done.
  - reflexivity.
  - constructor; [|constructor]. right. by eexists.
  - eexists. split; [done|]. split; [done|]. reflexivity.
Defined.

Lemma non_string_map_raises_witness :
  @get_reference_maps sample_runtime [("mapNormal", num 1)]
    = inl (AttributeError "endswith").
Proof.
  apply (@non_string_map_raises sample_runtime [("mapNormal", num 1)]
    "mapNormal" [VScalar (SStr "")] [VScalar (SStr "")] (num 1)).
  - compute_done.
  - reflexivity.
  - constructor; [|constructor]. by left.
  - reflexivity.
  - done.
Defined.

(** ** [select], [normalise_objects], [join_objects] *)

Lemma select_each_active (group : list nat) h :
  ∃ h', for_each (Some <$> group)
          (λ obj, with_obj obj (λ id, set_select id;; set_active id)) h
        = (h', inr ())
      ∧ h_objects h' = h_objects h ∧ h_scene h' = h_scene h
      ∧ h_materials h' = h_materials h ∧ h_log h' = h_log h
      ∧ h_selected h' = list_to_set group ∪ h_selected h
      ∧ h_active h' = from_option Some (h_active h) (list.last group).
Proof.
  revert h. induction group as [|id group IH]; intros h.
  - exists h. cbn. split; [done|]. do 4 (split; [done|]).
    split; [set_solver|done].
  - cbn [fmap list_fmap for_each]. rewrite bind_run. cbn [with_obj].
    rewrite bind_run. cbn [set_select set_active modify].
    match goal with |- context [for_each _ _ ?h1] =>
      destruct (IH h1) as (h' & Hr & Ho & Hsc & Hm & Hl & Hs & Ha) end.
    exists h'. rewrite Hr, Ho, Hsc, Hm, Hl, Hs, Ha. cbn.
    split; [done|]. do 4 (split; [done|]). split; [set_solver|].
    destruct group as [|id' group]; [done|].
    rewrite last_cons_cons.
    destruct (list.last (id' :: group)) eqn:E; [done|].
    by apply last_None in E.
Qed.

Lemma select_group_run (group : list nat) (discard_selection : bool) h :
  ∃ h', select (Many (Some <$> group)) discard_selection h = (h', inr ())
      ∧ h_selected h'
          = list_to_set group
              ∪ (if discard_selection then ∅ else h_selected h)
      ∧ h_active h' = from_option Some (h_active h) (list.last group)
      ∧ h_objects h' = h_objects h ∧ h_scene h' = h_scene h
      ∧ h_materials h' = h_materials h ∧ h_log h' = h_log h.
Proof.
  unfold select. rewrite bind_run.
  destruct discard_selection; cbn [select_all_deselect modify mret M_ret].
  - match goal with |- context [for_each _ _ ?h1] =>
      destruct (select_each_active group h1)
        as (h' & Hr & Ho & Hsc & Hm & Hl & Hs & Ha) end.
    exists h'. rewrite Hr, Ho, Hsc, Hm, Hl, Hs, Ha. done.
  - destruct (select_each_active group h)
      as (h' & Hr & Ho & Hsc & Hm & Hl & Hs & Ha).
    exists h'. rewrite Hr, Ho, Hsc, Hm, Hl, Hs, Ha. done.
Qed.

(** X15: [select] on a group of objects: the selection becomes the group,
    joined to the old selection unless that is discarded; the active object
    is the last of the group, and stays what it was for an empty group;
    objects, scene and materials are left alone. *)
Theorem select_sets_selection (group : list nat) (discard_selection : bool) h :
  ∃ h', select (Many (Some <$> group)) discard_selection h = (h', inr ())
      ∧ h_selected h'
          = list_to_set group
              ∪ (if discard_selection then ∅ else h_selected h)
      ∧ h_active h' = from_option Some (h_active h) (list.last group)
      ∧ h_objects h' = h_objects h ∧ h_scene h' = h_scene h
      ∧ h_materials h' = h_materials h ∧ h_log h' = h_log h.
Proof. apply select_group_run. Qed.

Section NormaliseFacts.
Context `{RT : Runtime}.

Lemma first_none (l : list (option nat)) :
  None ∈ l → ∃ ids rest, l = (Some <$> ids) ++ None :: rest.
Proof.
  induction l as [|[id|] l IH]; intros Hin.
  - by apply elem_of_nil in Hin.
  - apply elem_of_cons in Hin as [?|Hin]; [done|].
    destruct (IH Hin) as (ids & rest & ->). by exists (id :: ids), rest.
  - by exists [], l.
Qed.

Lemma normalise_filter_none (ids : list nat) (rest group : list (option nat)) h :
  fold_m (λ (group : list (option nat)) obj,
            keep ← normalise_keep obj;
            mret (if keep : bool then group ++ [obj] else group))
         ((Some <$> ids) ++ None :: rest) group h
  = (h, inl (AttributeError "'NoneType' object has no attribute")).
Proof.
  induction ids as [|id ids IH]; cbn [fmap list_fmap app fold_m].
  - rewrite !bind_run. reflexivity.
  - rewrite !bind_run, normalise_keep_real. cbn [mret M_ret]. apply IH.
Qed.

(** X16: given a list, [normalise_objects] keeps an object only if it
    [is None and] has a type that is not a mesh: a list of objects is
    filtered to nothing, so the selection is emptied and the transform is
    applied to no object. *)
Theorem normalise_list_bakes_nothing (ids : list nat) (apply_location : bool) h :
  ∃ h', normalise_objects (Many (Some <$> ids)) apply_location h
          = (h', inr ())
      ∧ h_objects h' = h_objects h
      ∧ h_selected h' = ∅
      ∧ h_active h' = h_active h
      ∧ h_log h' = h_log h ++ [EvTransformApply [] apply_location].
Proof.
  unfold normalise_objects. rewrite bind_run, normalise_group_real.
  rewrite bind_run. unfold select. rewrite bind_run.
  cbn [select_all_deselect modify for_each mret M_ret].
  unfold transform_apply, modify. cbn [h_selected with_selected].
  rewrite elements_empty. cbn [foldr].
  eexists. split; [reflexivity|]. done.
Qed.

(** X17: a list that holds [None] makes [normalise_objects] raise
    [AttributeError] while it filters, before anything is selected or
    transformed: the host is left as it was. *)
Theorem normalise_list_with_none_raises (l : list (option nat))
    (apply_location : bool) h :
  None ∈ l →
  normalise_objects (Many l) apply_location h
    = (h, inl (AttributeError "'NoneType' object has no attribute")).
Proof.
  intros (ids & rest & ->)%first_none.
  unfold normalise_objects. rewrite bind_run. cbn [normalise_group].
  by rewrite normalise_filter_none.
Qed.

(** X18: given one object, [normalise_objects] does bake it: the object
    becomes the whole selection and the active object, the transform is
    applied to it alone, and it is left with zero rotation, with zero
    location when the location is applied, and without an assigned world
    matrix; no other object changes. *)
Theorem normalise_single_bakes (id : nat) (apply_location : bool) h :
  ∃ h', normalise_objects (One (Some id)) apply_location h = (h', inr ())
      ∧ h_selected h' = {[id]}
      ∧ h_active h' = Some id
      ∧ h_log h' = h_log h ++ [EvTransformApply [id] apply_location]
      ∧ (∀ o, h_objects h !! id = Some o →
           ∃ o', h_objects h' !! id = Some o'
             ∧ ob_rotation_euler o' = zero_vec
             ∧ ob_location o'
                 = (if apply_location then zero_vec else ob_location o)
             ∧ ob_matrix_world o' = None
             ∧ ob_name o' = ob_name o ∧ ob_data o' = ob_data o
             ∧ ob_parent o' = ob_parent o)
      ∧ (∀ id', id' ≠ id → h_objects h' !! id' = h_objects h !! id').
Proof.
  unfold normalise_objects. rewrite bind_run. cbn [normalise_group mret M_ret].
  rewrite bind_run.
  destruct (select_group_run [id] true h)
    as (h1 & Hr & Hs & Ha & Ho & _ & _ & Hl).
  cbn [fmap list_fmap] in Hr. rewrite Hr.
  unfold transform_apply, modify.
  assert (Hsel : h_selected h1 = {[id]}) by (rewrite Hs; set_solver).
  rewrite Hsel, elements_singleton. cbn [foldr].
  eexists. split; [reflexivity|]. cbn. rewrite Ho, Hl.
  split; [done|]. split; [by rewrite Ha|].
  split; [done|]. split.
  - intros o Hid. rewrite lookup_alter_eq, Hid. cbn.
    eexists. split; [done|]. by destruct apply_location.
  - intros id' Hne. by rewrite lookup_alter_ne.
Qed.

End NormaliseFacts.

Lemma normalise_list_with_none_raises_witness :
  normalise_objects (Many [Some 0%nat; None]) true empty_host
    = (empty_host, inl (AttributeError "'NoneType' object has no attribute")).
Proof.
  apply (normalise_list_with_none_raises (RT := sample_runtime)).
  apply elem_of_cons. right. apply elem_of_cons. by left.
Defined.

Lemma object_join_outside h :
  ∀ id, id ∉ h_selected h → h_active h ≠ Some id →
        h_objects (object_join h).1 !! id = h_objects h !! id.
Proof.
  intros id Hsel Hact. unfold object_join, modify. cbn [fst].
  destruct (h_active h) as [a|] eqn:Ea; [|done].
  destruct (h_objects h !! a ≫= ob_data) as [me_a|]; [|done]. cbn.
  rewrite lookup_alter_ne by congruence.
  destruct (h_objects h !! id) as [ob|] eqn:Hob.
  - apply map_lookup_filter_Some. split; [done|]. cbn.
    intros [_ Hin]%list_elem_of_filter. apply elem_of_elements in Hin.
    set_solver.
  - apply map_lookup_filter_None. by left.
Qed.

Lemma object_join_active h a me_a :
  h_active h = Some a → h_objects h !! a ≫= ob_data = Some me_a →
  h_active (object_join h).1 = Some a
  ∧ is_mesh (h_objects (object_join h).1) a = true.
Proof.
  intros Ha Hme. unfold object_join, modify. cbn [fst].
  rewrite Ha, Hme. cbn. split; [done|].
  unfold is_mesh. rewrite lookup_alter_eq.
  match goal with |- context [filter ?P ?m !! a] =>
    destruct (filter P m !! a) as [oa|] eqn:Hoa end; [done|].
  exfalso. destruct (h_objects h !! a) as [ob|] eqn:Hob; [|done].
  apply map_lookup_filter_None in Hoa as [Hoa|Hoa]; [congruence|].
  apply (Hoa ob Hob). cbn.
  intros [_ Hin]%list_elem_of_filter. apply elem_of_elements in Hin.
  set_solver.
Qed.

Lemma object_join_removes h a me_a id :
  h_active h = Some a → h_objects h !! a ≫= ob_data = Some me_a →
  id ∈ h_selected h → id ≠ a → is_mesh (h_objects h) id = true →
  id ∉ live (object_join h).1.
Proof.
  intros Ha Hme Hsel Hne Hmesh. unfold object_join, modify, live. cbn [fst].
  rewrite Ha, Hme. cbn.
  rewrite dom_alter_L. intros [ob Hob]%elem_of_dom.
  apply map_lookup_filter_Some in Hob as [_ Hout]. cbn in Hout.
  apply Hout. apply list_elem_of_filter. split; [done|].
  apply elem_of_elements. set_solver.
Qed.

(** X19: [join_objects] returns the first object of the group, which it
    has made the active one; when the group consists of mesh objects, every
    other object of the group is gone from the host afterwards, the first
    is still a mesh, and no object outside the group is touched. An empty
    group returns [None] and changes nothing. *)
Theorem join_objects_keeps_first (group : list nat) h :
  (∀ id, id ∈ group → is_mesh (h_objects h) id = true) →
  match group with
  | [] => join_objects group h = (h, inr None)
  | joined :: rest =>
      ∃ h', join_objects group h = (h', inr (Some joined))
          ∧ h_active h' = Some joined
          ∧ is_mesh (h_objects h') joined = true
          ∧ (∀ id, id ∈ rest → id ≠ joined → (id ∉ live h'))
          ∧ (∀ id, id ∉ group → h_objects h' !! id = h_objects h !! id)
          ∧ h_log h' = h_log h
  end.
Proof.
  intros Hmesh. destruct group as [|joined rest]; [done|].
  unfold join_objects. rewrite bind_run.
  destruct (select_group_run (joined :: rest) true h)
    as (h1 & Hr & Hs & _ & Ho & _ & _ & Hl).
  rewrite Hr. rewrite bind_run. cbn [set_active modify]. rewrite bind_run.
  set (h2 := with_active h1 (Some joined)).
  assert (Hsel2 : h_selected h2 = list_to_set (joined :: rest))
    by (cbn; rewrite Hs; set_solver).
  assert (Hobj2 : h_objects h2 = h_objects h) by done.
  assert (Hjm : is_mesh (h_objects h2) joined = true).
  { rewrite Hobj2. apply Hmesh. apply elem_of_cons. by left. }
  assert (∃ me_a, h_objects h2 !! joined ≫= ob_data = Some me_a)
    as [me_a Hme].
  { unfold is_mesh in Hjm.
    destruct (h_objects h2 !! joined ≫= ob_data); [by eexists|done]. }
  destruct (object_join_active h2 joined me_a eq_refl Hme) as [Hact Hstill].
  exists (object_join h2).1. split; [done|].
  split; [done|]. split; [done|]. split; [|split].
  - intros id Hid Hne.
    eapply (object_join_removes h2 joined me_a id); [done..| |done|].
    + rewrite Hsel2. set_solver.
    + rewrite Hobj2. apply Hmesh. set_solver.
  - intros id Hid. rewrite object_join_outside, Hobj2; [done| |].
    + rewrite Hsel2. set_solver.
    + cbn. intros [= ->]. set_solver.
  - destruct (object_join_run h2) as (h' & Hj & Hlog & _).
    rewrite Hj. cbn [fst]. rewrite Hlog. cbn. done.
Qed.

Lemma join_objects_keeps_first_witness :
  ∃ h', join_objects [0; 1]%nat two_meshes = (h', inr (Some 0%nat))
      ∧ h_active h' = Some 0%nat
      ∧ is_mesh (h_objects h') 0%nat = true
      ∧ (∀ id, id ∈ [1%nat] → id ≠ 0%nat → (id ∉ live h'))
      ∧ (∀ id, id ∉ [0; 1]%nat →
           h_objects h' !! id = h_objects two_meshes !! id)
      ∧ h_log h' = h_log two_meshes.
Proof.
  apply (join_objects_keeps_first [0; 1]%nat two_meshes).
  intros id Hid. apply elem_of_cons in Hid as [->|Hid]; [by vm_compute|].
  apply elem_of_cons in Hid as [->|Hid]; [by vm_compute|].
  by apply elem_of_nil in Hid.
Defined.

(** ** [load] and the import operator *)

Lemma import_scene_keys `{RT : Runtime} objs kw h h' objs' keys :
  import_scene objs kw h = (h', inr (objs', keys)) →
  keys = (if import_materials kw then ["material_import"] else [])
           ++ ["mesh_import"]
           ++ (if import_hierarchy kw then [] else ["cleanup"]).
Proof.
  intros Hr%import_scene_inv. unfold import_scene_body in Hr.
  apply bind_inr in Hr as (h0 & [objs1 blm] & _ & Hr).
  apply bind_inr in Hr as (h1 & objs2 & _ & Hr).
  apply bind_inr in Hr as (h2 & roots & _ & Hr).
  apply bind_inr in Hr as (h3 & [] & _ & Hr).
  apply bind_inr in Hr as (h4 & [] & _ & Hr).
  apply bind_inr in Hr as (h5 & [] & _ & Hr).
  by injection Hr as <- <- <-.
Qed.

Lemma create_metrics_after_import (keys : list string) :
  "mesh_import" ∈ keys →
  create_metrics (keys ++ ["deserialization"; "total"]) = inr ().
Proof.
  intros Hk. unfold create_metrics.
  rewrite bool_decide_eq_false_2 by set_solver.
  rewrite bool_decide_eq_false_2 by set_solver.
  rewrite bool_decide_eq_false_2 by set_solver. done.
Qed.

(** X20: the import operator cannot run [load]: the keywords it passes
    are its own properties and [global_matrix], and [load] begins by
    reading [config_logger], which is not among them. Whatever the
    operator's settings, [execute] raises [KeyError] with the host
    untouched and the file not read. *)
Theorem execute_raises_key_error `{RT : Runtime}
    (deserialize_data3d : string → bool → exn + list Data3dObject)
    (axis_conversion : string → string → matrix) (self : ImportData3d) :
  ∃ run, execute deserialize_data3d axis_conversion self = Some run
       ∧ ∀ h, run h = (h, inl (Lookup (KeyError "config_logger"))).
Proof.
  eexists. split; [reflexivity|]. intros h. reflexivity.
Qed.

(** X21: called with all its arguments on a file the decoder accepts and
    whose meshes [create_mesh] takes (the face loops read inside their
    lists), [load] returns [FINISHED] in the host state [import_scene]
    leaves: [create_metrics] finds every key it reads.
    [import_al_metadata] is only needed when materials are imported, and a
    [global_matrix] of [None] stands for the identity; no argument may be
    named [data3d_objects]. With materials the import itself returns only
    if the host accepts them and no mesh names one. *)
Theorem load_returns_finished `{RT : Runtime}
    (deserialize_data3d : string → bool → exn + list Data3dObject)
    (args : dict string arg)
    (config_logger materials hierarchy : arg)
    (matrix_arg : option matrix) (input_file : string)
    (metadata : bool) (objs : list Data3dObject) :
  PyDict.get args "config_logger" = Some config_logger →
  PyDict.get args "global_matrix"
    = Some (from_option AMatrix ANone matrix_arg) →
  PyDict.get args "filepath" = Some (AStr input_file) →
  deserialize_data3d input_file (endswith input_file ".data3d.buffer")
    = inr objs →
  well_indexed_scene objs →
  PyDict.get args "import_materials" = Some materials →
  PyDict.get args "import_hierarchy" = Some hierarchy →
  PyDict.get args "data3d_objects" = None →
  (arg_truthy materials = true →
   (∃ a, PyDict.get args "import_al_metadata" = Some a
         ∧ arg_truthy a = metadata)
   ∧ host_accepts_scene metadata objs
   ∧ Forall (λ o, Forall unkeyed (meshes o)) objs) →
  let kw := {| filepath := input_file;
               import_materials := arg_truthy materials;
               import_hierarchy := arg_truthy hierarchy;
               import_al_metadata :=
                 arg_truthy materials && metadata;
               global_matrix := default identity_matrix matrix_arg |} in
  ∃ run, load deserialize_data3d args = Some run
    ∧ ∀ h, ∃ h' res, import_scene objs kw h = (h', inr res)
                     ∧ run h = (h', inr FINISHED).
Proof.
  intros Hcl Hgm Hfp Hde Hwf Him Hih Hpos%dict_mem_false Hmd kw.
  assert (Hret : ∀ h, ∃ h' res, import_scene objs kw h = (h', inr res)).
  { intros h. apply import_scene_returns; [done|]. subst kw.
    cbn [import_materials import_al_metadata].
    intros Ht. rewrite Ht. by destruct (Hmd Ht) as (_ & ? & ?). }
  unfold load. rewrite Hgm. subst kw.
  destruct matrix_arg as [m|]; cbn [from_option default] in Hret |- *;
    unfold id in Hret |- *;
    (eexists; split; [reflexivity|]);
    intros h; destruct (Hret h) as (h' & [objs' keys] & Hr);
    exists h', (objs', keys); split; [exact Hr| |exact Hr|];
    rewrite Hcl, Hfp, Hde;
    unfold import_scene_with; rewrite Hpos, Him, Hih;
    pose proof (import_scene_keys _ _ _ _ _ _ Hr) as Hkeys;
    assert ("mesh_import" ∈ keys) as Hmesh by (rewrite Hkeys; set_solver);
    destruct (arg_truthy materials) eqn:Et;
    cbn [andb] in Hr;
    try (destruct (Hmd eq_refl) as ((a & -> & ->) & _));
    rewrite Hr; by rewrite create_metrics_after_import.
Qed.

Lemma load_returns_finished_witness :
  ∃ run, @load sample_runtime (λ _ _, inr house_nodes) script_args = Some run
    ∧ ∀ h, ∃ h' res,
        @import_scene sample_runtime house_nodes
          {| filepath := "house.data3d.json"; import_materials := false;
             import_hierarchy := true; import_al_metadata := false;
             global_matrix := identity_matrix |} h = (h', inr res)
        ∧ run h = (h', inr FINISHED).
Proof.
  apply (@load_returns_finished sample_runtime (λ _ _, inr house_nodes)
           script_args (ABool false) (ABool false) (ABool true) None
           "house.data3d.json" false house_nodes); try reflexivity.
  - apply (bool_decide_unpack _). vm_compute. exact I.
  - intros [=].
Defined.

(** ** The scene graph the import leaves *)

Lemma view_alter (f : bl_obj → bl_obj)
    (g : obj_type * option nat → obj_type * option nat)
    (id : nat) (m : gmap nat bl_obj) :
  (∀ o, m !! id = Some o → link_view (f o) = g (link_view o)) →
  link_view <$> alter f id m = alter g id (link_view <$> m).
Proof.
  intros Hf. apply map_eq. intros j. rewrite lookup_fmap.
  destruct (decide (j = id)) as [->|Hne].
  - rewrite !lookup_alter_eq, lookup_fmap.
    destruct (m !! id) as [o|] eqn:E; [|done]. cbn. f_equal. by apply Hf.
  - by rewrite !lookup_alter_ne, lookup_fmap.
Qed.

Lemma view_alter_same (f : bl_obj → bl_obj) (id : nat) (m : gmap nat bl_obj) :
  (∀ o, m !! id = Some o → link_view (f o) = link_view o) →
  link_view <$> alter f id m = link_view <$> m.
Proof.
  intros Hf. rewrite (view_alter f (λ v, v)); [|done].
  apply map_eq. intros j. destruct (decide (j = id)) as [->|Hne].
  - rewrite lookup_alter_eq. by destruct ((link_view <$> m) !! id).
  - by rewrite lookup_alter_ne.
Qed.

Lemma view_live h h' : scene_view h' = scene_view h → live h' = live h.
Proof.
  unfold scene_view, live. intros Hv.
  rewrite <- (dom_fmap_L link_view (h_objects h')), Hv. apply dom_fmap_L.
Qed.

Lemma view_lookup h id :
  scene_view h !! id = link_view <$> h_objects h !! id.
Proof. unfold scene_view. apply lookup_fmap. Qed.

Lemma view_None h id : id ∉ live h → scene_view h !! id = None.
Proof.
  intros Hid. rewrite view_lookup. unfold live in Hid.
  apply not_elem_of_dom in Hid. by rewrite Hid.
Qed.

Lemma keeps_view_ret {A} (a : A) : keeps_view (mret a).
Proof. by intros h h' r [= <- <-]. Qed.

Lemma keeps_view_raise {A} (e : exn) : keeps_view (@raise A e).
Proof. by intros h h' r [= <- <-]. Qed.

Lemma keeps_view_bind {A B} (m : M A) (f : A → M B) :
  keeps_view m → (∀ a, keeps_view (f a)) → keeps_view (m ≫= f).
Proof.
  intros Hm Hf h h' r. rewrite bind_run.
  destruct (m h) as [h1 [e|a]] eqn:E; pose proof (Hm _ _ _ E) as Hv.
  - intros [= <- <-]. done.
  - intros Hr. rewrite <- Hv. by eapply Hf.
Qed.

Lemma keeps_view_modify (f : host → host) :
  (∀ h, h_objects (f h) = h_objects h) → keeps_view (modify f).
Proof.
  intros Hf h h' r [= <- <-]. unfold scene_view. by rewrite Hf.
Qed.

Lemma keeps_view_for_each {A} (l : list A) (body : A → M unit) :
  (∀ x, keeps_view (body x)) → keeps_view (for_each l body).
Proof.
  intros Hb. induction l as [|x l IH]; cbn [for_each].
  - apply keeps_view_ret.
  - apply keeps_view_bind; [apply Hb | intros _; apply IH].
Qed.

Lemma keeps_view_with_obj {A} (o : option nat) (k : nat → M A) :
  (∀ id, keeps_view (k id)) → keeps_view (with_obj o k).
Proof.
  intros Hk. destruct o as [id|]; cbn [with_obj];
    [apply Hk | apply keeps_view_raise].
Qed.

Lemma keeps_view_alter_object (f : bl_obj → bl_obj) (id : nat) :
  (∀ o, link_view (f o) = link_view o) → keeps_view (alter_object f id).
Proof.
  intros Hf h h' r [= <- <-]. unfold scene_view. cbn.
  apply view_alter_same. intros o _. apply Hf.
Qed.

Lemma keeps_view_type_of o : keeps_view (type_of o).
Proof.
  apply keeps_view_with_obj. intros id h h' r.
  destruct (h_objects h !! id); by intros [= <- <-].
Qed.

Lemma keeps_view_gets {A} (f : host → A) : keeps_view (gets f).
Proof. by intros h h' r [= <- <-]. Qed.

Lemma keeps_view_materials_new name : keeps_view (materials_new name).
Proof. by intros h h' r [= <- <-]. Qed.

Lemma keeps_view_select objects discard : keeps_view (select objects discard).
Proof.
  unfold select. apply keeps_view_bind.
  - destruct discard; [by apply keeps_view_modify | apply keeps_view_ret].
  - intros _. apply keeps_view_for_each. intros obj.
    apply keeps_view_with_obj. intros id.
    apply keeps_view_bind; [by apply keeps_view_modify|].
    intros _. by apply keeps_view_modify.
Qed.

Lemma keeps_view_optimize_mesh obj : keeps_view (optimize_mesh obj).
Proof.
  destruct obj as [id|]; cbn [optimize_mesh]; [|apply keeps_view_ret].
  apply keeps_view_bind; [apply keeps_view_type_of|]. intros t.
  case_decide; [apply keeps_view_ret | apply keeps_view_select].
Qed.

Lemma append_material_view (m : nat) (o : bl_obj) :
  link_view (append_material m o) = link_view o.
Proof.
  unfold append_material, link_view, ob_type.
  destruct (ob_data o) eqn:E; [|by rewrite E]. done.
Qed.

Section SceneGraph.
Context `{RT : Runtime}.

Lemma keeps_view_apply_material nd blm mesh ob :
  keeps_view (apply_material nd blm mesh ob).
Proof.
  unfold apply_material. destruct (m_material mesh) as [key|].
  - case_decide; [|apply keeps_view_ret].
    destruct (_ && _); [|apply keeps_view_raise].
    destruct (PyDict.get blm _); [|apply keeps_view_raise].
    apply keeps_view_bind;
      [apply keeps_view_alter_object, append_material_view|]. intros _.
    apply keeps_view_bind.
    { unfold bind_keywords. destruct (List.find _ _);
        [apply keeps_view_raise | apply keeps_view_ret]. }
    intros _. apply keeps_view_bind; [|intros b; apply keeps_view_ret].
    unfold py_gt. destruct (get_al_mat_node _ _) as [[]| |];
      apply keeps_view_ret || apply keeps_view_raise.
  - apply keeps_view_bind; [apply keeps_view_gets|]. intros [m|].
    + apply keeps_view_bind; [|intros _; apply keeps_view_ret].
      apply keeps_view_alter_object, append_material_view.
    + apply keeps_view_bind; [|intros _; apply keeps_view_ret].
      apply keeps_view_bind; [apply keeps_view_materials_new|]. intros m.
      apply keeps_view_alter_object, append_material_view.
Qed.

(** One mesh: a new mesh object without parent, nothing else changes. *)
Lemma import_mesh_view kw nd blm st mesh h h' st' :
  import_mesh kw nd blm st mesh h = (h', inr st') →
  scene_view h' = <[fresh (live h) := (MESH, None)]> (scene_view h).
Proof.
  intros Hr. unfold import_mesh in Hr.
  apply bind_inr in Hr as (h0 & me & Hcall & Hr).
  apply create_mesh_call_inr in Hcall as (-> & -> & _).
  apply bind_inr in Hr as (h1 & ob & Hnew & Hr).
  injection Hnew as <- <-.
  assert (keeps_view (is_emissive ←
                        (if import_materials kw
                         then apply_material nd blm mesh (fresh (live h))
                         else mret false);
                      scene_link (fresh (live h));;
                      optimize_mesh (Some (fresh (live h)));;
                      mret (if is_emissive : bool
                            then (st.1, st.2 ++ [fresh (live h)])
                            else (st.1 ++ [fresh (live h)], st.2)))) as Hk.
  { apply keeps_view_bind.
    { destruct (import_materials kw);
        [apply keeps_view_apply_material | apply keeps_view_ret]. }
    intros b. apply keeps_view_bind; [by apply keeps_view_modify|]. intros _.
    apply keeps_view_bind; [apply keeps_view_optimize_mesh|]. intros _.
    apply keeps_view_ret. }
  rewrite (Hk _ _ _ Hr). unfold scene_view. cbn.
  by rewrite fmap_insert.
Qed.

Lemma import_meshes_view kw nd blm ms st h h' st' :
  fold_m (import_mesh kw nd blm) ms st h = (h', inr st') →
  ∃ news, st' = (st.1 ++ news, st.2)
        ∧ length news = length ms
        ∧ (∀ id, id ∈ news → (id ∉ live h))
        ∧ ∀ id, scene_view h' !! id =
                if decide (id ∈ news) then Some (MESH, None)
                else scene_view h !! id.
Proof.
  revert st h. induction ms as [|mesh ms IH]; intros st h Hr.
  - injection Hr as <- <-. exists []. rewrite app_nil_r.
    split; [by destruct st|]. split; [done|].
    split; [by intros id ?%elem_of_nil|]. intros id.
    by rewrite decide_False by apply not_elem_of_nil.
  - cbn [fold_m] in Hr. apply bind_inr in Hr as (h1 & st1 & Hm & Hr).
    pose proof (import_mesh_view _ _ _ _ _ _ _ _ Hm) as Hv1.
    pose proof (grows_import_mesh _ _ _ _ _ _ _ _ Hm) as [Hsub1 _].
    apply import_mesh_returns in Hm as (-> & Hfresh & _).
    apply IH in Hr as (news & -> & Hlen & Hnews & Hv).
    exists (fresh (live h) :: news). cbn [fst snd].
    split; [by rewrite <- (assoc_L (++))|].
    split; [cbn; lia|]. split.
    + intros id [->|Hin]%elem_of_cons; [apply is_fresh|].
      intros Hid. by apply (Hnews id Hin), Hsub1.
    + intros id. rewrite Hv, Hv1.
      destruct (decide (id ∈ news)) as [Hin|Hout].
      * by rewrite decide_True by (by right).
      * destruct (decide (id = fresh (live h))) as [->|Hne].
        -- rewrite lookup_insert_eq. by rewrite decide_True by (by left).
        -- rewrite lookup_insert_ne by done.
           rewrite decide_False; [done|].
           by intros [?|?]%elem_of_cons.
Qed.

Lemma view_is_mesh h id p :
  scene_view h !! id = Some (MESH, p) → is_mesh (h_objects h) id = true.
Proof.
  rewrite view_lookup. unfold is_mesh, link_view, ob_type.
  destruct (h_objects h !! id) as [o|]; [|done]. cbn.
  by destruct (ob_data o).
Qed.

Lemma object_join_active_view h a me_a :
  h_active h = Some a → h_objects h !! a ≫= ob_data = Some me_a →
  scene_view (object_join h).1 !! a = scene_view h !! a.
Proof.
  intros Ha Hme. rewrite !view_lookup. unfold object_join, modify. cbn [fst].
  rewrite Ha, Hme. cbn. rewrite lookup_alter_eq.
  destruct (h_objects h !! a) as [oa|] eqn:Hoa; [|done]. cbn in Hme.
  match goal with |- context [filter ?P ?m !! a] =>
    assert (filter P m !! a = Some oa) as -> end.
  { apply map_lookup_filter_Some. split; [done|]. cbn.
    intros [_ Hin]%list_elem_of_filter. apply elem_of_elements in Hin.
    set_solver. }
  cbn. unfold link_view, ob_type. cbn. by rewrite Hme.
Qed.

(** Joining a group of meshes: the first stays as it is in the scene
    graph, the others are gone, nothing else changes. *)
Lemma join_objects_view (joined : nat) (rest : list nat) h :
  (∀ id, id ∈ joined :: rest → is_mesh (h_objects h) id = true) →
  ∃ h', join_objects (joined :: rest) h = (h', inr (Some joined))
      ∧ ∀ id, scene_view h' !! id =
              if decide (id ∈ rest ∧ id ≠ joined) then None
              else scene_view h !! id.
Proof.
  intros Hmesh. unfold join_objects. rewrite bind_run.
  destruct (select_group_run (joined :: rest) true h)
    as (h1 & Hr & Hs & _ & Ho & _ & _ & Hl).
  rewrite Hr. rewrite bind_run. cbn [set_active modify]. rewrite bind_run.
  set (h2 := with_active h1 (Some joined)).
  assert (Hsel2 : h_selected h2 = list_to_set (joined :: rest))
    by (cbn; rewrite Hs; set_solver).
  assert (Hobj2 : h_objects h2 = h_objects h) by done.
  assert (Hview2 : scene_view h2 = scene_view h)
    by (unfold scene_view; by rewrite Hobj2).
  assert (Hjm : is_mesh (h_objects h2) joined = true).
  { rewrite Hobj2. apply Hmesh. apply elem_of_cons. by left. }
  assert (∃ me_a, h_objects h2 !! joined ≫= ob_data = Some me_a)
    as [me_a Hme].
  { unfold is_mesh in Hjm.
    destruct (h_objects h2 !! joined ≫= ob_data); [by eexists|done]. }
  exists (object_join h2).1. split; [done|]. intros id.
  rewrite <- Hview2. destruct (decide (id = joined)) as [->|Hne].
  - rewrite decide_False by (by intros [_ ?]).
    by apply (object_join_active_view h2 joined me_a).
  - destruct (decide (id ∈ rest)) as [Hin|Hout].
    + rewrite decide_True by done. apply view_None.
      apply (object_join_removes h2 joined me_a id); [done..| |done|].
      * rewrite Hsel2. set_solver.
      * rewrite Hobj2. apply Hmesh. by right.
    + rewrite decide_False by (by intros [? _]).
      rewrite !view_lookup. f_equal. apply object_join_outside.
      * rewrite Hsel2. set_solver.
      * cbn. congruence.
Qed.

(** One node: a new object without parent, a mesh if the node has meshes,
    and nothing else changes. *)
Lemma import_node_view kw blm o h h' o' :
  import_node kw blm o h = (h', inr o') →
  ∃ b, o' = set_bl_object o (Some b) ∧ (b ∉ live h)
     ∧ scene_view h' = <[b := (node_type o, None)]> (scene_view h).
Proof.
  intros Hrun. pose proof Hrun as Hr. unfold import_node in Hr.
  apply bind_inr in Hr as (h1 & [bm em] & Hfold & _).
  pose proof (import_meshes_returns _ _ _ _ _ _ _ _ Hfold)
    as (news0 & [= -> ->] & _).
  destruct (import_meshes_view _ _ _ _ _ _ _ _ Hfold)
    as (news & Heq & Hlen & Hfresh & Hv1).
  injection Heq as Heq. cbn [fst app] in Heq. subst news0.
  unfold import_node in Hrun. rewrite bind_run, Hfold in Hrun.
  destruct news as [|b rest].
  - assert (Hv : scene_view h1 = scene_view h).
    { apply map_eq. intros id. rewrite Hv1.
      by rewrite decide_False by apply not_elem_of_nil. }
    assert (Hty : node_type o = EMPTY).
    { unfold node_type. destruct (meshes o); [done|discriminate Hlen]. }
    rewrite decide_False in Hrun by (cbn; lia).
    rewrite !bind_run in Hrun. cbn [objects_new] in Hrun.
    rewrite bind_run in Hrun. cbn [scene_link modify mret M_ret] in Hrun.
    rewrite decide_False in Hrun by (cbn; lia).
    cbn [mret M_ret bl_object set_bl_object with_obj] in Hrun.
    rewrite !bind_run in Hrun. cbn [alter_object modify] in Hrun.
    injection Hrun as <- <-.
    exists (fresh (dom (h_objects h1))).
    split; [done|]. split.
    { rewrite <- (view_live _ _ Hv). apply is_fresh. }
    unfold scene_view at 1. cbn.
    rewrite !view_alter_same by done. rewrite fmap_insert.
    fold (scene_view h1). by rewrite Hv, Hty.
  - assert (Hty : node_type o = MESH).
    { unfold node_type. destruct (meshes o); [discriminate Hlen|done]. }
    rewrite decide_True in Hrun by (cbn; lia). rewrite !bind_run in Hrun.
    destruct (join_objects_view b rest h1) as (h2 & Hj & Hv2).
    { intros id Hid. apply (view_is_mesh h1 id None).
      by rewrite Hv1, decide_True. }
    rewrite Hj in Hrun. cbn [with_obj] in Hrun. rewrite !bind_run in Hrun.
    cbn [alter_object modify mret M_ret] in Hrun.
    rewrite decide_False in Hrun by (cbn; lia).
    cbn [mret M_ret bl_object set_bl_object with_obj] in Hrun.
    rewrite !bind_run in Hrun. cbn [alter_object modify] in Hrun.
    injection Hrun as <- <-.
    exists b. split; [done|]. split; [apply Hfresh; by left|].
    unfold scene_view at 1. cbn.
    rewrite !view_alter_same by done. fold (scene_view h2).
    apply map_eq. intros id. rewrite Hv2, Hv1, Hty.
    destruct (decide (id = b)) as [->|Hne].
    + rewrite lookup_insert_eq, decide_False by (by intros [_ ?]).
      by rewrite decide_True by (by left).
    + rewrite lookup_insert_ne by done.
      destruct (decide (id ∈ rest)) as [Hin|Hout].
      * rewrite decide_True by done. symmetry. apply view_None.
        apply Hfresh. by right.
      * rewrite decide_False by (by intros [? _]).
        rewrite decide_False; [done|]. by intros [?|?]%elem_of_cons.
Qed.

(** The node loop: one new object per node. *)
Lemma import_nodes_view kw blm objs h h' objs' :
  import_nodes kw blm objs h = (h', inr objs') →
  ∃ bs, Forall3 imported_as objs objs' bs
      ∧ NoDup bs
      ∧ (∀ b, b ∈ bs → (b ∉ live h))
      ∧ (∀ id, id ∉ bs → scene_view h' !! id = scene_view h !! id)
      ∧ (∀ i o b, objs !! i = Some o → bs !! i = Some b →
           scene_view h' !! b = Some (node_type o, None)).
Proof.
  revert h objs'. induction objs as [|o objs IH]; intros h objs' Hr.
  - injection Hr as <- <-. exists []. split; [constructor|].
    split; [constructor|]. split; [by intros b ?%elem_of_nil|].
    split; [done|]. intros i o b Ho. by rewrite lookup_nil in Ho.
  - cbn [import_nodes] in Hr.
    apply bind_inr in Hr as (h1 & o1 & Hnode & Hr).
    apply bind_inr in Hr as (h2 & rest' & Hrest & Hr).
    injection Hr as <- <-.
    apply import_node_view in Hnode as (b & -> & Hb & Hv1).
    apply IH in Hrest as (bs & Hall & Hnd & Hbs & Hout & Hin).
    assert (Hlive1 : live h1 = {[b]} ∪ live h).
    { unfold live. rewrite <- !(dom_fmap_L link_view).
      fold (scene_view h1) (scene_view h). by rewrite Hv1, dom_insert_L. }
    assert (Hbbs : b ∉ bs).
    { intros Hbin. apply (Hbs b Hbin). rewrite Hlive1. set_solver. }
    exists (b :: bs). split; [by constructor|].
    split; [by apply NoDup_cons_2|]. split; [|split].
    + intros b' [->|Hb']%elem_of_cons; [done|].
      intros Hl. apply (Hbs b' Hb'). rewrite Hlive1. set_solver.
    + intros id Hid. apply not_elem_of_cons in Hid as [Hne Hid].
      by rewrite (Hout id Hid), Hv1, lookup_insert_ne.
    + intros [|i] o' b' Ho' Hb'; cbn in Ho', Hb'.
      * simplify_eq. by rewrite (Hout b' Hbbs), Hv1, lookup_insert_eq.
      * by eapply Hin.
Qed.

(** The parent links: a child gets its parent's object, a root is left
    alone. *)
Lemma link_parents_view (all objs : list Data3dObject) (bs : list nat)
    (roots : list (option nat)) h :
  Forall2 (λ o b, bl_object o = Some b ∧ bl_emission_object o = None) objs bs →
  NoDup bs →
  ∃ h', fold_m (link_parent all) objs roots h
          = (h', inr (roots ++ (Some <$> root_handles objs)))
      ∧ h_selected h' = h_selected h
      ∧ (∀ id, id ∉ bs → scene_view h' !! id = scene_view h !! id)
      ∧ (∀ i o b, objs !! i = Some o → bs !! i = Some b →
           scene_view h' !! b =
             (λ v, (v.1, match parent o with
                         | Some p => all !! p ≫= bl_object
                         | None => v.2
                         end)) <$> scene_view h !! b).
Proof.
  intros Hall. revert roots h.
  induction Hall as [|o b objs bs [Hb He] _ IH]; intros roots h Hnd.
  - exists h. cbn. rewrite app_nil_r. split; [done|]. split; [done|].
    split; [done|]. intros i o b Ho. by rewrite lookup_nil in Ho.
  - apply list.NoDup_cons in Hnd as [Hbbs Hnd].
    cbn [fold_m]. rewrite bind_run.
    assert (∃ h1, link_parent all roots o h
                    = (h1, inr (roots ++ (Some <$> root_handles_of o)))
              ∧ h_selected h1 = h_selected h
              ∧ scene_view h1 =
                  alter (λ v, (v.1, match parent o with
                                    | Some p => all !! p ≫= bl_object
                                    | None => v.2
                                    end)) b (scene_view h))
      as (h1 & Hr1 & Hs1 & Hv1).
    { unfold link_parent, root_handles_of. rewrite Hb, He.
      destruct (parent o) as [p|].
      - rewrite !bind_run. cbn [set_parent with_obj].
        rewrite !bind_run. cbn [alter_object modify mret M_ret].
        eexists. split; [by rewrite app_nil_r|]. split; [done|].
        unfold scene_view. cbn. by apply view_alter.
      - cbn [mret M_ret]. exists h. split; [done|]. split; [done|].
        apply map_eq. intros j. destruct (decide (j = b)) as [->|Hne].
        + rewrite lookup_alter_eq. by destruct (scene_view h !! b) as [[]|].
        + by rewrite lookup_alter_ne. }
    rewrite Hr1.
    destruct (IH (roots ++ (Some <$> root_handles_of o)) h1 Hnd)
      as (h' & Hr & Hs & Hout & Hin).
    exists h'. rewrite Hr. split.
    { unfold root_handles. cbn [mbind list_bind].
      by rewrite fmap_app, (assoc_L (++)). }
    split; [congruence|]. split.
    + intros id Hid. apply not_elem_of_cons in Hid as [Hne Hid].
      by rewrite (Hout id Hid), Hv1, lookup_alter_ne.
    + intros [|i] o' b' Ho' Hb'; cbn in Ho', Hb'.
      * simplify_eq. by rewrite (Hout b' Hbbs), Hv1, lookup_alter_eq.
      * rewrite (Hin i o' b' Ho' Hb'), Hv1, lookup_alter_ne; [done|].
        intros ->. apply Hbbs. by eapply list_elem_of_lookup_2.
Qed.

Lemma keeps_view_set_matrices (l : list (option nat)) (gm : matrix) :
  keeps_view (for_each l (λ obj, set_matrix_world obj gm)).
Proof.
  apply keeps_view_for_each. intros obj. apply keeps_view_with_obj.
  intros id. apply keeps_view_bind; [by apply keeps_view_alter_object|].
  intros _. by apply keeps_view_modify.
Qed.

Lemma set_matrices_selected (l : list (option nat)) (gm : matrix) h h' r :
  for_each l (λ obj, set_matrix_world obj gm) h = (h', r) →
  h_selected h' = h_selected h.
Proof.
  revert h. induction l as [|[id|] l IH]; intros h; cbn [for_each].
  - by intros [= <- <-].
  - rewrite bind_run. cbn [set_matrix_world with_obj]. rewrite bind_run.
    cbn [alter_object modify]. intros Hr. by rewrite (IH _ Hr).
  - rewrite bind_run. cbn [set_matrix_world with_obj raise].
    by intros [= <- <-].
Qed.

(** Removing the objects a test picks. *)
Lemma prune_view {A} (l : list A) (hd : A → nat)
    (c : A → obj_type → bool) h :
  NoDup (hd <$> l) → (∀ x, x ∈ l → hd x ∈ live h) →
  ∃ h', for_each l (λ x, t ← type_of (Some (hd x));
                         if c x t then unlink_and_remove (Some (hd x))
                         else mret ()) h = (h', inr ())
      ∧ (∀ id, id ∉ hd <$> l → scene_view h' !! id = scene_view h !! id)
      ∧ (∀ x, x ∈ l →
           ∃ v, scene_view h !! hd x = Some v
                ∧ scene_view h' !! hd x = if c x v.1 then None else Some v).
Proof.
  revert h. induction l as [|x l IH]; intros h Hnd Hlive.
  - exists h. split; [done|]. split; [done|]. by intros x ?%elem_of_nil.
  - cbn [fmap list_fmap] in Hnd. apply list.NoDup_cons in Hnd as [Hx Hnd].
    cbn [for_each]. rewrite !bind_run.
    assert (hd x ∈ live h) as Hxl by (apply Hlive; left).
    unfold live in Hxl. apply elem_of_dom in Hxl as [ob Hob].
    assert (type_of (Some (hd x)) h = (h, inr (ob_type ob))) as ->.
    { cbn [type_of with_obj]. by rewrite Hob. }
    assert (Hvx : scene_view h !! hd x = Some (link_view ob))
      by (by rewrite view_lookup, Hob).
    destruct (c x (ob_type ob)) eqn:Hc.
    + cbn [unlink_and_remove with_obj]. rewrite bind_run.
      cbn [scene_unlink objects_remove modify].
      match goal with |- context [for_each _ _ ?h1] => set (h1' := h1) end.
      assert (Hv1 : scene_view h1' = delete (hd x) (scene_view h)).
      { unfold scene_view. cbn. by rewrite fmap_delete. }
      destruct (IH h1' Hnd) as (h' & Hr & Hout & Hin).
      { intros y Hy. unfold live. cbn. rewrite dom_delete_L.
        apply elem_of_difference. split; [by apply Hlive; right|].
        intros ?%elem_of_singleton. apply Hx.
        apply list_elem_of_fmap. by exists y. }
      exists h'. split; [done|]. split.
      * intros id Hid. apply not_elem_of_cons in Hid as [Hne Hid].
        by rewrite (Hout id Hid), Hv1, lookup_delete_ne.
      * intros y [->|Hy]%elem_of_cons.
        -- exists (link_view ob). split; [done|]. cbn [fst link_view].
           rewrite Hc, (Hout _ Hx), Hv1. apply lookup_delete_eq.
        -- destruct (Hin y Hy) as (v & Hv & Hv'). exists v.
           rewrite Hv1, lookup_delete_ne in Hv; [done|].
           intros Heq. apply Hx. rewrite Heq.
           apply list_elem_of_fmap. by exists y.
    + cbn [mret M_ret].
      destruct (IH h Hnd) as (h' & Hr & Hout & Hin).
      { intros y Hy. apply Hlive. by right. }
      exists h'. split; [done|]. split.
      * intros id Hid. apply not_elem_of_cons in Hid as [Hne Hid].
        by apply Hout.
      * intros y [->|Hy]%elem_of_cons; [|by apply Hin].
        exists (link_view ob). split; [done|]. cbn [fst link_view].
        by rewrite Hc, (Hout _ Hx).
Qed.

Lemma view_clear_all (m : gmap nat bl_obj) (l : list nat) (id : nat) :
  (link_view <$> foldr (alter (put_parent None)) m l) !! id =
  if decide (id ∈ l) then (λ v, (v.1, None)) <$> (link_view <$> m) !! id
  else (link_view <$> m) !! id.
Proof.
  induction l as [|x l IH]; cbn [foldr].
  - by rewrite decide_False by apply not_elem_of_nil.
  - rewrite (view_alter _ (λ v, (v.1, None))) by done.
    destruct (decide (id = x)) as [->|Hne].
    + rewrite lookup_alter_eq, IH.
      rewrite (decide_True (P := x ∈ x :: l)) by (by left).
      destruct (decide (x ∈ l)); [|done].
      by destruct ((link_view <$> m) !! x).
    + rewrite lookup_alter_ne, IH by done.
      destruct (decide (id ∈ l)) as [Hin|Hout].
      * by rewrite decide_True by (by right).
      * rewrite decide_False; [done|]. by intros [?|?]%elem_of_cons.
Qed.

(** Clearing the parents, one selection at a time. *)
Lemma clear_parents_view (bs : list nat) h :
  (∀ id v, id ∈ h_selected h → scene_view h !! id = Some v → v.2 = None) →
  ∃ h', for_each (Some <$> bs) (λ bl, select (One bl) false;; parent_clear) h
          = (h', inr ())
      ∧ ∀ id, scene_view h' !! id =
              if decide (id ∈ bs)
              then (λ v, (v.1, None)) <$> scene_view h !! id
              else scene_view h !! id.
Proof.
  revert h. induction bs as [|b bs IH]; intros h Hsel.
  - exists h. split; [done|]. intros id.
    by rewrite decide_False by apply not_elem_of_nil.
  - cbn [fmap list_fmap for_each]. rewrite !bind_run.
    destruct (select_group_run [b] false h)
      as (h1 & Hs & Hsel1 & _ & Ho1 & _).
    cbn [fmap list_fmap] in Hs.
    change (select (One (Some b)) false h) with (select (Many [Some b]) false h).
    rewrite Hs. cbn [parent_clear modify].
    match goal with |- context [for_each _ _ ?h2] => set (h2' := h2) end.
    assert (Hv2 : ∀ id, scene_view h2' !! id =
              if decide (id = b)
              then (λ v, (v.1, None)) <$> scene_view h !! id
              else scene_view h !! id).
    { intros id. unfold scene_view at 1. cbn. rewrite view_clear_all, Ho1.
      fold (scene_view h). rewrite Hsel1.
      destruct (decide (id = b)) as [->|Hne].
      - rewrite decide_True; [done|]. apply elem_of_elements. set_solver.
      - destruct (decide (id ∈ _)) as [Hin|]; [|done].
        apply elem_of_elements in Hin.
        assert (id ∈ h_selected h) as Hin' by set_solver.
        destruct (scene_view h !! id) as [[t p]|] eqn:Hv; [|done].
        pose proof (Hsel id _ Hin' Hv) as Hp. cbn in Hp. by subst. }
    destruct (IH h2') as (h' & Hr & Hv).
    { intros id v Hin Hvid. change (h_selected h2') with (h_selected h1) in Hin.
      rewrite Hsel1 in Hin. rewrite Hv2 in Hvid.
      destruct (decide (id = b)) as [->|Hne].
      - destruct (scene_view h !! b) as [[t p]|]; cbn in Hvid;
          [by simplify_eq|done].
      - apply (Hsel id v); [set_solver|done]. }
    exists h'. split; [done|]. intros id. rewrite Hv, Hv2.
    destruct (decide (id = b)) as [->|Hne].
    + rewrite (decide_True (P := b ∈ b :: bs)) by (by left).
      destruct (decide (b ∈ bs)); [|done].
      by destruct (scene_view h !! b) as [[t p]|].
    + destruct (decide (id ∈ bs)) as [Hin|Hout].
      * by rewrite (decide_True (P := id ∈ b :: bs)) by (by right).
      * rewrite (decide_False (P := id ∈ b :: bs)); [done|].
        by intros [?|?]%elem_of_cons.
Qed.

Lemma normalise_list_run (ids : list nat) (apply_location : bool) h :
  ∃ h', normalise_objects (Many (Some <$> ids)) apply_location h
          = (h', inr ())
      ∧ h_objects h' = h_objects h
      ∧ h_selected h' = ∅
      ∧ h_active h' = h_active h
      ∧ h_log h' = h_log h ++ [EvTransformApply [] apply_location].
Proof.
  unfold normalise_objects. rewrite bind_run, normalise_group_real.
  rewrite bind_run. unfold select. rewrite bind_run.
  cbn [select_all_deselect modify for_each mret M_ret].
  unfold transform_apply, modify. cbn [h_selected with_selected].
  rewrite elements_empty. cbn [foldr].
  eexists. split; [reflexivity|]. done.
Qed.

Lemma material_stage_view objs kw h h0 objs1 blm :
  (if import_materials kw
   then import_data3d_materials objs (import_al_metadata kw)
   else mret (objs, [])) h = (h0, inr (objs1, blm)) →
  scene_view h0 = scene_view h.
Proof.
  destruct (import_materials kw).
  - intros Hr. apply import_data3d_materials_inv in Hr as (_ & _ & Ho & _).
    unfold scene_view. by rewrite Ho.
  - by intros [= <- <- <-].
Qed.

Lemma view_Some_live h id v : scene_view h !! id = Some v → id ∈ live h.
Proof.
  rewrite view_lookup. unfold live. intros Hv. apply elem_of_dom.
  destruct (h_objects h !! id); [by eexists|done].
Qed.

Lemma imported_links (objs objs' : list Data3dObject) (bs : list nat) :
  fresh_nodes objs → Forall3 imported objs objs' bs →
  Forall2 (λ o b, bl_object o = Some b ∧ bl_emission_object o = None) objs' bs.
Proof.
  intros Hfresh Himp. induction Himp as [|o o' b ? ? ? [mhm ->] _ IH].
  - constructor.
  - apply Forall_cons_1 in Hfresh as [Ho Hfresh]. constructor; [|by apply IH].
    done.
Qed.

Lemma handle_lookup (objs : list Data3dObject) (bs : list nat) (p : nat) :
  bl_object <$> objs = Some <$> bs → objs !! p ≫= bl_object = bs !! p.
Proof.
  intros Hbl. pose proof (f_equal (λ l, l !! p) Hbl) as Hp. cbn in Hp.
  rewrite !list_lookup_fmap in Hp.
  destruct (objs !! p) as [o|], (bs !! p) as [b|]; cbn in *; congruence.
Qed.

(** X22: the scene graph a returned import leaves. Every node got an
    object of its own under a handle that was free before; objects that
    were there before keep type and parent. With the hierarchy kept, a node
    without meshes and without children has lost its object again, and
    every other node has an object that is a mesh if the node has meshes
    and is empty otherwise, whose parent is the object of the node's
    parent. With the hierarchy flattened, exactly the nodes with meshes
    keep their object, as a mesh without parent. *)
Theorem imported_scene_graph objs kw h h' objs' keys :
  fresh_nodes objs →
  import_scene objs kw h = (h', inr (objs', keys)) →
  ∃ bs,
    Forall3 imported objs objs' bs ∧ NoDup bs
    ∧ (∀ b, b ∈ bs → (b ∉ live h))
    ∧ (∀ id, id ∉ bs → scene_view h' !! id = scene_view h !! id)
    ∧ ∀ i o b, objs !! i = Some o → bs !! i = Some b →
        scene_view h' !! b =
          if import_hierarchy kw then
            if bool_decide (meshes o = []) && bool_decide (children o = [])
            then None
            else Some (node_type o, parent o ≫= (bs !!.))
          else
            if bool_decide (meshes o = []) then None else Some (MESH, None).
Proof.
  intros Hfresh Hr%import_scene_inv. unfold import_scene_body in Hr.
  apply bind_inr in Hr as (h0 & [objs1 blm] & Hstage & Hr).
  pose proof (material_stage_view _ _ _ _ _ _ Hstage) as Hv0.
  apply material_stage_nodes in Hstage as [Hnodes _].
  apply bind_inr in Hr as (h1 & objs2 & Himport & Hr).
  apply import_nodes_view in Himport as (bs & Hall & Hnd & Hbs & Hout1 & Hin1).
  pose proof (imported_nodes _ _ _ _ Hnodes Hall) as Himp.
  pose proof (imported_bl_objects _ _ _ Himp) as Hbl.
  pose proof (imported_links _ _ _ Hfresh Himp) as Hlinks.
  rewrite bind_run in Hr.
  destruct (link_parents_view objs2 objs2 bs [] h1 Hlinks Hnd)
    as (h2 & Hlink & Hsel2 & Hout2 & Hin2).
  rewrite Hlink in Hr. cbn [app] in Hr. rewrite bind_run in Hr.
  destruct (normalise_list_run (root_handles objs2) true h2)
    as (h3 & Hnorm & Hobj3 & Hsel3 & _).
  rewrite Hnorm in Hr. rewrite bind_run in Hr.
  destruct (for_each (Some <$> root_handles objs2)
              (λ obj, set_matrix_world obj (global_matrix kw)) h3)
    as [h4 [e|[]]] eqn:Hset; [done|].
  pose proof (keeps_view_set_matrices _ _ _ _ _ Hset) as Hv4.
  pose proof (set_matrices_selected _ _ _ _ _ Hset) as Hsel4.
  rewrite bind_run in Hr.
  destruct (finish_hierarchy kw objs2 h4) as [h5 [e|[]]] eqn:Hfin; [done|].
  injection Hr as <- <- <-.
  assert (Hv3 : scene_view h3 = scene_view h2)
    by (unfold scene_view; by rewrite Hobj3).
  (* the scene graph before the clean-up *)
  assert (Hbefore : ∀ i o b, objs !! i = Some o → bs !! i = Some b →
    ∃ mhm, objs2 !! i = Some (set_bl_object (set_mat_hash_map o mhm) (Some b))
         ∧ scene_view h4 !! b = Some (node_type o, parent o ≫= (bs !!.))).
  { intros i o b Ho Hb.
    destruct (Forall3_lookup_l _ _ _ _ _ _ Himp Ho)
      as (o2 & b' & Ho2 & Hb' & mhm & ->).
    assert (b' = b) as -> by congruence.
    destruct (Forall2_lookup_l _ _ _ _ _ Hnodes Ho) as (o1 & Ho1 & mhm1 & ->).
    exists mhm. split; [done|].
    rewrite Hv4, Hv3, (Hin2 i _ b Ho2 Hb), (Hin1 i _ b Ho1 Hb). cbn.
    f_equal. f_equal. destruct (parent o) as [p|]; [|done]. cbn.
    by apply handle_lookup. }
  assert (Hothers : ∀ id, id ∉ bs → scene_view h4 !! id = scene_view h !! id).
  { intros id Hid. by rewrite Hv4, Hv3, (Hout2 id Hid), (Hout1 id Hid), Hv0. }
  assert (Hlive4 : ∀ b, b ∈ bs → b ∈ live h4).
  { intros b Hb. apply list_elem_of_lookup in Hb as [i Hb].
    destruct (Forall3_lookup_r _ _ _ _ _ _ Himp Hb) as (o & o2 & Ho & _).
    destruct (Hbefore i o b Ho Hb) as (_ & _ & Hv). by eapply view_Some_live. }
  assert (Hempty : ∀ o, bool_decide (node_type o = EMPTY)
                        = bool_decide (meshes o = [])).
  { intros o. unfold node_type. by destruct (meshes o). }
  exists bs. split; [done|]. split; [done|]. split.
  { intros b Hb. rewrite <- (view_live _ _ Hv0). by apply Hbs. }
  unfold finish_hierarchy in Hfin. destruct (import_hierarchy kw).
  - (* the hierarchy is kept *)
    assert (Hhd : ∀ o, o ∈ objs2 →
              bl_object o = Some (default 0%nat (bl_object o))).
    { intros o Ho. assert (bl_object o ∈ Some <$> bs) as Hin.
      { rewrite <- Hbl. by apply list_elem_of_fmap_2. }
      apply list_elem_of_fmap in Hin as (b & -> & ?). done. }
    assert (Hmap : default 0%nat ∘ bl_object <$> objs2 = bs).
    { rewrite list_fmap_compose, Hbl, <- list_fmap_compose.
      rewrite <- (list_fmap_id bs) at 2. by apply list_fmap_ext. }
    erewrite for_each_ext in Hfin; last first.
    { intros o Ho. rewrite (Hhd o Ho). reflexivity. }
    destruct (prune_view objs2 (default 0%nat ∘ bl_object)
                (λ o t, bool_decide (t = EMPTY)
                        && bool_decide (children o = [])) h4)
      as (h5' & Hrun & Hout & Hin).
    { by rewrite Hmap. }
    { intros o Ho. apply Hlive4. rewrite <- Hmap.
      by apply list_elem_of_fmap_2. }
    unfold compose in Hrun. rewrite Hrun in Hfin. injection Hfin as ->.
    rewrite Hmap in Hout. split.
    { intros id Hid. by rewrite (Hout id Hid), (Hothers id Hid). }
    intros i o b Ho Hb. destruct (Hbefore i o b Ho Hb) as (mhm & Ho2 & Hv).
    destruct (Hin _ (list_elem_of_lookup_2 _ _ _ Ho2)) as (v & Hv' & Hfinal).
    cbn in Hv', Hfinal. rewrite Hv in Hv'. injection Hv' as <-.
    rewrite Hfinal. cbn [fst]. by rewrite Hempty.
  - (* the hierarchy is flattened *)
    rewrite Hbl, bind_run in Hfin.
    destruct (clear_parents_view bs h4) as (h5a & Hclear & Hva).
    { intros id v Hid. rewrite Hsel4, Hsel3 in Hid. set_solver. }
    rewrite Hclear, bind_run in Hfin.
    destruct (normalise_list_run bs true h5a) as (h5b & Hnorm' & Hobj' & _).
    rewrite Hnorm', for_each_fmap in Hfin.
    assert (Hvb : scene_view h5b = scene_view h5a)
      by (unfold scene_view; by rewrite Hobj').
    destruct (prune_view bs id (λ _ t, bool_decide (t = EMPTY)) h5b)
      as (h5' & Hrun & Hout & Hin).
    { by rewrite list_fmap_id. }
    { intros b Hb. change (id b) with b. rewrite (view_live _ _ Hvb).
      apply list_elem_of_lookup in Hb as [i Hb].
      destruct (Forall3_lookup_r _ _ _ _ _ _ Himp Hb) as (o & o2 & Ho & _).
      destruct (Hbefore i o b Ho Hb) as (_ & _ & Hv).
      assert (b ∈ bs) as Hbin by (by eapply list_elem_of_lookup_2).
      apply (view_Some_live _ _ (node_type o, None)).
      rewrite Hva. rewrite decide_True by done. by rewrite Hv. }
    assert (h5' = h5) as ->.
    { assert ((h5', inr ()) = (h5, @inr exn () ())) as [= ->]; [|done].
      rewrite <- Hrun, <- Hfin. reflexivity. }
    rewrite list_fmap_id in Hout. split.
    { intros id Hid.
      rewrite (Hout id Hid), Hvb, Hva, decide_False by done.
      by apply Hothers. }
    intros i o b Ho Hb. destruct (Hbefore i o b Ho Hb) as (mhm & Ho2 & Hv).
    assert (b ∈ bs) as Hbin by (by eapply list_elem_of_lookup_2).
    destruct (Hin b Hbin) as (v & Hv' & Hfinal). cbn in Hv', Hfinal.
    rewrite Hvb, Hva, decide_True, Hv in Hv' by done.
    injection Hv' as <-. rewrite Hfinal. cbn [fst]. rewrite Hempty.
    unfold node_type. by destruct (meshes o).
Qed.

End SceneGraph.

Lemma imported_scene_graph_witness :
  ∃ h' objs' keys,
    @import_scene sample_runtime house_nodes (sample_kwargs false true)
      empty_host = (h', inr (objs', keys))
    ∧ ∃ bs,
        Forall3 imported house_nodes objs' bs ∧ NoDup bs
        ∧ (∀ b, b ∈ bs → (b ∉ live empty_host))
        ∧ (∀ id, id ∉ bs →
             scene_view h' !! id = scene_view empty_host !! id)
        ∧ ∀ i o b, house_nodes !! i = Some o → bs !! i = Some b →
            scene_view h' !! b =
              if bool_decide (meshes o = []) && bool_decide (children o = [])
              then None
              else Some (node_type o, parent o ≫= (bs !!.)).
Proof.
  destruct (@import_scene sample_runtime house_nodes (sample_kwargs false true)
              empty_host) as [h' [e|[objs' keys]]] eqn:Hrun.
  { exfalso. vm_compute in Hrun. discriminate Hrun. }
  exists h', objs', keys. split; [done|].
  apply (@imported_scene_graph sample_runtime house_nodes
           (sample_kwargs false true) empty_host h' objs' keys);
    [repeat constructor | exact Hrun].
Defined.

(** ** When the import returns *)

Section ImportReturns.
Context `{RT : Runtime}.

Lemma materials_loop_accepted import_metadata (tbl : dict Z material)
    ks blm h h' blm' :
  fold_m (λ (bl_materials : dict string Material) key,
            match PyDict.get tbl key with
            | Some al_mat =>
                mat ← Material_init (str key) al_mat import_metadata;
                mret (PyDict.set bl_materials (str key) mat)
            | None => mret bl_materials
            end) ks blm h = (h', inr blm') →
  ∀ k al_mat, k ∈ ks → PyDict.get tbl k = Some al_mat →
              host_accepts al_mat = true.
Proof.
  revert blm h. induction ks as [|k0 ks IH]; intros blm h Hr k al_mat Hk Hget.
  - by apply elem_of_nil in Hk.
  - cbn [fold_m] in Hr. apply bind_inr in Hr as (h1 & blm1 & Hbody & Hr).
    apply elem_of_cons in Hk as [->|Hk]; [|by eapply IH].
    rewrite Hget in Hbody.
    apply bind_inr in Hbody as (h2 & mat & Hinit & _).
    unfold Material_init in Hinit.
    apply bind_inr in Hinit as (h3 & bl & _ & Hinit).
    by destruct (host_accepts al_mat).
Qed.

Lemma import_data3d_materials_accepted objs import_metadata h h' res :
  import_data3d_materials objs import_metadata h = (h', inr res) →
  host_accepts_table import_metadata objs.
Proof.
  unfold import_data3d_materials, host_accepts_table.
  destruct (deduplicate import_metadata objs) as [objs1 tbl]. cbn [snd].
  intros (h1 & blm & Hloop & _)%bind_inr k al_mat Hget.
  eapply materials_loop_accepted; [done| |done].
  by eapply dict_get_Some_keys.
Qed.

Lemma import_data3d_materials_returns_table objs import_metadata :
  host_accepts_table import_metadata objs →
  returns (import_data3d_materials objs import_metadata).
Proof.
  intros Hok h. unfold import_data3d_materials, host_accepts_table in *.
  destruct (deduplicate import_metadata objs) as [objs1 tbl]. cbn [snd] in Hok.
  rewrite bind_run.
  destruct (materials_loop_returns import_metadata tbl (PyDict.keys tbl) [])
    with (h := h) as (h1 & blm & Hr).
  { intros k al_mat _ Hget. by eapply Hok. }
  rewrite Hr. cbn. eauto.
Qed.

Lemma import_scene_returns_table objs kw h :
  well_indexed_scene objs →
  (import_materials kw = true →
   host_accepts_table (import_al_metadata kw) objs
   ∧ Forall (λ o, Forall unkeyed (meshes o)) objs) →
  ∃ h' res, import_scene objs kw h = (h', inr res).
Proof.
  intros Hwf Hok. unfold import_scene, try_except.
  assert (∃ h' res, import_scene_body objs kw h = (h', inr res))
    as (h' & res & ->); [|eauto].
  unfold import_scene_body. rewrite bind_run.
  assert (∃ h0 objs1 blm,
    (if import_materials kw
     then import_data3d_materials objs (import_al_metadata kw)
     else mret (objs, [])) h = (h0, inr (objs1, blm))
    ∧ (import_materials kw = true →
       Forall (λ o, Forall unkeyed (meshes o)) objs1)
    ∧ well_indexed_scene objs1)
    as (h0 & objs1 & blm & Hstage & Hkeys & Hwf1).
  { destruct (import_materials kw) eqn:Ek.
    - destruct (Hok eq_refl) as [Hacc Hun].
      destruct (import_data3d_materials_returns_table _ _ Hacc h)
        as (h0 & [objs1 blm] & Hr).
      exists h0, objs1, blm. split; [done|].
      apply import_data3d_materials_nodes in Hr as ->.
      split; [|by apply deduplicate_well_indexed]. intros _.
      pose proof (hash_objects_nodes (import_al_metadata kw) objs []) as Hall.
      unfold deduplicate. clear -Hall Hun.
      induction Hall as [|o o1 ? ? [-> _] _ IH]; [constructor|].
      inversion Hun; subst. constructor; auto.
    - exists h, objs, []. split; [done|]. split; [by intros | done]. }
  rewrite Hstage.
  destruct (import_nodes_unkeyed kw blm objs1 h0 Hwf1 Hkeys)
    as (h1 & objs2 & Himp).
  rewrite bind_run, Himp.
  pose proof (import_nodes_returns _ _ _ _ _ _ Himp)
    as (bs & Hall & Hnd & Hbs & _).
  assert (Hbl : bl_object <$> objs2 = Some <$> bs).
  { clear -Hall. induction Hall as [|o o' b ? ? ? -> _ IH]; [done|].
    cbn. by rewrite IH. }
  assert (Hsome : Forall (λ o, is_Some (bl_object o)) objs2).
  { clear -Hall. induction Hall as [|o o' b ? ? ? -> _ IH];
      constructor; [by eexists | done]. }
  rewrite bind_run.
  destruct (link_parents_run objs2 objs2 [] h1 Hsome)
    as (h2 & Hlink & _ & Hlive2).
  rewrite Hlink. cbn [app]. rewrite bind_run.
  destruct (normalise_objects_run (root_handles objs2) true h2)
    as (h3 & Hnorm & Hobj3 & _).
  rewrite Hnorm, bind_run.
  destruct (set_matrices_run (root_handles objs2) (global_matrix kw) h3)
    as (h4 & Hset & Hlive4 & _).
  rewrite Hset, bind_run.
  destruct (finish_hierarchy_returns kw objs2 bs h4 Hbl Hnd) as (h5 & Hfin).
  { intros b Hb. rewrite Hlive4.
    assert (live h3 = live h2) as -> by (unfold live; by rewrite Hobj3).
    rewrite Hlive2. by apply Hbs. }
  rewrite Hfin. cbn. eauto.
Qed.

(** X23: when the import returns. Without materials it returns exactly
    when [create_mesh] takes every mesh of the scene, that is, when every
    face loop reads inside its lists: an index out of range raises before
    the mesh has an object. With materials it returns exactly when,
    besides, the host accepts every record of the deduplicated material
    table and no mesh of the scene names a material: a mesh whose key is
    neither missing nor empty makes it raise. *)
Theorem import_returns_iff objs kw h :
  (∃ h' res, import_scene objs kw h = (h', inr res))
  ↔ well_indexed_scene objs
    ∧ (import_materials kw = true →
       host_accepts_table (import_al_metadata kw) objs
       ∧ Forall (λ o, Forall unkeyed (meshes o)) objs).
Proof.
  split; [|intros [Hwf Hok]; by apply import_scene_returns_table].
  intros (h' & res & Hr%import_scene_inv).
  unfold import_scene_body in Hr.
  apply bind_inr in Hr as (h0 & [objs1 blm] & Hstage & Hr).
  apply bind_inr in Hr as (h1 & objs2 & Himport & _).
  pose proof (hash_objects_nodes (import_al_metadata kw) objs []) as Hall.
  split.
  - apply import_nodes_well_indexed in Himport.
    destruct (import_materials kw).
    + apply import_data3d_materials_nodes in Hstage as ->.
      unfold deduplicate, well_indexed_scene in *. clear -Hall Himport.
      induction Hall as [|o o1 ? ? [-> _] _ IH]; [constructor|].
      inversion Himport; subst. constructor; auto.
    + by injection Hstage as <- <- <-.
  - intros Hmat. rewrite Hmat in Hstage.
    split; [by eapply import_data3d_materials_accepted|].
    apply import_nodes_returns in Himport as (_ & _ & _ & _ & _ & _ & Hun).
    specialize (Hun Hmat).
    apply import_data3d_materials_nodes in Hstage as ->.
    unfold deduplicate in Hun. clear -Hall Hun.
    induction Hall as [|o o1 ? ? [-> _] _ IH]; [constructor|].
    inversion Hun; subst. constructor; auto.
Qed.

End ImportReturns.

(** ** Materials on a mesh *)

(** X24: an import that returns has given no node an emission object:
    the branch that collects emissive meshes is never reached. *)
Theorem returned_import_has_no_emission_object `{RT : Runtime}
    objs kw h h' objs' keys :
  import_scene objs kw h = (h', inr (objs', keys)) →
  Forall2 (λ o o', bl_emission_object o' = bl_emission_object o) objs objs'.
Proof. apply import_sets_no_emission_object. Qed.

Lemma returned_import_has_no_emission_object_witness :
  ∃ h' objs' keys,
    @import_scene sample_runtime house_nodes (sample_kwargs false true)
      empty_host = (h', inr (objs', keys))
    ∧ Forall2 (λ o o', bl_emission_object o' = bl_emission_object o)
        house_nodes objs'.
Proof.
  destruct (@import_scene sample_runtime house_nodes (sample_kwargs false true)
              empty_host) as [h' [e|[objs' keys]]] eqn:Hrun.
  { exfalso. vm_compute in Hrun. discriminate Hrun. }
  exists h', objs', keys. split; [done|].
  exact (@returned_import_has_no_emission_object sample_runtime _ _ _ _ _ _ Hrun).
Defined.



(** X26: a mesh whose face loop reads inside its lists, so that
    [create_mesh] returns, and whose material key resolves, through the
    node's hash map, to a material of [bl_materials] makes [import_mesh]
    raise [TypeError], whatever the material is: the material is appended,
    and the read of its emission coefficient passes the keyword
    [fallback]. *)
Theorem resolved_material_raises `{RT : Runtime} kw nd blm st mesh
    key hashed_key mat :
  import_materials kw = true →
  well_indexed mesh →
  m_material mesh = Some key → key ≠ "" →
  PyDict.get (mat_hash_map nd) key = Some hashed_key → hashed_key ≠ "" →
  PyDict.get blm hashed_key = Some mat →
  raises (import_mesh kw nd blm st mesh)
    (TypeError
       "get_al_mat_node() got an unexpected keyword argument 'fallback'").
Proof. apply resolved_material_fails. Qed.

Lemma resolved_material_raises_witness :
  raises
    (@import_mesh sample_runtime (sample_kwargs true true)
       (set_mat_hash_map lamp_node [("glow", "7")])
       [("7", {| al_material := [("lightEmissionCoef", num 2)];
                 al_material_hash := "7"; import_metadata := false;
                 bl_material := 0%nat |})]
       ([], []) (sample_mesh "bulb" (Some "glow")))
    (TypeError
       "get_al_mat_node() got an unexpected keyword argument 'fallback'").
Proof.
  apply (@resolved_material_raises sample_runtime (sample_kwargs true true)
           (set_mat_hash_map lamp_node [("glow", "7")]) _ ([], [])
           (sample_mesh "bulb" (Some "glow")) "glow" "7"
           {| al_material := [("lightEmissionCoef", num 2)];
              al_material_hash := "7"; import_metadata := false;
              bl_material := 0%nat |}); try done.
  apply (bool_decide_unpack _). vm_compute. exact I.
Defined.

(** ** An import that fails *)

Section FailedImport.
Context `{RT : Runtime}.

Lemma import_mesh_fails_leaves kw nd blm st mesh h h' e :
  import_mesh kw nd blm st mesh h = (h', inl e) →
  live h ⊆ live h' ∧ h_log h' = h_log h
  ∧ (well_indexed mesh →
     fresh (live h) ∈ live h' ∧ fresh (live h) ∉ live h).
Proof.
  intros Hr. destruct (grows_import_mesh _ _ _ _ _ _ _ _ Hr) as [Hsub Hlog].
  split; [done|]. split; [done|]. intros Hwf. split; [|apply is_fresh].
  unfold import_mesh in Hr.
  rewrite bind_run, create_mesh_call_run in Hr by done.
  rewrite bind_run in Hr. cbn [objects_new] in Hr.
  assert (grows (is_emissive ←
                   (if import_materials kw
                    then apply_material nd blm mesh (fresh (live h))
                    else mret false);
                 scene_link (fresh (live h));;
                 optimize_mesh (Some (fresh (live h)));;
                 mret (if is_emissive : bool
                       then (st.1, st.2 ++ [fresh (live h)])
                       else (st.1 ++ [fresh (live h)], st.2)))) as Hg.
  { apply grows_bind.
    { destruct (import_materials kw);
        [apply grows_apply_material | apply grows_ret]. }
    intros b. apply grows_bind; [apply grows_scene_link|]. intros _.
    apply grows_bind; [apply grows_optimize_mesh|]. intros _.
    apply grows_ret. }
  destruct (Hg _ _ _ Hr) as [Hsub1 _]. apply Hsub1.
  unfold live. cbn. rewrite dom_insert_L. set_solver.
Qed.

Lemma import_meshes_fail_leaves kw nd blm ms st h h' e :
  fold_m (import_mesh kw nd blm) ms st h = (h', inl e) →
  live h ⊆ live h' ∧ h_log h' = h_log h
  ∧ (Forall well_indexed ms → ∃ id, id ∈ live h' ∧ id ∉ live h).
Proof.
  revert st h. induction ms as [|mesh ms IH]; intros st h Hr; [done|].
  cbn [fold_m] in Hr. apply bind_inl in Hr as [Hm|(h1 & st1 & Hm & Hr)].
  - apply import_mesh_fails_leaves in Hm as (? & ? & Hnew).
    split; [done|]. split; [done|]. intros Hwf.
    exists (fresh (live h)). apply Hnew. by inversion Hwf.
  - destruct (grows_import_mesh _ _ _ _ _ _ _ _ Hm) as [Hsub1 Hlog1].
    apply IH in Hr as (Hsub & Hlog & Hnew).
    split; [set_solver|]. split; [congruence|]. intros Hwf.
    destruct Hnew as (id & Hid & Hn); [by inversion Hwf|].
    exists id. set_solver.
Qed.

Lemma import_node_fails_leaves kw blm o h h' e :
  import_node kw blm o h = (h', inl e) →
  live h ⊆ live h' ∧ h_log h' = h_log h
  ∧ (Forall well_indexed (meshes o) → ∃ id, id ∈ live h' ∧ id ∉ live h).
Proof.
  intros Hr. unfold import_node in Hr.
  apply bind_inl in Hr as [Hfold|(h1 & [bm em] & Hfold & Hr)];
    [by eapply import_meshes_fail_leaves|].
  exfalso.
  pose proof (import_meshes_returns _ _ _ _ _ _ _ _ Hfold)
    as (news & [= -> ->] & _ & _ & _ & Hnews & _).
  destruct (import_node_run kw blm o h h1 news Hfold)
    as (h2 & b & Hrun & _).
  { intros id Hid. by apply Hnews. }
  unfold import_node in Hrun. rewrite bind_run, Hfold in Hrun.
  cbn [app] in Hr. congruence.
Qed.

Lemma import_nodes_fail_leaves kw blm objs h h' e :
  import_nodes kw blm objs h = (h', inl e) →
  live h ⊆ live h' ∧ h_log h' = h_log h
  ∧ (well_indexed_scene objs → ∃ id, id ∈ live h' ∧ id ∉ live h).
Proof.
  revert h. induction objs as [|o objs IH]; intros h Hr; [done|].
  cbn [import_nodes] in Hr.
  apply bind_inl in Hr as [Hnode|(h1 & o1 & Hnode & Hr)].
  { apply import_node_fails_leaves in Hnode as (? & ? & Hnew).
    split; [done|]. split; [done|]. intros Hwf. apply Hnew.
    by inversion Hwf. }
  apply import_node_returns in Hnode as (b & _ & _ & _ & Hsub1 & Hlog1 & _).
  apply bind_inl in Hr as [Hrest|(h2 & rest & _ & Hr)]; [|done].
  apply IH in Hrest as (Hsub & Hlog & Hnew).
  split; [set_solver|]. split; [congruence|]. intros Hwf.
  destruct Hnew as (id & Hid & Hn); [by inversion Hwf|].
  exists id. set_solver.
Qed.

(** After the node loop nothing raises. *)
Lemma import_tail_returns kw blm objs1 h0 h1 objs2 :
  import_nodes kw blm objs1 h0 = (h1, inr objs2) →
  ∃ h' res,
    (bl_root_objects ← fold_m (link_parent objs2) objs2 [];
     normalise_objects (Many bl_root_objects) true;;
     for_each bl_root_objects
       (λ obj, set_matrix_world obj (global_matrix kw));;
     finish_hierarchy kw objs2;;
     mret (objs2,
           (if import_materials kw then ["material_import"] else [])
             ++ ["mesh_import"]
             ++ (if import_hierarchy kw then [] else ["cleanup"]))) h1
    = (h', inr res).
Proof.
  intros Himp.
  pose proof (import_nodes_returns _ _ _ _ _ _ Himp)
    as (bs & Hall & Hnd & Hbs & _).
  assert (Hbl : bl_object <$> objs2 = Some <$> bs).
  { clear -Hall. induction Hall as [|o o' b ? ? ? -> _ IH]; [done|].
    cbn. by rewrite IH. }
  assert (Hsome : Forall (λ o, is_Some (bl_object o)) objs2).
  { clear -Hall. induction Hall as [|o o' b ? ? ? -> _ IH];
      constructor; [by eexists | done]. }
  rewrite bind_run.
  destruct (link_parents_run objs2 objs2 [] h1 Hsome)
    as (h2 & Hlink & _ & Hlive2).
  rewrite Hlink. cbn [app]. rewrite bind_run.
  destruct (normalise_objects_run (root_handles objs2) true h2)
    as (h3 & Hnorm & Hobj3 & _).
  rewrite Hnorm, bind_run.
  destruct (set_matrices_run (root_handles objs2) (global_matrix kw) h3)
    as (h4 & Hset & Hlive4 & _).
  rewrite Hset, bind_run.
  destruct (finish_hierarchy_returns kw objs2 bs h4 Hbl Hnd) as (h5 & Hfin).
  { intros b Hb. rewrite Hlive4.
    assert (live h3 = live h2) as -> by (unfold live; by rewrite Hobj3).
    rewrite Hlive2. by apply Hbs. }
  rewrite Hfin. cbn. eauto.
Qed.

(** X27: a failed import is not undone. When [import_scene] raises, it
    raises the wrapped exception; no object that was there has been
    removed, no parent, transform or world matrix has been touched; and
    when the failure lies neither in the creation of the materials nor in
    [create_mesh] (the host accepts the materials, and every face loop
    reads inside its lists), at least one object created on the way is
    still in the host: the failure is then in the material block of a
    mesh, after [D.objects.new]. A mesh that [create_mesh] raises on has
    no object yet. *)
Theorem failed_import_leaves_objects objs kw h h' e :
  import_scene objs kw h = (h', inl e) →
  (∃ e0, e = ImportSceneFailed e0)
  ∧ live h ⊆ live h'
  ∧ h_log h' = h_log h
  ∧ (well_indexed_scene objs →
     (import_materials kw = true →
      host_accepts_table (import_al_metadata kw) objs) →
     ∃ id, id ∈ live h' ∧ id ∉ live h).
Proof.
  unfold import_scene, try_except.
  destruct (import_scene_body objs kw h) as [h1 [e0|res]] eqn:Hr; [|done].
  cbn [raise]. intros [= <- <-]. split; [by eexists|].
  unfold import_scene_body in Hr.
  apply bind_inl in Hr as [Hstage|(h0 & [objs1 blm] & Hstage & Hr)].
  - (* the material stage raises *)
    destruct (import_materials kw) eqn:Hk; [|done].
    destruct (grows_import_data3d_materials _ _ _ _ _ Hstage) as [Hsub Hlog].
    split; [done|]. split; [done|]. intros _ Hacc. exfalso.
    destruct (import_data3d_materials_returns_table _ _ (Hacc eq_refl) h)
      as (? & ? & Hret).
    congruence.
  - assert (live h ⊆ live h0 ∧ h_log h0 = h_log h) as [Hsub0 Hlog0].
    { destruct (import_materials kw).
      - by apply (grows_import_data3d_materials _ _ _ _ _ Hstage).
      - by injection Hstage as <- _ _. }
    assert (well_indexed_scene objs → well_indexed_scene objs1) as Hwf1.
    { intros Hwf. destruct (import_materials kw).
      - apply import_data3d_materials_nodes in Hstage as ->.
        by apply deduplicate_well_indexed.
      - by injection Hstage as _ <- _. }
    apply bind_inl in Hr as [Hnodes|(h2 & objs2 & Hnodes & Hr)].
    + apply import_nodes_fail_leaves in Hnodes as (Hsub & Hlog & Hnew).
      split; [set_solver|]. split; [congruence|]. intros Hwf _.
      destruct (Hnew (Hwf1 Hwf)) as (id & Hid & Hn).
      exists id. set_solver.
    + exfalso.
      destruct (import_tail_returns kw blm objs1 h0 h2 objs2 Hnodes)
        as (? & ? & Hret).
      congruence.
Qed.

End FailedImport.

Lemma failed_import_leaves_objects_witness :
  ∃ h' e,
    @import_scene sample_runtime [lamp_node] (sample_kwargs true true)
      empty_host = (h', inl e)
    ∧ (∃ e0, e = ImportSceneFailed e0)
    ∧ live empty_host ⊆ live h'
    ∧ h_log h' = h_log empty_host
    ∧ (well_indexed_scene [lamp_node] →
       (import_materials (sample_kwargs true true) = true →
        @host_accepts_table sample_runtime
          (import_al_metadata (sample_kwargs true true)) [lamp_node]) →
       ∃ id, id ∈ live h' ∧ id ∉ live empty_host).
Proof.
  destruct (@import_scene sample_runtime [lamp_node] (sample_kwargs true true)
              empty_host) as [h' [e|res]] eqn:Hrun.
  - exists h', e. split; [done|].
    exact (@failed_import_leaves_objects sample_runtime _ _ _ _ _ Hrun).
  - exfalso. vm_compute in Hrun. discriminate Hrun.
Defined.

(** ** Reference maps and frozen values in [material_utils] *)

Section TextureKeyFacts.
Context `{RT : Runtime}.

Lemma dict_display_has_key (l : list (string * string))
    (d : dict string string) (k : string) :
  k ∈ l.*1 ∨ is_Some (PyDict.get d k) →
  is_Some (PyDict.get (foldl (λ d kv, PyDict.set d kv.1 kv.2) d l) k).
Proof.
  revert d. induction l as [|[k0 v0] l IH]; intros d Hk; cbn [foldl].
  - destruct Hk as [Hk|Hk]; [by apply elem_of_nil in Hk | done].
  - apply IH. cbn [fmap list_fmap fst] in Hk.
    destruct (decide (k = k0)) as [->|Hne].
    + right. rewrite dict_get_set_eq. by eexists.
    + destruct Hk as [Hk|Hk].
      * left. by apply elem_of_cons in Hk as [?|?].
      * right. by rewrite dict_get_set_ne.
Qed.

(** X28: every key of the reference maps is a key the two material
    builders know: [d3d_to_node] of [create_cycles_material] has an entry
    for it, and the [if]-chain of [set_image_texture] has a branch for it,
    so its final [else] is never taken. *)
Theorem reference_maps_are_known (al_mat ref_maps : material) (k : string) :
  get_reference_maps al_mat = inr ref_maps →
  k ∈ PyDict.keys ref_maps →
  is_Some (PyDict.get d3d_to_node k) ∧ is_Some (texture_role_of k).
Proof.
  intros Hrun Hk. apply dict_keys_get in Hk as [v Hv].
  assert (k ∈ map_types) as Hin.
  { revert Hv.
    apply (reference_loop_inv al_mat map_types [] ref_maps
             (λ k v, k ∈ map_types)); done. }
  split.
  - apply dict_display_has_key. left. cbn [fmap list_fmap fst].
    unfold map_types in Hin. set_solver.
  - unfold texture_role_of, map_types in *.
    repeat case_decide; try by eexists.
    exfalso. set_solver.
Qed.

(** X29: the variants of a colour or of the uv scale that are lists in the
    scene file are tuples in the record a [Material] is built from, so
    extending them by a tuple, as [create_cycles_material] does, gives the
    extended tuple; on the list itself it would raise [TypeError]. *)
Theorem frozen_value_extends import_metadata
    (al_material : material) (k : string) (l : list scalar) :
  k ∈ extended_keys →
  PyDict.get al_material k = Some (VList l) →
  ∃ v, PyDict.get (get_al_material_hash import_metadata al_material).2 k
         = Some v
     ∧ add_tuple v [SNum 1%Qc] = inr (VTuple (l ++ [SNum 1%Qc]))
     ∧ ∃ msg, add_tuple (VList l) [SNum 1%Qc] = inl (TypeError msg).
Proof.
  intros Hk Hget. exists (VTuple l).
  split; [|split; [done|by eexists]].
  unfold get_al_material_hash. cbn [snd].
  rewrite reduce_material_get, decide_True, Hget; [done|].
  unfold extended_keys in Hk. unfold compare_keys.
  apply elem_of_app. left. set_solver.
Qed.

End TextureKeyFacts.

Lemma reference_maps_are_known_witness :
  is_Some (PyDict.get (@d3d_to_node sample_runtime) "mapDiffuse")
  ∧ is_Some (@texture_role_of sample_runtime "mapDiffuse").
Proof.
  apply (@reference_maps_are_known sample_runtime textured
           [("mapDiffuse", VScalar (SStr "wood.jpg"))]); [reflexivity|].
  compute_done.
Defined.

Lemma frozen_value_extends_witness :
  ∃ v, PyDict.get
         (@get_al_material_hash sample_runtime false
            [("colorDiffuse", grey)]).2 "colorDiffuse" = Some v
     ∧ add_tuple v [SNum 1%Qc]
         = inr (VTuple ([SNum (Q2Qc (1 # 2)); SNum (Q2Qc (1 # 2));
                         SNum (Q2Qc (1 # 2))] ++ [SNum 1%Qc]))
     ∧ ∃ msg, add_tuple (VList [SNum (Q2Qc (1 # 2)); SNum (Q2Qc (1 # 2));
                                SNum (Q2Qc (1 # 2))]) [SNum 1%Qc]
              = inl (TypeError msg).
Proof.
  apply (@frozen_value_extends sample_runtime false [("colorDiffuse", grey)]
           "colorDiffuse"); [compute_done|reflexivity].
Defined.
